(** * round_corners.py: the corner-rounding kernel, embedded and verified

    The development follows [src/round_corners.py]: the offset-curve tree
    ([CenterCurveSegment]), the tree intersector
    ([intersectCenterCurveSegments]) and the corner orchestrator
    ([RoundedCorners.super_node], [RoundedCorners.subpath_round_corner]).

    The program computes on Python floats.  The embedding is written once
    over an interface of the arithmetic the program uses ([Arith]) and is
    instantiated twice:
    - at [PrimFloat.float], IEEE 754 binary64, which is what a Python float
      is; this instance runs, and every concrete run below is a run of it;
    - at [R], exact real arithmetic, for the statements the specification
      makes about the mathematics of the kernel.

    Python exceptions are results ([Raise]); the two recursive functions of
    the source take a fuel argument ([OutOfFuel] is the model running out of
    it, not a Python outcome).  A function that changes an object returns
    the object as it leaves it: [subpath_round_corner] returns the
    extension object with the subpath, [intersectCenterCurveSegments] the
    first tree with its result.  The [print] calls are left out. *)

From Stdlib Require Import String ZArith List Bool Lia Permutation.
From Stdlib Require Import Floats.
From Stdlib Require Import Reals Lra.
Import ListNotations.

Set Implicit Arguments.
Set Warnings "-inexact-float,-register-all".

(** ** Results of a Python computation *)

Inductive exn : Type :=
| ZeroDivisionError
| ValueError
| OverflowError
| IndexError
| TypeError
| AttributeError
| Exception (msg : string).

Inductive Res (A : Type) : Type :=
| Ok (a : A)
| Raise (e : exn)
| OutOfFuel.

Arguments Ok {A} a.
Arguments Raise {A} e.
Arguments OutOfFuel {A}.

Definition bind {A B : Type} (c : Res A) (k : A -> Res B) : Res B :=
  match c with
  | Ok a => k a
  | Raise e => Raise e
  | OutOfFuel => OutOfFuel
  end.

Declare Scope res_scope.
Delimit Scope res_scope with res.
Notation "x <- c ;; k" := (bind c (fun x => k))
  (at level 61, c at next level, right associativity) : res_scope.
Notation "' pat <- c ;; k" := (bind c (fun x => match x with pat => k end))
  (at level 61, pat pattern, c at next level, right associativity) : res_scope.
Local Open Scope res_scope.

(** ** The arithmetic the program uses

    [fdiv] is Python's [/] on floats: it raises [ZeroDivisionError] on a
    zero divisor.  [fsqrt] is [math.sqrt]: [ValueError] on a negative
    argument.  [fpow2 x] is [x**2]: [OverflowError] when a finite [x]
    overflows.  The comparisons are Python's [<], [>] and [!=].  The
    constants are the literals of the source. *)

Class Arith (F : Type) : Type := {
  f0 : F;                      (* 0, 0. *)
  f1 : F;                      (* 1 *)
  f2 : F;                      (* 2, 2. *)
  lit_0_26 : F;                (* 0.26 *)
  lit_0_001 : F;               (* 0.001 *)
  lit_1e_9 : F;                (* 1e-9 *)
  lit_4_3 : F;                 (* 4./3. *)
  lit_1e99 : F;                (* 1e99 *)
  lit_0_90 : F;                (* 0.90 *)
  lit_0_98 : F;                (* 0.98 *)
  fadd : F -> F -> F;
  fsub : F -> F -> F;
  fmul : F -> F -> F;
  fopp : F -> F;
  fabs : F -> F;
  fdiv : F -> F -> Res F;
  fsqrt : F -> Res F;
  fpow2 : F -> Res F;
  flt : F -> F -> bool;
  fgt : F -> F -> bool;
  fne : F -> F -> bool
}.

(** ** Python lists: indexing, assignment and slices with integer indices *)

Section PyList.
Context {A : Type}.

Definition len (l : list A) : Z := Z.of_nat (length l).

(** [l[i]]: a negative index counts from the end; out of range raises. *)
Definition py_index (l : list A) (i : Z) : Res A :=
  let j := if (i <? 0)%Z then (i + len l)%Z else i in
  if (j <? 0)%Z then Raise IndexError
  else match nth_error l (Z.to_nat j) with
       | Some a => Ok a
       | None => Raise IndexError
       end.

Fixpoint set_nth (l : list A) (n : nat) (a : A) : list A :=
  match l, n with
  | [], _ => []
  | _ :: r, O => a :: r
  | b :: r, S m => b :: set_nth r m a
  end.

(** [l[i]] as the target of an update: the element is replaced by [f] of
    it (the source assigns to one slot of the node stored there). *)
Definition py_update (l : list A) (i : Z) (f : A -> A) : Res (list A) :=
  a <- py_index l i ;;
  let j := if (i <? 0)%Z then (i + len l)%Z else i in
  Ok (set_nth l (Z.to_nat j) (f a)).

(** A slice bound: negative counts from the end, then clamped to the list. *)
Definition py_bound (l : list A) (i : Z) : nat :=
  let j := if (i <? 0)%Z then (i + len l)%Z else i in
  Z.to_nat (Z.min (Z.max j 0) (len l)).

(** [l[lo:hi]] *)
Definition py_slice (l : list A) (lo hi : Z) : list A :=
  let a := py_bound l lo in
  let b := py_bound l hi in
  firstn (b - a) (skipn a l).

(** [l[:hi]] and [l[lo:]] *)
Definition py_slice_to (l : list A) (hi : Z) : list A := py_slice l 0 hi.
Definition py_slice_from (l : list A) (lo : Z) : list A := py_slice l lo (len l).
End PyList.

Section Kernel.
Context {F : Type} {AF : Arith F}.

Definition point : Type := (F * F)%type.

Infix "+." := fadd (at level 50, left associativity).
Infix "-." := fsub (at level 50, left associativity).
Infix "*." := fmul (at level 40, left associativity).

(** [min(...)] and [max(...)] of Python: the first argument is kept unless
    a later one compares strictly below (above) it. *)
Definition py_min2 (a b : F) : F := if flt b a then b else a.
Definition py_max2 (a b : F) : F := if fgt b a then b else a.

Definition py_min (l : list F) : Res F :=
  match l with
  | [] => Raise ValueError
  | a :: r => Ok (fold_left py_min2 r a)
  end.

Definition py_max (l : list F) : Res F :=
  match l with
  | [] => Raise ValueError
  | a :: r => Ok (fold_left py_max2 r a)
  end.

(** *** Vector primitives *)

(** One pass of the inner [while] of [calculate_center_point]: the list of
    the [(1-t)*prev + t*x] of neighbours. *)
Fixpoint casteljau_pass (t : F) (prev : F) (l : list F) : list F :=
  match l with
  | [] => []
  | x :: r => ((f1 -. t) *. prev +. t *. x) :: casteljau_pass t x r
  end.

Definition casteljau_step (t : F) (l : list F) : list F :=
  match l with
  | [] => []
  | prev :: r => casteljau_pass t prev r
  end.

(** The outer [while len(prev_x_list) > 2]: [n] bounds the number of
    passes, each of which shortens the list by one. *)
Fixpoint casteljau_reduce (n : nat) (t : F) (l : list F) : list F :=
  match n with
  | O => l
  | S m => if (2 <? len l)%Z then casteljau_reduce m t (casteljau_step t l) else l
  end.

(** [CenterCurveSegment.calculate_center_point], on the fields it reads.
    The x and y lists are reduced by the same passes (the constructor has
    checked they have the same length). *)
Definition calculate_center_point_of
    (x y : list F) (side radius : F) (t : F) : Res point :=
  let xs := casteljau_reduce (length x) t x in
  let ys := casteljau_reduce (length x) t y in
  x0 <- py_index xs 0 ;; x1 <- py_index xs 1 ;;
  y0 <- py_index ys 0 ;; y1 <- py_index ys 1 ;;
  let dx := x1 -. x0 in
  let dy := y1 -. y0 in
  dx2 <- fpow2 dx ;; dy2 <- fpow2 dy ;;
  norm <- fsqrt (dx2 +. dy2) ;;
  qx <- fdiv (side *. dy) norm ;;
  let cx := (f1 -. t) *. x0 +. t *. x1 -. qx *. radius in
  qy <- fdiv (side *. dx) norm ;;
  let cy := (f1 -. t) *. y0 +. t *. y1 +. qy *. radius in
  Ok (cx, cy).

(** [RoundedCorners.split_bezier_curve] *)
Definition split_bezier_curve (p0 p1 p2 p3 : point) (t : F)
  : (point * point * point * point) * (point * point * point * point) :=
  let t1 := f1 -. t in
  let p10 := (t1 *. fst p0 +. t *. fst p1, t1 *. snd p0 +. t *. snd p1) in
  let p11 := (t1 *. fst p1 +. t *. fst p2, t1 *. snd p1 +. t *. snd p2) in
  let p12 := (t1 *. fst p2 +. t *. fst p3, t1 *. snd p2 +. t *. snd p3) in
  let p20 := (t1 *. fst p10 +. t *. fst p11, t1 *. snd p10 +. t *. snd p11) in
  let p21 := (t1 *. fst p11 +. t *. fst p12, t1 *. snd p11 +. t *. snd p12) in
  let p30 := (t1 *. fst p20 +. t *. fst p21, t1 *. snd p20 +. t *. snd p21) in
  ((p0, p10, p20, p30), (p30, p21, p12, p3)).

(** [RoundedCorners.arc_bezier_handles] *)
Definition arc_bezier_handles (p1 p4 c : point) : Res (point * point) :=
  let '(x1, y1) := p1 in
  let '(x4, y4) := p4 in
  let '(xc, yc) := c in
  let ax := x1 -. xc in
  let ay := y1 -. yc in
  let bx := x4 -. xc in
  let by_ := y4 -. yc in
  let q1 := ax *. ax +. ay *. ay in
  let q2 := q1 +. ax *. bx +. ay *. by_ in
  r <- fsqrt (f2 *. q1 *. q2) ;;
  k2 <- fdiv (lit_4_3 *. (r -. q2)) (ax *. by_ -. ay *. bx) ;;
  let x2 := xc +. ax -. k2 *. ay in
  let y2 := yc +. ay +. k2 *. ax in
  let x3 := xc +. bx +. k2 *. by_ in
  let y3 := yc +. by_ -. k2 *. bx in
  Ok ((x2, y2), (x3, y3)).

(** *** The offset-curve tree *)

Definition search_values : Type := (F * F * F * F)%type.
Definition sv0 (v : search_values) : F := let '(a, _, _, _) := v in a.
Definition sv1 (v : search_values) : F := let '(_, b, _, _) := v in b.
Definition sv2 (v : search_values) : F := let '(_, _, c, _) := v in c.
Definition sv3 (v : search_values) : F := let '(_, _, _, d) := v in d.

(** The object a [CenterCurveSegment] is once [__init__] has returned.
    [_segments] is [None] or the list object of the children;
    [intersectCenterCurveSegments] reverses that list in place, so it is
    part of the state of the tree. *)
Inductive CenterCurveSegment : Type := mkCCS {
  _x : list F;
  _y : list F;
  _side : F;
  _radius : F;
  _eps : F;
  _t_start : F;
  _t_end : F;
  _p_start : point;
  _p_end : point;
  _searchDir : point;
  _segments : option (list CenterCurveSegment);
  _terminalSegments : Z;
  _searchValues : search_values;
  _hullPoints : list point
}.

Definition set_segments (s : CenterCurveSegment)
    (l : option (list CenterCurveSegment)) : CenterCurveSegment :=
  mkCCS (_x s) (_y s) (_side s) (_radius s) (_eps s) (_t_start s) (_t_end s)
        (_p_start s) (_p_end s) (_searchDir s) l (_terminalSegments s)
        (_searchValues s) (_hullPoints s).

(** [convexHullSearchValues], on the hull points it reads. *)
Definition convexHullSearchValues_of (hull : list point) (searchDir : point)
  : Res search_values :=
  let v_parallel :=
    map (fun p => fst searchDir *. fst p +. snd searchDir *. snd p) hull in
  let v_orthogonal :=
    map (fun p => fopp (snd searchDir) *. fst p +. fst searchDir *. snd p) hull in
  a <- py_min v_parallel ;; b <- py_max v_parallel ;;
  c <- py_min v_orthogonal ;; d <- py_max v_orthogonal ;;
  Ok (a, b, c, d).

Definition convexHullSearchValues (s : CenterCurveSegment) (searchDir : point)
  : Res search_values :=
  convexHullSearchValues_of (_hullPoints s) searchDir.

Definition calculate_center_point (s : CenterCurveSegment) (t : F) : Res point :=
  calculate_center_point_of (_x s) (_y s) (_side s) (_radius s) t.

(** The loop [for s in self._segments[1:]] of [__init__]. *)
Fixpoint union_search_values (searchDir : point) (acc : search_values)
    (l : list CenterCurveSegment) : Res search_values :=
  match l with
  | [] => Ok acc
  | s :: r =>
      loc <- convexHullSearchValues s searchDir ;;
      union_search_values searchDir
        (py_min2 (sv0 acc) (sv0 loc), py_max2 (sv1 acc) (sv1 loc),
         py_min2 (sv2 acc) (sv2 loc), py_max2 (sv3 acc) (sv3 loc)) r
  end.

(** The four corners of the box [v] of the frame [d], in world coordinates. *)
Definition hull_of_search_values (d : point) (v : search_values) : list point :=
  [ (fst d *. sv0 v -. snd d *. sv2 v, snd d *. sv0 v +. fst d *. sv2 v);
    (fst d *. sv0 v -. snd d *. sv3 v, snd d *. sv0 v +. fst d *. sv3 v);
    (fst d *. sv1 v -. snd d *. sv2 v, snd d *. sv1 v +. fst d *. sv2 v);
    (fst d *. sv1 v -. snd d *. sv3 v, snd d *. sv1 v +. fst d *. sv3 v) ].

(** The test of [__init__] that decides between subdividing and making the
    node terminal; [or] does not evaluate its right operand when the left
    one holds. *)
Definition subdivision_criterion (eps t_start t_end : F)
    (p_mid_est p_mid : point) : Res bool :=
  if fgt (t_end -. t_start) lit_0_26 then Ok true
  else
    a <- fpow2 (fst p_mid_est -. fst p_mid) ;;
    b <- fpow2 (snd p_mid_est -. snd p_mid) ;;
    e2 <- fpow2 eps ;;
    Ok (fgt (a +. b) e2).

(** [CenterCurveSegment.__init__] *)
Fixpoint CenterCurveSegment_init (fuel : nat) (x y : list F)
    (side radius eps t_start t_end : F) (p_start p_end : option point)
    {struct fuel} : Res CenterCurveSegment :=
  match fuel with
  | O => OutOfFuel
  | S fuel' =>
    if negb (len x =? len y)%Z then
      Raise (Exception "x and y coordinate lists do not have the same length.")
    else if (len x <? 2)%Z then
      Raise (Exception "at least two points required to use the CenterCurveSegment")
    else
    ps <- match p_start with
          | Some p => Ok p
          | None => calculate_center_point_of x y side radius t_start
          end ;;
    pe <- match p_end with
          | Some p => Ok p
          | None => calculate_center_point_of x y side radius t_end
          end ;;
    let nx := fst pe -. fst ps in
    let ny := snd pe -. snd ps in
    nx2 <- fpow2 nx ;; ny2 <- fpow2 ny ;;
    n_norm <- fsqrt (nx2 +. ny2) ;;
    d0 <- fdiv nx n_norm ;; d1 <- fdiv ny n_norm ;;
    let searchDir := (d0, d1) in
    t_mid <- fdiv (t_start +. t_end) f2 ;;
    p_mid <- calculate_center_point_of x y side radius t_mid ;;
    e0 <- fdiv (fst ps +. fst pe) f2 ;;
    e1 <- fdiv (snd ps +. snd pe) f2 ;;
    subdivide <- subdivision_criterion eps t_start t_end (e0, e1) p_mid ;;
    if (subdivide : bool) then
      c1 <- CenterCurveSegment_init fuel' x y side radius eps
              t_start t_mid (Some ps) (Some p_mid) ;;
      c2 <- CenterCurveSegment_init fuel' x y side radius eps
              t_mid t_end (Some p_mid) (Some pe) ;;
      let segments := [c1; c2] in
      let terminalSegments :=
        fold_left Z.add (map _terminalSegments segments) 0%Z in
      first <- convexHullSearchValues c1 searchDir ;;
      searchValues <- union_search_values searchDir first [c2] ;;
      Ok (mkCCS x y side radius eps t_start t_end ps pe searchDir
                (Some segments) terminalSegments searchValues
                (hull_of_search_values searchDir searchValues))
    else
      let hullPoints := [ps; pe] in
      searchValues <- convexHullSearchValues_of hullPoints searchDir ;;
      Ok (mkCCS x y side radius eps t_start t_end ps pe searchDir
                None 1%Z searchValues hullPoints)
  end.

(** *** The intersector *)

(** One of the two rejection tests: the box [own] of a node against the
    projection [other] of the other node's hull on the same frame. *)
Definition boxes_apart (own other : search_values) : bool :=
  flt (sv1 own) (sv0 other) || fgt (sv0 own) (sv1 other)
  || flt (sv3 own) (sv2 other) || fgt (sv2 own) (sv3 other).

(** The leaf case: the intersection of the two chords as lines. *)
Definition intersect_leaves (segment1 segment2 : CenterCurveSegment)
  : Res (option (F * F)) :=
  let a11 := fst (_p_end segment1) -. fst (_p_start segment1) in
  let a21 := snd (_p_end segment1) -. snd (_p_start segment1) in
  let a12 := fst (_p_start segment2) -. fst (_p_end segment2) in
  let a22 := snd (_p_start segment2) -. snd (_p_end segment2) in
  let b1 := fst (_p_start segment2) -. fst (_p_start segment1) in
  let b2 := snd (_p_start segment2) -. snd (_p_start segment1) in
  let det := a11 *. a22 -. a21 *. a12 in
  if fne det f0 then
    t1 <- fdiv (a22 *. b1 -. a12 *. b2) det ;;
    t2 <- fdiv (fopp a21 *. b1 +. a11 *. b2) det ;;
    Ok (Some ((f1 -. t1) *. _t_start segment1 +. t1 *. _t_end segment1,
              (f1 -. t2) *. _t_start segment2 +. t2 *. _t_end segment2))
  else
    Raise (Exception "det = 0 case not implemented yet").

Section Loops.
(** The recursive call: it returns the first tree as the call leaves it,
    with the outcome. *)
Variable recur : CenterCurveSegment -> CenterCurveSegment ->
                 CenterCurveSegment * Res (option (F * F)).

(** [for s2 in subSegments2] for one [s1]; [s1] is the same object in
    every iteration, so what one call does to it the next one sees. *)
Fixpoint inner_loop (s1 : CenterCurveSegment) (l2 : list CenterCurveSegment)
  : CenterCurveSegment * Res (option (F * F)) :=
  match l2 with
  | [] => (s1, Ok None)
  | s2 :: r =>
      let '(s1', ret) := recur s1 s2 in
      match ret with
      | Ok None => inner_loop s1' r
      | _ => (s1', ret)
      end
  end.

(** [for s1 in subSegments1]; the list comes back with its elements as
    the calls left them. *)
Fixpoint outer_loop (l1 l2 : list CenterCurveSegment)
  : list CenterCurveSegment * Res (option (F * F)) :=
  match l1 with
  | [] => ([], Ok None)
  | s1 :: r =>
      let '(s1', ret) := inner_loop s1 l2 in
      match ret with
      | Ok None => let '(r', ret') := outer_loop r l2 in (s1' :: r', ret')
      | _ => (s1' :: r, ret)
      end
  end.
End Loops.

(** [intersectCenterCurveSegments].  The two trees are distinct objects
    (the caller builds them separately), so only [segment1] is changed:
    [subSegments1.reverse()] reverses the list stored in
    [segment1._segments] itself when [segment1] has children. *)
Fixpoint intersectCenterCurveSegments (fuel : nat)
    (segment1 segment2 : CenterCurveSegment) {struct fuel}
  : CenterCurveSegment * Res (option (F * F)) :=
  match fuel with
  | O => (segment1, OutOfFuel)
  | S fuel' =>
    match convexHullSearchValues segment2 (_searchDir segment1) with
    | Raise e => (segment1, Raise e)
    | OutOfFuel => (segment1, OutOfFuel)
    | Ok searchValues =>
      if boxes_apart (_searchValues segment1) searchValues
      then (segment1, Ok None)
      else
      match convexHullSearchValues segment1 (_searchDir segment2) with
      | Raise e => (segment1, Raise e)
      | OutOfFuel => (segment1, OutOfFuel)
      | Ok searchValues' =>
        if boxes_apart (_searchValues segment2) searchValues'
        then (segment1, Ok None)
        else if ((_terminalSegments segment1 =? 1)%Z
                 && (_terminalSegments segment2 =? 1)%Z)
        then (segment1, intersect_leaves segment1 segment2)
        else if (1 <? _terminalSegments segment1)%Z then
          match _segments segment1 with
          | None => (segment1, Raise AttributeError)
          | Some l1 =>
              let reversed := rev l1 in
              let segment1' := set_segments segment1 (Some reversed) in
              match (if (1 <? _terminalSegments segment2)%Z
                     then _segments segment2 else Some [segment2]) with
              | None =>
                  (segment1', match reversed with
                              | [] => Ok None
                              | _ :: _ => Raise TypeError
                              end)
              | Some subSegments2 =>
                  let '(l1', ret) :=
                    outer_loop (intersectCenterCurveSegments fuel')
                               reversed subSegments2 in
                  (set_segments segment1 (Some l1'), ret)
              end
          end
        else
          match (if (1 <? _terminalSegments segment2)%Z
                 then _segments segment2 else Some [segment2]) with
          | None => (segment1, Raise TypeError)
          | Some subSegments2 =>
              inner_loop (intersectCenterCurveSegments fuel')
                         segment1 subSegments2
          end
      end
    end
  end.

(** *** The corner orchestrator *)

(** A node of a cubic superpath: [[handle_in, point, handle_out]], the
    three slots [[0]], [[1]], [[2]] the source indexes. *)
Record Node : Type := mkNode { nd0 : point; nd1 : point; nd2 : point }.

Definition set_nd0 (n : Node) (p : point) : Node := mkNode p (nd1 n) (nd2 n).
Definition set_nd2 (n : Node) (p : point) : Node := mkNode (nd0 n) (nd1 n) p.

(** The fields of the extension object the kernel reads or writes. *)
Record RoundedCorners : Type := mkRC {
  radius : F;
  max_trim_factor : F;
  skipped_degenerated : Z;
  skipped_small_count : Z;
  skipped_small_len : F
}.

(** [add_arguments] followed by the lines of [effect] that come before
    the loop over the selected nodes; [selected] is the number of nodes
    to round. *)
Definition effect_prologue (options_radius : F) (selected : nat)
  : RoundedCorners :=
  mkRC (fabs options_radius)
       (if Nat.eqb selected 1 then lit_0_98 else lit_0_90)
       0%Z 0%Z lit_1e99.

Definition incr_skipped_degenerated (self : RoundedCorners) : RoundedCorners :=
  mkRC (radius self) (max_trim_factor self)
       (skipped_degenerated self + 1)%Z
       (skipped_small_count self) (skipped_small_len self).

(** The object with another [max_trim_factor]. *)
Definition with_max_trim_factor (m : F) (self : RoundedCorners)
  : RoundedCorners :=
  mkRC (radius self) m (skipped_degenerated self)
       (skipped_small_count self) (skipped_small_len self).

Definition very_close_xy (p1 p2 : point) : bool :=
  flt (fabs (fst p1 -. fst p2)) lit_1e_9
  && flt (fabs (snd p1 -. snd p2)) lit_1e_9.

Definition very_close (n1 n2 : Node) : bool :=
  very_close_xy (nd0 n1) (nd0 n2) && very_close_xy (nd1 n1) (nd1 n2)
  && very_close_xy (nd2 n1) (nd2 n2).

Record SuperSide : Type := mkSide { s_idx : Z; s_dir : point; s_handle : point }.
Record SuperNode : Type := mkSN {
  sn_idx : Z; sn_prev : SuperSide; sn_next : SuperSide; sn_x : F; sn_y : F
}.

(** [RoundedCorners.super_node]; [None] stands for its [(None, None)]. *)
Definition super_node (self : RoundedCorners) (sp : list Node) (node_idx : Z)
  : Res (RoundedCorners * option (SuperNode * Node)) :=
  node0 <- py_index sp node_idx ;;
  wrapped <-
    (if (node_idx =? 0)%Z then
       let prev_idx := (len sp - 1)%Z in
       last <- py_index sp prev_idx ;;
       if very_close node0 last then
         let prev_idx := (prev_idx - 1)%Z in
         q <- py_index sp prev_idx ;;
         if very_close_xy (nd1 node0) (nd1 q)
         then Ok (Some (set_nd0 node0 (nd0 q), (prev_idx - 1)%Z))
         else Ok (Some (node0, prev_idx))
       else Ok None
     else Ok (Some (node0, (node_idx - 1)%Z))) ;;
  match wrapped with
  | None => Ok (incr_skipped_degenerated self, None)
  | Some (sp_node_idx_, prev_idx) =>
      if (node_idx =? len sp - 1)%Z
      then Ok (incr_skipped_degenerated self, None)
      else
        let next_idx := (node_idx + 1)%Z in
        let next_idx := if (next_idx >=? len sp)%Z then 0%Z else next_idx in
        let t := sp_node_idx_ in
        p <- py_index sp prev_idx ;;
        n <- py_index sp next_idx ;;
        let dir1 := (fst (nd2 p) -. fst (nd1 t), snd (nd2 p) -. snd (nd1 t)) in
        let dir2 := (fst (nd0 n) -. fst (nd1 t), snd (nd0 n) -. snd (nd1 t)) in
        dist1 <- fsqrt (fst dir1 *. fst dir1 +. snd dir1 *. snd dir1) ;;
        dist2 <- fsqrt (fst dir2 *. fst dir2 +. snd dir2 *. snd dir2) ;;
        let handle1 := (fst (nd0 t) -. fst (nd1 t), snd (nd0 t) -. snd (nd1 t)) in
        let handle2 := (fst (nd2 t) -. fst (nd1 t), snd (nd2 t) -. snd (nd1 t)) in
        let handle1 := if very_close_xy handle1 (f0, f0) then dir1 else handle1 in
        let handle2 := if very_close_xy handle2 (f0, f0) then dir2 else handle2 in
        Ok (self,
            Some (mkSN node_idx (mkSide prev_idx dir1 handle1)
                       (mkSide next_idx dir2 handle2)
                       (fst (nd1 t)) (snd (nd1 t)),
                  sp_node_idx_))
  end.

(** The side of the corner the circle lies on. *)
Definition corner_side (node : Node) : F :=
  if fgt ((fst (nd0 node) -. fst (nd1 node)) *. (snd (nd2 node) -. snd (nd1 node))
          -. (snd (nd0 node) -. snd (nd1 node)) *. (fst (nd2 node) -. fst (nd1 node)))
         f0
  then fopp f1 else f1.

(** What [subpath_round_corner] does once the intersection [t] is known:
    the centre, the two splits, the two assignments into [sp], the arc
    handles and the new list. *)
Definition fit_corner (s1 : CenterCurveSegment) (sp : list Node)
    (node_idx prev_idx next_idx : Z) (prev_node node next_node : Node)
    (t : F * F) : Res (list Node) :=
  arc_c <- calculate_center_point s1 (fst t) ;;
  let '((_, p1, p2, p3), _) :=
    split_bezier_curve (nd1 prev_node) (nd2 prev_node) (nd0 node) (nd1 node) (fst t) in
  let '(_, (n0, n1, n2, _)) :=
    split_bezier_curve (nd1 node) (nd2 node) (nd0 next_node) (nd1 next_node) (snd t) in
  sp <- py_update sp prev_idx (fun nd => set_nd2 nd p1) ;;
  sp <- py_update sp next_idx (fun nd => set_nd0 nd n2) ;;
  '(c1, c2) <- arc_bezier_handles p3 n0 arc_c ;;
  let node_a := mkNode p2 p3 c1 in
  let node_b := mkNode c2 n0 n1 in
  if (node_idx =? 0)%Z
  then Ok ([node_a] ++ [node_b] ++ py_slice sp 1 (prev_idx + 2))
  else Ok (py_slice_to sp node_idx ++ [node_a] ++ [node_b]
                       ++ py_slice_from sp (node_idx + 1)).

(** The two trees of a corner, as [subpath_round_corner] builds them. *)
Definition corner_trees (fuel : nat) (self : RoundedCorners)
    (prev_node node next_node : Node)
  : Res (CenterCurveSegment * CenterCurveSegment) :=
  let side := corner_side node in
  s1 <- CenterCurveSegment_init fuel
          [fst (nd1 prev_node); fst (nd2 prev_node); fst (nd0 node); fst (nd1 node)]
          [snd (nd1 prev_node); snd (nd2 prev_node); snd (nd0 node); snd (nd1 node)]
          side (radius self) lit_0_001 f0 f1 None None ;;
  s2 <- CenterCurveSegment_init fuel
          [fst (nd1 node); fst (nd2 node); fst (nd0 next_node); fst (nd1 next_node)]
          [snd (nd1 node); snd (nd2 node); snd (nd0 next_node); snd (nd1 next_node)]
          side (radius self) lit_0_001 f0 f1 None None ;;
  Ok (s1, s2).

(** What [subpath_round_corner] has in hand once the search has returned:
    the indices and nodes around the vertex, the first tree as the search
    left it, and the parameters found (or [None]). *)
Record Corner : Type := mkCorner {
  c_prev_idx : Z;
  c_next_idx : Z;
  c_prev_node : Node;
  c_node : Node;
  c_next_node : Node;
  c_s1 : CenterCurveSegment;
  c_t : option (F * F)
}.

(** The first half of [subpath_round_corner], down to the call of
    [intersectCenterCurveSegments]; [None] when [super_node] has rejected
    the vertex. *)
Definition corner_search (fuel : nat) (self : RoundedCorners)
    (sp : list Node) (node_idx : Z) : Res (RoundedCorners * option Corner) :=
  '(self, found) <- super_node self sp node_idx ;;
  match found with
  | None => Ok (self, None)
  | Some (sn, _) =>
      let prev_idx := s_idx (sn_prev sn) in
      let next_idx := s_idx (sn_next sn) in
      prev_node <- py_index sp prev_idx ;;
      next_node <- py_index sp next_idx ;;
      node <- py_index sp node_idx ;;
      '(s1, s2) <- corner_trees fuel self prev_node node next_node ;;
      let '(s1, ret) := intersectCenterCurveSegments fuel s1 s2 in
      t <- ret ;;
      Ok (self, Some (mkCorner prev_idx next_idx prev_node node next_node s1 t))
  end.

(** [RoundedCorners.subpath_round_corner]: the new state of the object and
    the subpath it returns. *)
Definition subpath_round_corner (fuel : nat) (self : RoundedCorners)
    (sp : list Node) (node_idx : Z) : Res (RoundedCorners * list Node) :=
  '(self, found) <- corner_search fuel self sp node_idx ;;
  match found with
  | None => Ok (self, sp)
  | Some c =>
      match c_t c with
      | None => Ok (self, sp)
      | Some t =>
          sp' <- fit_corner (c_s1 c) sp node_idx (c_prev_idx c) (c_next_idx c)
                            (c_prev_node c) (c_node c) (c_next_node c) t ;;
          Ok (self, sp')
      end
  end.

(** *** Observers of a tree, for the statements below *)

Definition is_terminal (s : CenterCurveSegment) : bool :=
  match _segments s with None => true | Some _ => false end.

(** The nodes of a tree, the root first. *)
Fixpoint subnodes (s : CenterCurveSegment) : list CenterCurveSegment :=
  s :: match _segments s with
       | None => []
       | Some l => flat_map subnodes l
       end.

(** The terminal nodes below (and including) a node, in the order of the
    children lists. *)
Fixpoint leaves (s : CenterCurveSegment) : list CenterCurveSegment :=
  match _segments s with
  | None => [s]
  | Some l => flat_map leaves l
  end.

(** The parameters and points [__init__] compares before it decides
    whether to subdivide, recomputed from the fields of a node. *)
Definition node_midpoints (s : CenterCurveSegment) : Res (point * point) :=
  t_mid <- fdiv (_t_start s +. _t_end s) f2 ;;
  p_mid <- calculate_center_point s t_mid ;;
  e0 <- fdiv (fst (_p_start s) +. fst (_p_end s)) f2 ;;
  e1 <- fdiv (snd (_p_start s) +. snd (_p_end s)) f2 ;;
  Ok ((e0, e1), p_mid).

Definition node_criterion (s : CenterCurveSegment) : Res bool :=
  '(p_mid_est, p_mid) <- node_midpoints s ;;
  subdivision_criterion (_eps s) (_t_start s) (_t_end s) p_mid_est p_mid.

(** A point against the box of a node, in the frame of the node. *)
Definition v_parallel (d p : point) : F := fst d *. fst p +. snd d *. snd p.
Definition v_orthogonal (d p : point) : F := fopp (snd d) *. fst p +. fst d *. snd p.

Definition outside_box (s : CenterCurveSegment) (p : point) : bool :=
  let v := _searchValues s in
  let a := v_parallel (_searchDir s) p in
  let o := v_orthogonal (_searchDir s) p in
  flt a (sv0 v) || fgt a (sv1 v) || flt o (sv2 v) || fgt o (sv3 v).

(** *** The construction as a relation

    [node_prelude] is what [__init__] computes before it decides: the
    search direction, the middle parameter, the offset point there and the
    middle of the chord. *)
Definition node_prelude (x y : list F) (side radius t_start t_end : F)
    (ps pe : point) : Res (point * F * point * point) :=
  let nx := fst pe -. fst ps in
  let ny := snd pe -. snd ps in
  nx2 <- fpow2 nx ;; ny2 <- fpow2 ny ;;
  n_norm <- fsqrt (nx2 +. ny2) ;;
  d0 <- fdiv nx n_norm ;; d1 <- fdiv ny n_norm ;;
  t_mid <- fdiv (t_start +. t_end) f2 ;;
  p_mid <- calculate_center_point_of x y side radius t_mid ;;
  e0 <- fdiv (fst ps +. fst pe) f2 ;;
  e1 <- fdiv (snd ps +. snd pe) f2 ;;
  Ok ((d0, d1), t_mid, p_mid, (e0, e1)).

(** [built x y side radius eps ts te ps pe s]: [__init__] returns the object
    [s] for the range [ts, te] with end points [ps] and [pe]. *)
Inductive built (x y : list F) (side radius eps : F)
  : F -> F -> point -> point -> CenterCurveSegment -> Prop :=
| built_terminal : forall ts te ps pe d t_mid p_mid est v,
    (len x =? len y)%Z = true ->
    (len x <? 2)%Z = false ->
    node_prelude x y side radius ts te ps pe = Ok (d, t_mid, p_mid, est) ->
    subdivision_criterion eps ts te est p_mid = Ok false ->
    convexHullSearchValues_of [ps; pe] d = Ok v ->
    built x y side radius eps ts te ps pe
      (mkCCS x y side radius eps ts te ps pe d None 1%Z v [ps; pe])
| built_subdivided : forall ts te ps pe d t_mid p_mid est c1 c2 first v,
    (len x =? len y)%Z = true ->
    (len x <? 2)%Z = false ->
    node_prelude x y side radius ts te ps pe = Ok (d, t_mid, p_mid, est) ->
    subdivision_criterion eps ts te est p_mid = Ok true ->
    built x y side radius eps ts t_mid ps p_mid c1 ->
    built x y side radius eps t_mid te p_mid pe c2 ->
    convexHullSearchValues c1 d = Ok first ->
    union_search_values d first [c2] = Ok v ->
    built x y side radius eps ts te ps pe
      (mkCCS x y side radius eps ts te ps pe d (Some [c1; c2])
             (fold_left Z.add (map _terminalSegments [c1; c2]) 0%Z) v
             (hull_of_search_values d v)).

(** The end point [__init__] uses: the one passed, or the one it computes. *)
Definition end_point (x y : list F) (side radius t : F) (p : option point)
  : Res point :=
  match p with
  | Some q => Ok q
  | None => calculate_center_point_of x y side radius t
  end.

End Kernel.

(** ** The two instances *)

(** Binary64: the operations of [PrimFloat] are those of IEEE 754, rounded
    to nearest even, as Python's are. *)
Definition float_div (a b : float) : Res float :=
  if PrimFloat.eqb b 0%float then Raise ZeroDivisionError else Ok (PrimFloat.div a b).

Definition float_sqrt (a : float) : Res float :=
  if PrimFloat.ltb a 0%float then Raise ValueError else Ok (PrimFloat.sqrt a).

(** [x**2] is taken as the correctly rounded product [x*x]. *)
Definition float_pow2 (a : float) : Res float :=
  let r := PrimFloat.mul a a in
  if PrimFloat.is_infinity r && negb (PrimFloat.is_infinity a)
  then Raise OverflowError else Ok r.

#[export] Instance FloatArith : Arith float := {|
  f0 := 0%float;
  f1 := 1%float;
  f2 := 2%float;
  lit_0_26 := 0.26%float;
  lit_0_001 := 0.001%float;
  lit_1e_9 := 1e-9%float;
  lit_4_3 := PrimFloat.div 4%float 3%float;
  lit_1e99 := 1e99%float;
  lit_0_90 := 0.90%float;
  lit_0_98 := 0.98%float;
  fadd := PrimFloat.add;
  fsub := PrimFloat.sub;
  fmul := PrimFloat.mul;
  fopp := PrimFloat.opp;
  fabs := PrimFloat.abs;
  fdiv := float_div;
  fsqrt := float_sqrt;
  fpow2 := float_pow2;
  flt := PrimFloat.ltb;
  fgt := fun a b => PrimFloat.ltb b a;
  fne := fun a b => negb (PrimFloat.eqb a b)
|}.

(** Exact arithmetic: the literals are the decimals they denote, the
    operations those of the reals; division and square root raise as in
    Python, nothing overflows. *)
Definition R_ltb (a b : R) : bool := if Rlt_dec a b then true else false.
Definition R_neb (a b : R) : bool := if Req_dec_T a b then false else true.

Definition R_div (a b : R) : Res R :=
  if Req_dec_T b 0 then Raise ZeroDivisionError else Ok (a / b)%R.

Definition R_sqrt (a : R) : Res R :=
  if Rlt_dec a 0 then Raise ValueError else Ok (sqrt a).

Definition R_pow2 (a : R) : Res R := Ok (a * a)%R.

#[export] Instance RArith : Arith R := {|
  f0 := 0%R;
  f1 := 1%R;
  f2 := 2%R;
  lit_0_26 := (26 / 100)%R;
  lit_0_001 := (1 / 1000)%R;
  lit_1e_9 := (1 / 1000000000)%R;
  lit_4_3 := (4 / 3)%R;
  lit_1e99 := (10 ^ 99)%R;
  lit_0_90 := (90 / 100)%R;
  lit_0_98 := (98 / 100)%R;
  fadd := Rplus;
  fsub := Rminus;
  fmul := Rmult;
  fopp := Ropp;
  fabs := Rabs;
  fdiv := R_div;
  fsqrt := R_sqrt;
  fpow2 := R_pow2;
  flt := R_ltb;
  fgt := fun a b => R_ltb b a;
  fne := R_neb
|}.

(** ** Vocabulary of the statements in exact arithmetic *)

Section RealVocabulary.
Local Open Scope R_scope.

Definition Rpoint : Type := @point R.
Definition Rsegment : Type := @CenterCurveSegment R.

(** Vectors of the plane: difference, sum, multiple, quarter turn, scalar
    product and 2D cross product. *)
Definition vsub (p q : Rpoint) : Rpoint := (fst p - fst q, snd p - snd q).
Definition vadd (p q : Rpoint) : Rpoint := (fst p + fst q, snd p + snd q).
Definition vscale (k : R) (p : Rpoint) : Rpoint := (k * fst p, k * snd p).
Definition rot90 (p : Rpoint) : Rpoint := (- snd p, fst p).
Definition dot (p q : Rpoint) : R := fst p * fst q + snd p * snd q.
Definition cross (p q : Rpoint) : R := fst p * snd q - snd p * fst q.

(** The factor of the handles of the arc from [P] to [N] around [C]. *)
Definition k2_of (P N C : Rpoint) : R :=
  let a := vsub P C in
  let b := vsub N C in
  let q1 := dot a a in
  let q2 := q1 + dot a b in
  4 / 3 * (sqrt (2 * q1 * q2) - q2) / cross a b.

(** The distance between two points. *)
Definition distance (p q : Rpoint) : R :=
  sqrt ((fst p - fst q) * (fst p - fst q) + (snd p - snd q) * (snd p - snd q)).

(** The projections of [p] on the frame [d] lie within the search values
    [v]; [inside_box n p]: [p] lies in the box of the node [n]. *)
Definition in_range (v : @search_values R) (d p : Rpoint) : Prop :=
  (sv0 v <= v_parallel d p <= sv1 v) /\ (sv2 v <= v_orthogonal d p <= sv3 v).

Definition inside_box (n : Rsegment) (p : Rpoint) : Prop :=
  in_range (_searchValues n) (_searchDir n) p.

Definition unit_vector (d : Rpoint) : Prop :=
  fst d * fst d + snd d * snd d = 1.

(** What holds of the root of a built tree: its frame is a unit frame, its
    box contains the chord end points below it, and so do the search
    values of its hull in any direction. *)
Definition box_invariant (s : Rsegment) : Prop :=
  unit_vector (_searchDir s)
  /\ (forall l, In l (leaves s) ->
        inside_box s (_p_start l) /\ inside_box s (_p_end l))
  /\ (forall e w, convexHullSearchValues s e = Ok w ->
        forall l, In l (leaves s) ->
          in_range w e (_p_start l) /\ in_range w e (_p_end l)).

(** [q] lies on the chord of the node [l]. *)
Definition on_chord (l : Rsegment) (q : Rpoint) : Prop :=
  exists k, 0 <= k <= 1
    /\ q = ((1 - k) * fst (_p_start l) + k * fst (_p_end l),
            (1 - k) * snd (_p_start l) + k * snd (_p_end l)).

(** The control points of a segment along the x axis, from 0 to 3. *)
Definition line_x : list R := [0; 1; 2; 3].
Definition line_y : list R := [0; 0; 0; 0].

(** The terminal node [__init__] returns for that segment, side 1, radius 1
    and a range [ts, te] no longer than 0.26. *)
Definition line_leaf (ts te : R) : Rsegment :=
  mkCCS line_x line_y 1 1 (1 / 1000) ts te (3 * ts, 1) (3 * te, 1) (1, 0)
        None 1%Z
        (1 * (3 * ts) + 0 * 1, 1 * (3 * te) + 0 * 1,
         - 0 * (3 * ts) + 1 * 1, - 0 * (3 * ts) + 1 * 1)
        [(3 * ts, 1); (3 * te, 1)].

(** A right angle in exact arithmetic: the segment of [line_x], [line_y]
    along the x axis to the vertex (3, 0), then the segment of [up_x],
    [up_y] up to (3, 3); the handles are at the thirds.  With side 1 and
    radius 1 the offset curves are the lines y = 1 and x = 2. *)
Definition up_x : list R := [3; 3; 3; 3].
Definition up_y : list R := [0; 1; 2; 3].

Definition right_angle_sp : list (@Node R) :=
  [ mkNode (0, 0) (0, 0) (1, 0);
    mkNode (2, 0) (3, 0) (3, 1);
    mkNode (3, 2) (3, 3) (3, 3) ].

Definition unit_radius : @RoundedCorners R :=
  mkRC 1 (98 / 100) 0%Z 0%Z (10 ^ 99).

(** The trees [__init__] returns for the two segments and the range from
    0 to 1: a root, two nodes below it and four terminal nodes. *)
Definition line_sv (ts te : R) : @search_values R :=
  (1 * (3 * ts) + 0 * 1, 1 * (3 * te) + 0 * 1,
   - 0 * (3 * ts) + 1 * 1, - 0 * (3 * ts) + 1 * 1).

Definition up_sv (ts te : R) : @search_values R :=
  (0 * 2 + 1 * (3 * ts), 0 * 2 + 1 * (3 * te),
   - 1 * 2 + 0 * (3 * ts), - 1 * 2 + 0 * (3 * ts)).

Definition up_leaf (ts te : R) : Rsegment :=
  mkCCS up_x up_y 1 1 (1 / 1000) ts te (2, 3 * ts) (2, 3 * te) (0, 1)
        None 1%Z (up_sv ts te) [(2, 3 * ts); (2, 3 * te)].

Definition line_node (ts te : R) : Rsegment :=
  mkCCS line_x line_y 1 1 (1 / 1000) ts te (3 * ts, 1) (3 * te, 1) (1, 0)
        (Some [line_leaf ts ((ts + te) / 2); line_leaf ((ts + te) / 2) te])
        2%Z (line_sv ts te) (hull_of_search_values (1, 0) (line_sv ts te)).

Definition up_node (ts te : R) : Rsegment :=
  mkCCS up_x up_y 1 1 (1 / 1000) ts te (2, 3 * ts) (2, 3 * te) (0, 1)
        (Some [up_leaf ts ((ts + te) / 2); up_leaf ((ts + te) / 2) te])
        2%Z (up_sv ts te) (hull_of_search_values (0, 1) (up_sv ts te)).

Definition line_root : Rsegment :=
  mkCCS line_x line_y 1 1 (1 / 1000) 0 1 (3 * 0, 1) (3 * 1, 1) (1, 0)
        (Some [line_node 0 (1 / 2); line_node (1 / 2) 1])
        4%Z (line_sv 0 1) (hull_of_search_values (1, 0) (line_sv 0 1)).

Definition up_root : Rsegment :=
  mkCCS up_x up_y 1 1 (1 / 1000) 0 1 (2, 3 * 0) (2, 3 * 1) (0, 1)
        (Some [up_node 0 (1 / 2); up_node (1 / 2) 1])
        4%Z (up_sv 0 1) (hull_of_search_values (0, 1) (up_sv 0 1)).

(** The first tree as the search leaves it: the lists of children on the
    way to the terminal node that is hit are reversed. *)
Definition line_root_searched : Rsegment :=
  set_segments line_root
    (Some [ set_segments (line_node (1 / 2) 1)
              (Some [line_leaf ((1 / 2 + 1) / 2) 1;
                     line_leaf (1 / 2) ((1 / 2 + 1) / 2)]);
            line_node 0 (1 / 2) ]).

(** The right angle [right_angle_sp] with radius 0: the offset curves are
    the two segments themselves, which meet at the vertex (3, 0). *)
Definition zero_radius : @RoundedCorners R :=
  mkRC 0 (98 / 100) 0%Z 0%Z (10 ^ 99).

Definition axis_sv (ts te : R) : @search_values R :=
  (1 * (3 * ts) + 0 * 0, 1 * (3 * te) + 0 * 0,
   - 0 * (3 * ts) + 1 * 0, - 0 * (3 * ts) + 1 * 0).

Definition rise_sv (ts te : R) : @search_values R :=
  (0 * 3 + 1 * (3 * ts), 0 * 3 + 1 * (3 * te),
   - 1 * 3 + 0 * (3 * ts), - 1 * 3 + 0 * (3 * ts)).

Definition axis_leaf (ts te : R) : Rsegment :=
  mkCCS line_x line_y 1 0 (1 / 1000) ts te (3 * ts, 0) (3 * te, 0) (1, 0)
        None 1%Z (axis_sv ts te) [(3 * ts, 0); (3 * te, 0)].

Definition rise_leaf (ts te : R) : Rsegment :=
  mkCCS up_x up_y 1 0 (1 / 1000) ts te (3, 3 * ts) (3, 3 * te) (0, 1)
        None 1%Z (rise_sv ts te) [(3, 3 * ts); (3, 3 * te)].

Definition axis_node (ts te : R) : Rsegment :=
  mkCCS line_x line_y 1 0 (1 / 1000) ts te (3 * ts, 0) (3 * te, 0) (1, 0)
        (Some [axis_leaf ts ((ts + te) / 2); axis_leaf ((ts + te) / 2) te])
        2%Z (axis_sv ts te) (hull_of_search_values (1, 0) (axis_sv ts te)).

Definition rise_node (ts te : R) : Rsegment :=
  mkCCS up_x up_y 1 0 (1 / 1000) ts te (3, 3 * ts) (3, 3 * te) (0, 1)
        (Some [rise_leaf ts ((ts + te) / 2); rise_leaf ((ts + te) / 2) te])
        2%Z (rise_sv ts te) (hull_of_search_values (0, 1) (rise_sv ts te)).

Definition axis_root : Rsegment :=
  mkCCS line_x line_y 1 0 (1 / 1000) 0 1 (3 * 0, 0) (3 * 1, 0) (1, 0)
        (Some [axis_node 0 (1 / 2); axis_node (1 / 2) 1])
        4%Z (axis_sv 0 1) (hull_of_search_values (1, 0) (axis_sv 0 1)).

Definition rise_root : Rsegment :=
  mkCCS up_x up_y 1 0 (1 / 1000) 0 1 (3, 3 * 0) (3, 3 * 1) (0, 1)
        (Some [rise_node 0 (1 / 2); rise_node (1 / 2) 1])
        4%Z (rise_sv 0 1) (hull_of_search_values (0, 1) (rise_sv 0 1)).

(** The first tree as the search leaves it. *)
Definition axis_root_searched : Rsegment :=
  set_segments axis_root
    (Some [ set_segments (axis_node (1 / 2) 1)
              (Some [axis_leaf ((1 / 2 + 1) / 2) 1;
                     axis_leaf (1 / 2) ((1 / 2 + 1) / 2)]);
            axis_node 0 (1 / 2) ]).


(** No chord of a terminal node of [a] shares a point with a chord of a
    terminal node of [b]. *)
Definition no_meet (a b : Rsegment) : Prop :=
  forall l1 l2 q,
    In l1 (leaves a) -> In l2 (leaves b) ->
    on_chord l1 q -> on_chord l2 q -> False.

(** A tree of at most [n] levels that is [well_formed] and whose nodes
    all have the [box_invariant]. *)
Fixpoint sound (n : nat) (s : Rsegment) : Prop :=
  box_invariant s
  /\ _hullPoints s <> []
  /\ match _segments s with
     | None => _terminalSegments s = 1%Z
     | Some l =>
         (1 < _terminalSegments s)%Z
         /\ match n with
            | O => False
            | S m => Forall (sound m) l
            end
     end.

End RealVocabulary.

(** ** Corners the binary64 instance is run on *)

Module Run.
Local Open Scope float_scope.

Definition pt (x y : float) : @point float := (x, y).

(** Fuel for the two recursive functions; no run below exhausts it. *)
Definition fuel : nat := 40.

(** A right-angle corner at (0,0): a segment along the x axis from
    (-30,0), then one up the y axis to (0,3); both have their handles at
    the thirds. *)
Definition corner_sp : list (@Node float) :=
  [ mkNode (pt (-30) 0) (pt (-30) 0) (pt (-20) 0);
    mkNode (pt (-10) 0) (pt 0 0) (pt 0 1);
    mkNode (pt 0 2) (pt 0 3) (pt 0 3) ].

(** Three collinear nodes with collinear handles. *)
Definition line_sp : list (@Node float) :=
  [ mkNode (pt 0 0) (pt 0 0) (pt 1 0);
    mkNode (pt 2 0) (pt 3 0) (pt 4 0);
    mkNode (pt 5 0) (pt 6 0) (pt 6 0) ].

(** A smooth node at (4,0): the handles (3,0) and (5,0) are opposite, the
    two segments are curved. *)
Definition smooth_sp : list (@Node float) :=
  [ mkNode (pt 0 0) (pt 0 0) (pt 1 2);
    mkNode (pt 3 0) (pt 4 0) (pt 5 0);
    mkNode (pt 7 2) (pt 8 0) (pt 8 0) ].

(** A smooth node at (4,4) on top of an arch. *)
Definition arch_sp : list (@Node float) :=
  [ mkNode (pt 0 0) (pt 0 0) (pt 0 2);
    mkNode (pt 2 4) (pt 4 4) (pt 6 4);
    mkNode (pt 8 2) (pt 8 0) (pt 8 0) ].

(** A corner at (0,0) whose incoming segment swings to the right and back:
    its offset curve meets the offset line of the outgoing segment more
    than once. *)
Definition wavy_sp : list (@Node float) :=
  [ mkNode (pt (-3) 2.5) (pt (-3) 2.5) (pt 3 2.5);
    mkNode (pt (-5) 1) (pt 0 0) (pt 0 1);
    mkNode (pt 0 2) (pt 0 3) (pt 0 3) ].

(** The incoming segment has its four control points at (0,0). *)
Definition dead_sp : list (@Node float) :=
  [ mkNode (pt 0 0) (pt 0 0) (pt 0 0);
    mkNode (pt 0 0) (pt 0 0) (pt 1 0);
    mkNode (pt 2 0) (pt 3 0) (pt 3 0) ].

(** The two trees of the corner at node 1 of a three-node subpath, as
    [subpath_round_corner] builds them. *)
Definition trees_at_1 (self : @RoundedCorners float) (sp : list (@Node float))
  : Res (@CenterCurveSegment float * @CenterCurveSegment float) :=
  (prev_node <- py_index sp 0 ;;
   node <- py_index sp 1 ;;
   next_node <- py_index sp 2 ;;
   corner_trees fuel self prev_node node next_node)%res.
(** A closed subpath with a right angle at its first node. *)
Definition closed_sp : list (@Node float) :=
  [ mkNode (pt 0 10) (pt 0 0) (pt 10 0);
    mkNode (pt 20 0) (pt 30 0) (pt 20 10);
    mkNode (pt 10 20) (pt 0 30) (pt 0 20);
    mkNode (pt 0 10) (pt 0 0) (pt 10 0) ].
End Run.

(** ** More of the source

    The functions of [src/round_corners.py] around the kernel that do not
    touch the document: the choice of the nodes to round in
    [find_roundable_nodes], and [arc_c_m_from_super_node]. *)

Section Selection.
Context {F : Type} {AF : Arith F}.

(** [range(lo, hi)] *)
Definition py_range (lo hi : Z) : list Z :=
  map (fun k => (lo + Z.of_nat k)%Z) (seq 0 (Z.to_nat (hi - lo))).

(** The body of the loop of [find_roundable_nodes] for one subpath: the
    node indices it appends.  (The source appends the strings
    ["%s:%d:%d" % (path_id, sp_idx, idx)].) *)
Definition roundable_indices (sp : list (@Node F)) : Res (list Z) :=
  if (len sp <? 3)%Z then Ok []
  else
    first <- py_index sp 0 ;;
    last <- py_index sp (-1) ;;
    if very_close first last then
      before_last <- py_index sp (-2) ;;
      let idx_e :=
        if very_close_xy (nd1 before_last) (nd1 last)
        then (len sp - 2)%Z else (len sp - 1)%Z in
      Ok (py_range 0 idx_e)
    else Ok (py_range 1 (len sp - 1)).

(** [find_roundable_nodes], from the superpath of the element on: the
    pairs (subpath index, node index) of the strings it returns. *)
Fixpoint find_roundable_nodes_from (sp_idx : Z) (csp : list (list (@Node F)))
  : Res (list (Z * Z)) :=
  match csp with
  | [] => Ok []
  | sp :: rest =>
      here <- roundable_indices sp ;;
      more <- find_roundable_nodes_from (sp_idx + 1) rest ;;
      Ok (map (fun idx => (sp_idx, idx)) here ++ more)
  end.

Definition find_roundable_nodes_of (csp : list (list (@Node F)))
  : Res (list (Z * Z)) :=
  find_roundable_nodes_from 0 csp.

(** [RoundedCorners.arc_c_m_from_super_node], on the entries of the
    supernode it reads: [x], [y], the two [trim_pt] and [trim]. *)
Definition arc_c_m_from_super_node (self : @RoundedCorners F) (x y : F)
    (prev_trim_pt next_trim_pt : point) (trim : F) : Res (point * point) :=
  let a := (fsub (fst prev_trim_pt) x, fsub (snd prev_trim_pt) y) in
  let b := (fsub (fst next_trim_pt) x, fsub (snd next_trim_pt) y) in
  let c_m_vec := (fadd (fst a) (fst b), fadd (snd a) (snd b)) in
  l <- fsqrt (fadd (fmul (fst c_m_vec) (fst c_m_vec))
                   (fmul (snd c_m_vec) (snd c_m_vec))) ;;
  cdist <- fsqrt (fadd (fmul (radius self) (radius self)) (fmul trim trim)) ;;
  c0 <- fdiv (fmul cdist (fst c_m_vec)) l ;;
  c1 <- fdiv (fmul cdist (snd c_m_vec)) l ;;
  m0 <- fdiv (fmul (fsub cdist (radius self)) (fst c_m_vec)) l ;;
  m1 <- fdiv (fmul (fsub cdist (radius self)) (snd c_m_vec)) l ;;
  Ok ((fadd x c0, fadd y c1), (fadd x m0, fadd y m1)).

(** *** Observers for the statements on these functions *)

(** The point at which [split_bezier_curve] splits: the point of the curve
    at the parameter [t]. *)
Definition split_point (p0 p1 p2 p3 : point) (t : F) : point :=
  let '((_, _, _, p30), _) := split_bezier_curve p0 p1 p2 p3 t in p30.

(** The terminal nodes of a tree follow each other from the parameter [ts]
    and the point [ps] to [te] and [pe]: each starts where the one before
    it ends. *)
Fixpoint chained (ts : F) (ps : point) (te : F) (pe : point)
    (l : list (@CenterCurveSegment F)) : Prop :=
  match l with
  | [] => ts = te /\ ps = pe
  | s :: r =>
      _t_start s = ts /\ _p_start s = ps
      /\ chained (_t_end s) (_p_end s) te pe r
  end.

(** All the fields of a node but the list of its children. *)
Definition same_geometry (s s' : @CenterCurveSegment F) : Prop :=
  _x s' = _x s /\ _y s' = _y s /\ _side s' = _side s
  /\ _radius s' = _radius s /\ _eps s' = _eps s
  /\ _t_start s' = _t_start s /\ _t_end s' = _t_end s
  /\ _p_start s' = _p_start s /\ _p_end s' = _p_end s
  /\ _searchDir s' = _searchDir s
  /\ _terminalSegments s' = _terminalSegments s
  /\ _searchValues s' = _searchValues s
  /\ _hullPoints s' = _hullPoints s.

(** The number of levels of children below a node. *)
Fixpoint depth (s : @CenterCurveSegment F) : nat :=
  match _segments s with
  | None => 0
  | Some l => S (list_max (map depth l))
  end.

(** What [intersectCenterCurveSegments] relies on in a tree of at most [n]
    levels: a node without children counts one terminal segment, a node
    with children more than one, and no hull is empty. *)
Fixpoint well_formed (n : nat) (s : @CenterCurveSegment F) : Prop :=
  _hullPoints s <> []
  /\ match _segments s with
     | None => _terminalSegments s = 1%Z
     | Some l =>
         (1 < _terminalSegments s)%Z
         /\ match n with
            | O => False
            | S m => Forall (well_formed m) l
            end
     end.

(** [s'] is [s] up to the order of the terminal nodes below it: a node
    without children is unchanged, a node with children has got another
    list of children with the same terminal nodes below. *)
Definition reordered (s s' : @CenterCurveSegment F) : Prop :=
  match _segments s with
  | None => s' = s
  | Some l =>
      exists l', s' = set_segments s (Some l')
                 /\ Permutation (flat_map leaves l) (flat_map leaves l')
  end.

(** The outcomes of a search that has come to its end: a result, or the
    exception of the leaf case. *)
Definition finished (r : Res (option (F * F))) : Prop :=
  (exists o, r = Ok o)
  \/ r = Raise (Exception "det = 0 case not implemented yet").

(** What [calculate_center_point] has computed before it steps aside by
    the radius: the point of the curve at [t] and the direction [dx, dy]
    of the curve there. *)
Definition curve_point_and_tangent (x y : list F) (t : F)
  : Res (point * point) :=
  let xs := casteljau_reduce (length x) t x in
  let ys := casteljau_reduce (length x) t y in
  x0 <- py_index xs 0 ;; x1 <- py_index xs 1 ;;
  y0 <- py_index ys 0 ;; y1 <- py_index ys 1 ;;
  Ok ((fadd (fmul (fsub f1 t) x0) (fmul t x1),
       fadd (fmul (fsub f1 t) y0) (fmul t y1)),
      (fsub x1 x0, fsub y1 y0)).

(** The pair [t] is what the leaf case returns for a node of [s1'] and a
    node of [s2] that both count one terminal segment. *)
Definition from_leaf_pair (s1' s2 : @CenterCurveSegment F) (t : F * F) : Prop :=
  exists a b,
    In a (subnodes s1') /\ In b (subnodes s2)
    /\ _terminalSegments a = 1%Z /\ _terminalSegments b = 1%Z
    /\ intersect_leaves a b = Ok (Some t).

End Selection.

(** ** Facts about the model that hold for any arithmetic *)

Lemma bind_Ok_inv {A B : Type} (c : Res A) (k : A -> Res B) (b : B) :
  bind c k = Ok b -> exists a, c = Ok a /\ k a = Ok b.
Proof.
  destruct c as [a | e | ]; simpl; intros H; try discriminate.
  exists a; split; [reflexivity | exact H].
Qed.

Ltac inv_bind H :=
  lazymatch type of H with
  | bind _ _ = Ok _ =>
      let a := fresh "a" in
      let E := fresh "E" in
      apply bind_Ok_inv in H; destruct H as (a & E & H); inv_bind H
  | _ => idtac
  end.

Section GenericFacts.
Context {F : Type} {AF : Arith F}.

Lemma init_unfold (fuel : nat) (x y : list F) (side radius eps ts te : F)
    (pso peo : option point) :
  CenterCurveSegment_init (S fuel) x y side radius eps ts te pso peo =
  if negb (len x =? len y)%Z then
    Raise (Exception "x and y coordinate lists do not have the same length.")
  else if (len x <? 2)%Z then
    Raise (Exception "at least two points required to use the CenterCurveSegment")
  else
    ps <- end_point x y side radius ts pso ;;
    pe <- end_point x y side radius te peo ;;
    '(d, t_mid, p_mid, est) <- node_prelude x y side radius ts te ps pe ;;
    subdivide <- subdivision_criterion eps ts te est p_mid ;;
    if (subdivide : bool) then
      c1 <- CenterCurveSegment_init fuel x y side radius eps
              ts t_mid (Some ps) (Some p_mid) ;;
      c2 <- CenterCurveSegment_init fuel x y side radius eps
              t_mid te (Some p_mid) (Some pe) ;;
      first <- convexHullSearchValues c1 d ;;
      v <- union_search_values d first [c2] ;;
      Ok (mkCCS x y side radius eps ts te ps pe d (Some [c1; c2])
                (fold_left Z.add (map _terminalSegments [c1; c2]) 0%Z) v
                (hull_of_search_values d v))
    else
      v <- convexHullSearchValues_of [ps; pe] d ;;
      Ok (mkCCS x y side radius eps ts te ps pe d None 1%Z v [ps; pe]).
Proof.
  cbn [CenterCurveSegment_init].
  destruct (negb (len x =? len y)%Z); [reflexivity|].
  destruct (len x <? 2)%Z; [reflexivity|].
  unfold end_point, node_prelude.
  destruct (match pso with Some p => Ok p | None => _ end) as [ps| |]; cbn [bind]; try reflexivity.
  destruct (match peo with Some p => Ok p | None => _ end) as [pe| |]; cbn [bind]; try reflexivity.
  destruct (fpow2 _) as [nx2| |]; cbn [bind]; try reflexivity.
  destruct (fpow2 _) as [ny2| |]; cbn [bind]; try reflexivity.
  destruct (fsqrt _) as [n_norm| |]; cbn [bind]; try reflexivity.
  destruct (fdiv _ n_norm) as [d0| |]; cbn [bind]; try reflexivity.
  destruct (fdiv _ n_norm) as [d1| |]; cbn [bind]; try reflexivity.
  destruct (fdiv _ f2) as [t_mid| |]; cbn [bind]; try reflexivity.
  destruct (calculate_center_point_of _ _ _ _ _) as [p_mid| |]; cbn [bind]; try reflexivity.
  destruct (fdiv _ f2) as [e0| |]; cbn [bind]; try reflexivity.
  destruct (fdiv _ f2) as [e1| |]; cbn [bind]; reflexivity.
Qed.

(** Every object [__init__] returns is [built]. *)
Lemma init_built (fuel : nat) :
  forall (x y : list F) (side radius eps ts te : F) (pso peo : option point)
         (s : CenterCurveSegment),
    CenterCurveSegment_init fuel x y side radius eps ts te pso peo = Ok s ->
    exists ps pe,
      end_point x y side radius ts pso = Ok ps
      /\ end_point x y side radius te peo = Ok pe
      /\ built x y side radius eps ts te ps pe s.
Proof.
  induction fuel as [|fuel IH]; intros x y side radius eps ts te pso peo s H.
  - discriminate H.
  - rewrite init_unfold in H.
    destruct (len x =? len y)%Z eqn:Hlen; cbn [negb] in H; [|discriminate H].
    destruct (len x <? 2)%Z eqn:Hlen2; [discriminate H|].
    apply bind_Ok_inv in H. destruct H as (ps & Eps & H).
    apply bind_Ok_inv in H. destruct H as (pe & Epe & H).
    apply bind_Ok_inv in H. destruct H as ([[[d t_mid] p_mid] est] & Epre & H).
    apply bind_Ok_inv in H. destruct H as (sub & Esub & H).
    exists ps, pe. split; [exact Eps|]. split; [exact Epe|].
    destruct sub.
    + apply bind_Ok_inv in H. destruct H as (c1 & Ec1 & H).
      apply bind_Ok_inv in H. destruct H as (c2 & Ec2 & H).
      apply bind_Ok_inv in H. destruct H as (first & Efirst & H).
      apply bind_Ok_inv in H. destruct H as (v & Ev & H).
      injection H as <-.
      apply IH in Ec1. destruct Ec1 as (ps1 & pe1 & E1 & E2 & B1).
      apply IH in Ec2. destruct Ec2 as (ps2 & pe2 & E3 & E4 & B2).
      cbn [end_point] in E1, E2, E3, E4.
      injection E1 as <-. injection E2 as <-.
      injection E3 as <-. injection E4 as <-.
      eapply built_subdivided; eassumption.
    + apply bind_Ok_inv in H. destruct H as (v & Ev & H).
      injection H as <-.
      eapply built_terminal; eassumption.
Qed.

Lemma node_prelude_midpoints (x y : list F) (side radius ts te : F)
    (ps pe d : point) (t_mid : F) (p_mid est : point) :
  node_prelude x y side radius ts te ps pe = Ok (d, t_mid, p_mid, est) ->
  fdiv (fadd ts te) f2 = Ok t_mid
  /\ calculate_center_point_of x y side radius t_mid = Ok p_mid
  /\ fdiv (fadd (fst ps) (fst pe)) f2 = Ok (fst est)
  /\ fdiv (fadd (snd ps) (snd pe)) f2 = Ok (snd est).
Proof.
  unfold node_prelude. intros H. inv_bind H.
  injection H as <- <- <- <-. cbn [fst snd]. auto.
Qed.

Lemma node_prelude_direction (x y : list F) (side radius ts te : F)
    (ps pe d : point) (t_mid : F) (p_mid est : point) :
  node_prelude x y side radius ts te ps pe = Ok (d, t_mid, p_mid, est) ->
  exists nx2 ny2 n_norm,
    fpow2 (fsub (fst pe) (fst ps)) = Ok nx2
    /\ fpow2 (fsub (snd pe) (snd ps)) = Ok ny2
    /\ fsqrt (fadd nx2 ny2) = Ok n_norm
    /\ fdiv (fsub (fst pe) (fst ps)) n_norm = Ok (fst d)
    /\ fdiv (fsub (snd pe) (snd ps)) n_norm = Ok (snd d).
Proof.
  unfold node_prelude. intros H. inv_bind H.
  injection H as <- <- <- <-. cbn [fst snd]. eauto 10.
Qed.

(** The fields [__init__] stores are its arguments. *)
Lemma built_fields (x y : list F) (side radius eps ts te : F) (ps pe : point)
    (s : CenterCurveSegment) :
  built x y side radius eps ts te ps pe s ->
  _x s = x /\ _y s = y /\ _side s = side /\ _radius s = radius
  /\ _eps s = eps /\ _t_start s = ts /\ _t_end s = te
  /\ _p_start s = ps /\ _p_end s = pe.
Proof. intros B; destruct B; cbn; repeat split; reflexivity. Qed.

Lemma node_criterion_of_prelude (s : CenterCurveSegment)
    (d : point) (t_mid : F) (p_mid est : point) (b : bool) :
  node_prelude (_x s) (_y s) (_side s) (_radius s) (_t_start s) (_t_end s)
               (_p_start s) (_p_end s) = Ok (d, t_mid, p_mid, est) ->
  subdivision_criterion (_eps s) (_t_start s) (_t_end s) est p_mid = Ok b ->
  node_midpoints s = Ok (est, p_mid) /\ node_criterion s = Ok b.
Proof.
  intros Hpre Hsub.
  apply node_prelude_midpoints in Hpre. destruct Hpre as (E1 & E2 & E3 & E4).
  assert (Hm : node_midpoints s = Ok (est, p_mid)).
  { unfold node_midpoints, calculate_center_point.
    rewrite E1; cbn [bind]. rewrite E2; cbn [bind].
    rewrite E3; cbn [bind]. rewrite E4; cbn [bind].
    destruct est; reflexivity. }
  split; [exact Hm|].
  unfold node_criterion. rewrite Hm. cbn [bind]. exact Hsub.
Qed.

(** In every node of a built tree, the node is terminal exactly when the
    test of [__init__], recomputed from its fields, is false. *)
Lemma built_node_criterion (x y : list F) (side radius eps ts te : F)
    (ps pe : point) (s : CenterCurveSegment) :
  built x y side radius eps ts te ps pe s ->
  forall n, In n (subnodes s) ->
    exists b, node_criterion n = Ok b /\ is_terminal n = negb b /\ _eps n = eps.
Proof.
  induction 1 as [ts te ps pe d t_mid p_mid est v Hl Hl2 Hpre Hsub Hv
                 |ts te ps pe d t_mid p_mid est c1 c2 first v Hl Hl2 Hpre Hsub
                    B1 IH1 B2 IH2 Hfirst Hv];
    intros n Hin; cbn [subnodes _segments flat_map] in Hin.
  - destruct Hin as [<- | []].
    exists false. split; [|split; reflexivity].
    eapply node_criterion_of_prelude; cbn; eassumption.
  - destruct Hin as [<- | Hin].
    + exists true. split; [|split; reflexivity].
      eapply node_criterion_of_prelude; cbn; eassumption.
    + rewrite app_nil_r in Hin. apply in_app_or in Hin.
      destruct Hin as [Hin | Hin]; [apply IH1 | apply IH2]; exact Hin.
Qed.

Lemma subdivision_criterion_false (eps ts te : F) (est p_mid : point) :
  subdivision_criterion eps ts te est p_mid = Ok false ->
  fgt (fsub te ts) lit_0_26 = false
  /\ exists a b e2,
       fpow2 (fsub (fst est) (fst p_mid)) = Ok a
       /\ fpow2 (fsub (snd est) (snd p_mid)) = Ok b
       /\ fpow2 eps = Ok e2
       /\ fgt (fadd a b) e2 = false.
Proof.
  unfold subdivision_criterion. intros H.
  destruct (fgt (fsub te ts) lit_0_26); [discriminate H|].
  split; [reflexivity|].
  inv_bind H. injection H as H. eauto 10.
Qed.

(** Every node of a built tree is itself built, on the same curve. *)
Lemma subnodes_built (x y : list F) (side radius eps ts te : F)
    (ps pe : point) (s : CenterCurveSegment) :
  built x y side radius eps ts te ps pe s ->
  forall n, In n (subnodes s) ->
    exists ts' te' ps' pe', built x y side radius eps ts' te' ps' pe' n.
Proof.
  induction 1 as [ts te ps pe d t_mid p_mid est v Hl Hl2 Hpre Hsub Hv
                 |ts te ps pe d t_mid p_mid est c1 c2 first v Hl Hl2 Hpre Hsub
                    B1 IH1 B2 IH2 Hfirst Hv];
    intros n Hin; cbn [subnodes _segments flat_map] in Hin.
  - destruct Hin as [<- | []].
    exists ts, te, ps, pe. eapply built_terminal; eassumption.
  - destruct Hin as [<- | Hin].
    + exists ts, te, ps, pe. eapply built_subdivided; eassumption.
    + rewrite app_nil_r in Hin. apply in_app_or in Hin.
      destruct Hin as [Hin | Hin]; [apply IH1 | apply IH2]; exact Hin.
Qed.

(** The end points of the terminal nodes are offset points of the curve,
    when the end points of the root are. *)
Lemma built_leaf_points (x y : list F) (side radius eps ts te : F)
    (ps pe : point) (s : CenterCurveSegment) :
  built x y side radius eps ts te ps pe s ->
  calculate_center_point_of x y side radius ts = Ok ps ->
  calculate_center_point_of x y side radius te = Ok pe ->
  forall l, In l (leaves s) ->
    calculate_center_point_of x y side radius (_t_start l) = Ok (_p_start l)
    /\ calculate_center_point_of x y side radius (_t_end l) = Ok (_p_end l).
Proof.
  induction 1 as [ts te ps pe d t_mid p_mid est v Hl Hl2 Hpre Hsub Hv
                 |ts te ps pe d t_mid p_mid est c1 c2 first v Hl Hl2 Hpre Hsub
                    B1 IH1 B2 IH2 Hfirst Hv];
    intros Hs He l Hin; cbn [leaves _segments flat_map] in Hin.
  - destruct Hin as [<- | []]. cbn. split; assumption.
  - apply node_prelude_midpoints in Hpre. destruct Hpre as (_ & Hmid & _).
    rewrite app_nil_r in Hin. apply in_app_or in Hin.
    destruct Hin as [Hin | Hin]; [apply IH1 | apply IH2]; assumption.
Qed.

Lemma leaves_of_subnode (x y : list F) (side radius eps ts te : F)
    (ps pe : point) (s : CenterCurveSegment) :
  built x y side radius eps ts te ps pe s ->
  forall n, In n (subnodes s) -> forall l, In l (leaves n) -> In l (leaves s).
Proof.
  induction 1 as [ts te ps pe d t_mid p_mid est v Hl Hl2 Hpre Hsub Hv
                 |ts te ps pe d t_mid p_mid est c1 c2 first v Hl Hl2 Hpre Hsub
                    B1 IH1 B2 IH2 Hfirst Hv];
    intros n Hin l Hl'; cbn [subnodes _segments flat_map] in Hin.
  - destruct Hin as [<- | []]. exact Hl'.
  - destruct Hin as [<- | Hin]; [exact Hl'|].
    cbn [leaves _segments flat_map].
    rewrite app_nil_r in Hin |- *. apply in_app_or in Hin. apply in_or_app.
    destruct Hin as [Hin | Hin];
      [left; eapply IH1 | right; eapply IH2]; eassumption.
Qed.

Lemma subnodes_root (s : @CenterCurveSegment F) : In s (subnodes s).
Proof. destruct s; cbn. left; reflexivity. Qed.

(** The hull of a built node is not empty, and search values of a hull
    that is not empty are defined. *)
Lemma built_hull_nonempty (x y : list F) (side radius eps ts te : F)
    (ps pe : point) (s : CenterCurveSegment) :
  built x y side radius eps ts te ps pe s -> _hullPoints s <> [].
Proof. intros B; destruct B; cbn; discriminate. Qed.

Lemma convexHullSearchValues_total (s : @CenterCurveSegment F) (d : point) :
  _hullPoints s <> [] -> exists v, convexHullSearchValues s d = Ok v.
Proof.
  unfold convexHullSearchValues, convexHullSearchValues_of.
  destruct (_hullPoints s) as [|p hull]; [congruence|]. intros _.
  cbn. eexists; reflexivity.
Qed.

End GenericFacts.

(** *** The replacement [subpath_round_corner] builds *)

Section FitFacts.
Context {F : Type} {AF : Arith F}.

Lemma set_nth_length {A : Type} (l : list A) (n : nat) (a : A) :
  length (set_nth l n a) = length l.
Proof.
  revert n; induction l as [|b l IH]; intros [|n]; cbn; try reflexivity.
  now rewrite IH.
Qed.

Lemma py_update_len {A : Type} (l l' : list A) (i : Z) (f : A -> A) :
  py_update l i f = Ok l' -> len l' = len l.
Proof.
  unfold py_update. intros H. inv_bind H. injection H as <-.
  unfold len. now rewrite set_nth_length.
Qed.

Lemma py_index_range {A : Type} (l : list A) (i : Z) (a : A) :
  (0 <= i)%Z -> py_index l i = Ok a -> (i < len l)%Z.
Proof.
  unfold py_index, len. intros Hi H.
  destruct (i <? 0)%Z eqn:E; [apply Z.ltb_lt in E; lia|].
  rewrite E in H.
  destruct (nth_error l (Z.to_nat i)) eqn:En; [|discriminate H].
  assert (Z.to_nat i < length l)%nat by (apply nth_error_Some; congruence).
  lia.
Qed.

Lemma py_slice_to_len {A : Type} (l : list A) (i : Z) :
  (0 <= i <= len l)%Z -> len (py_slice_to l i) = i.
Proof.
  unfold py_slice_to, py_slice, py_bound, len. intros Hi.
  destruct (0 <? 0)%Z eqn:E0; [discriminate E0|].
  destruct (i <? 0)%Z eqn:E; [apply Z.ltb_lt in E; lia|].
  rewrite length_firstn, length_skipn. lia.
Qed.

Lemma py_slice_from_len {A : Type} (l : list A) (i : Z) :
  (0 <= i <= len l)%Z -> len (py_slice_from l i) = (len l - i)%Z.
Proof.
  unfold py_slice_from, py_slice, py_bound, len. intros Hi.
  destruct (i <? 0)%Z eqn:E; [apply Z.ltb_lt in E; lia|].
  destruct (Z.of_nat (length l) <? 0)%Z eqn:E0; [apply Z.ltb_lt in E0; lia|].
  rewrite length_firstn, length_skipn. lia.
Qed.

(** The two nodes [fit_corner] puts in place of the vertex, next to each
    other in the list it returns.  [P] and [N] are the points at which the
    two segments are split; the arc segment between the two nodes has the
    control points [P], [c1], [c2], [N]. *)
Lemma fit_corner_emits (s1 : CenterCurveSegment) (sp sp' : list Node)
    (node_idx prev_idx next_idx : Z) (prev_node node next_node : Node)
    (t : F * F) :
  fit_corner s1 sp node_idx prev_idx next_idx prev_node node next_node t = Ok sp' ->
  let '((_, _, p2, P), _) :=
    split_bezier_curve (nd1 prev_node) (nd2 prev_node) (nd0 node) (nd1 node) (fst t) in
  let '(_, (N, n1, _, _)) :=
    split_bezier_curve (nd1 node) (nd2 node) (nd0 next_node) (nd1 next_node) (snd t) in
  exists arc_c c1 c2 before after,
    calculate_center_point s1 (fst t) = Ok arc_c
    /\ arc_bezier_handles P N arc_c = Ok (c1, c2)
    /\ sp' = before ++ [mkNode p2 P c1; mkNode c2 N n1] ++ after.
Proof.
  unfold fit_corner, split_bezier_curve. intros H.
  apply bind_Ok_inv in H. destruct H as (arc_c & Earc & H).
  apply bind_Ok_inv in H. destruct H as (spa & Espa & H).
  apply bind_Ok_inv in H. destruct H as (spb & Espb & H).
  apply bind_Ok_inv in H. destruct H as ([c1 c2] & Ehandles & H).
  exists arc_c, c1, c2.
  destruct (node_idx =? 0)%Z; injection H as <-.
  - exists [], (py_slice spb 1 (prev_idx + 2)).
    split; [exact Earc|]. split; [exact Ehandles|]. reflexivity.
  - exists (py_slice_to spb node_idx), (py_slice_from spb (node_idx + 1)).
    split; [exact Earc|]. split; [exact Ehandles|]. reflexivity.
Qed.

(** For a vertex that is not the first node, the list [fit_corner] returns
    is one node longer than the subpath. *)
Lemma fit_corner_len (s1 : CenterCurveSegment) (sp sp' : list Node)
    (node_idx prev_idx next_idx : Z) (prev_node node next_node : Node)
    (t : F * F) :
  (0 < node_idx < len sp)%Z ->
  fit_corner s1 sp node_idx prev_idx next_idx prev_node node next_node t = Ok sp' ->
  len sp' = (len sp + 1)%Z.
Proof.
  unfold fit_corner, split_bezier_curve. intros Hi H.
  apply bind_Ok_inv in H. destruct H as (arc_c & Earc & H).
  apply bind_Ok_inv in H. destruct H as (spa & Espa & H).
  apply bind_Ok_inv in H. destruct H as (spb & Espb & H).
  apply bind_Ok_inv in H. destruct H as ([c1 c2] & Ehandles & H).
  apply py_update_len in Espa. apply py_update_len in Espb.
  destruct (node_idx =? 0)%Z eqn:E0; [apply Z.eqb_eq in E0; lia|].
  injection H as <-.
  assert (L1 : len (py_slice_to spb node_idx) = node_idx)
    by (apply py_slice_to_len; lia).
  assert (L2 : len (py_slice_from spb (node_idx + 1)) = (len spb - (node_idx + 1))%Z)
    by (apply py_slice_from_len; lia).
  unfold len in *. rewrite !length_app. cbn [length].
  lia.
Qed.

Lemma corner_search_node (fuel : nat) (self self' : RoundedCorners)
    (sp : list Node) (node_idx : Z) (c : Corner) :
  corner_search fuel self sp node_idx = Ok (self', Some c) ->
  py_index sp node_idx = Ok (c_node c).
Proof.
  unfold corner_search. intros H.
  apply bind_Ok_inv in H. destruct H as ([self1 found] & Esn & H).
  destruct found as [[sn nd]|]; [|discriminate H].
  apply bind_Ok_inv in H. destruct H as (prev_node & Eprev & H).
  apply bind_Ok_inv in H. destruct H as (next_node & Enext & H).
  apply bind_Ok_inv in H. destruct H as (node & Enode & H).
  apply bind_Ok_inv in H. destruct H as ([s1 s2] & Etrees & H).
  destruct (intersectCenterCurveSegments fuel s1 s2) as [s1' ret].
  apply bind_Ok_inv in H. destruct H as (t & Et & H).
  injection H as _ <-. exact Enode.
Qed.

(** [subpath_round_corner], read off its two halves. *)
Lemma subpath_round_corner_cases (fuel : nat) (self self' : RoundedCorners)
    (sp sp' : list Node) (node_idx : Z) :
  subpath_round_corner fuel self sp node_idx = Ok (self', sp') ->
  exists found,
    corner_search fuel self sp node_idx = Ok (self', found)
    /\ match found with
       | None => sp' = sp
       | Some c =>
           match c_t c with
           | None => sp' = sp
           | Some t =>
               fit_corner (c_s1 c) sp node_idx (c_prev_idx c) (c_next_idx c)
                          (c_prev_node c) (c_node c) (c_next_node c) t = Ok sp'
           end
       end.
Proof.
  unfold subpath_round_corner. intros H.
  apply bind_Ok_inv in H. destruct H as ([self1 found] & Esearch & H).
  destruct found as [c|].
  - destruct (c_t c) as [t|] eqn:Et.
    + apply bind_Ok_inv in H. destruct H as (sp1 & Efit & H).
      injection H as <- <-.
      exists (Some c). split; [exact Esearch|]. rewrite Et. exact Efit.
    + injection H as <- <-.
      exists (Some c). split; [exact Esearch|]. rewrite Et. reflexivity.
  - injection H as <- <-. exists None. split; [exact Esearch | reflexivity].
Qed.

End FitFacts.

(** *** What the orchestrator does not do *)

Section BookkeepingFacts.
Context {F : Type} {AF : Arith F}.

(** The leaf case on a zero determinant. *)
Lemma intersect_leaves_zero_determinant (segment1 segment2 : @CenterCurveSegment F) :
  fne (fsub (fmul (fsub (fst (_p_end segment1)) (fst (_p_start segment1)))
                  (fsub (snd (_p_start segment2)) (snd (_p_end segment2))))
            (fmul (fsub (snd (_p_end segment1)) (snd (_p_start segment1)))
                  (fsub (fst (_p_start segment2)) (fst (_p_end segment2)))))
      f0 = false ->
  intersect_leaves segment1 segment2
  = Raise (Exception "det = 0 case not implemented yet").
Proof. unfold intersect_leaves. intros ->. reflexivity. Qed.

(** [super_node] changes nothing of the object but [skipped_degenerated]. *)
Lemma super_node_bookkeeping (self self' : @RoundedCorners F) (sp : list Node)
    (node_idx : Z) (found : option (SuperNode * Node)) :
  super_node self sp node_idx = Ok (self', found) ->
  radius self' = radius self
  /\ max_trim_factor self' = max_trim_factor self
  /\ skipped_small_count self' = skipped_small_count self
  /\ skipped_small_len self' = skipped_small_len self.
Proof.
  unfold super_node. intros H.
  apply bind_Ok_inv in H. destruct H as (node0 & _ & H).
  apply bind_Ok_inv in H. destruct H as (wrapped & _ & H).
  destruct wrapped as [[nd prev_idx]|].
  - destruct (node_idx =? len sp - 1)%Z.
    + injection H as <- _. cbn. auto.
    + inv_bind H. injection H as <- _. auto.
  - injection H as <- _. cbn. auto.
Qed.

(** X19.  Whatever [subpath_round_corner] returns, the object it leaves
    has the [skipped_small_count] and [skipped_small_len] it started
    with: no corner is ever recorded as skipped for want of room. *)
Lemma subpath_round_corner_bookkeeping (fuel : nat) (self self' : @RoundedCorners F)
    (sp sp' : list Node) (node_idx : Z) :
  subpath_round_corner fuel self sp node_idx = Ok (self', sp') ->
  skipped_small_count self' = skipped_small_count self
  /\ skipped_small_len self' = skipped_small_len self.
Proof.
  intros H. apply subpath_round_corner_cases in H.
  destruct H as (found & Hsearch & _).
  unfold corner_search in Hsearch.
  apply bind_Ok_inv in Hsearch. destruct Hsearch as ([self1 r] & Hsn & H).
  apply super_node_bookkeeping in Hsn. destruct Hsn as (_ & _ & Hc & Hl).
  destruct r as [[sn nd]|].
  - apply bind_Ok_inv in H. destruct H as (prev_node & _ & H).
    apply bind_Ok_inv in H. destruct H as (next_node & _ & H).
    apply bind_Ok_inv in H. destruct H as (node & _ & H).
    apply bind_Ok_inv in H. destruct H as ([s1 s2] & _ & H).
    destruct (intersectCenterCurveSegments fuel s1 s2) as [s1' ret].
    apply bind_Ok_inv in H. destruct H as (t & _ & H).
    injection H as <- _. auto.
  - injection H as <- _. auto.
Qed.

(** X20.  What [subpath_round_corner] returns or raises does not depend
    on [max_trim_factor]: with another value of that field it returns the
    same subpath and raises the same exception. *)
Lemma subpath_round_corner_ignores_max_trim_factor (fuel : nat) (m : F)
    (self : @RoundedCorners F) (sp : list Node) (node_idx : Z) :
  subpath_round_corner fuel (with_max_trim_factor m self) sp node_idx
  = match subpath_round_corner fuel self sp node_idx with
    | Ok (self', sp') => Ok (with_max_trim_factor m self', sp')
    | Raise e => Raise e
    | OutOfFuel => OutOfFuel
    end.
Proof.
  assert (Hsn : super_node (with_max_trim_factor m self) sp node_idx
                = match super_node self sp node_idx with
                  | Ok (self', found) => Ok (with_max_trim_factor m self', found)
                  | Raise e => Raise e
                  | OutOfFuel => OutOfFuel
                  end).
  { unfold super_node.
    destruct (py_index sp node_idx) as [node0| |]; cbn [bind]; try reflexivity.
    match goal with
    | |- bind ?w _ = _ => destruct w as [[[nd prev_idx]|]| |]; cbn [bind];
                          try reflexivity
    end.
    destruct (node_idx =? len sp - 1)%Z; [reflexivity|].
    destruct (py_index sp prev_idx) as [p| |]; cbn [bind]; try reflexivity.
    match goal with
    | |- bind ?w _ = _ => destruct w as [n| |]; cbn [bind]; try reflexivity
    end.
    destruct (fsqrt _) as [dist1| |]; cbn [bind]; try reflexivity.
    destruct (fsqrt _) as [dist2| |]; cbn [bind]; reflexivity. }
  unfold subpath_round_corner, corner_search. rewrite Hsn.
  destruct (super_node self sp node_idx) as [[self1 [[sn nd]|]]| |];
    cbn [bind]; try reflexivity.
  destruct (py_index sp (s_idx (sn_prev sn))) as [prev_node| |];
    cbn [bind]; try reflexivity.
  destruct (py_index sp (s_idx (sn_next sn))) as [next_node| |];
    cbn [bind]; try reflexivity.
  destruct (py_index sp node_idx) as [node| |]; cbn [bind]; try reflexivity.
  change (corner_trees fuel (with_max_trim_factor m self1) prev_node node next_node)
    with (corner_trees fuel self1 prev_node node next_node).
  destruct (corner_trees fuel self1 prev_node node next_node) as [[s1 s2]| |];
    cbn [bind]; try reflexivity.
  destruct (intersectCenterCurveSegments fuel s1 s2) as [s1' [[t|]| |]];
    cbn [bind c_t]; try reflexivity.
  cbn [c_s1 c_prev_idx c_next_idx c_prev_node c_node c_next_node].
  destruct (fit_corner s1' sp node_idx _ _ prev_node node next_node t);
    reflexivity.
Qed.

End BookkeepingFacts.

(** ** Facts about the model in exact arithmetic *)

Section RealFacts.
Local Open Scope R_scope.

Lemma R_ltb_true (a b : R) : a < b -> R_ltb a b = true.
Proof. unfold R_ltb. destruct (Rlt_dec a b); [reflexivity | contradiction]. Qed.

Lemma R_ltb_false (a b : R) : b <= a -> R_ltb a b = false.
Proof. unfold R_ltb. destruct (Rlt_dec a b); [lra | reflexivity]. Qed.

Lemma R_ltb_false_inv (a b : R) : R_ltb a b = false -> b <= a.
Proof. unfold R_ltb. destruct (Rlt_dec a b); [discriminate | lra]. Qed.

Lemma R_div_Ok (a b : R) : b <> 0 -> R_div a b = Ok (a / b).
Proof. unfold R_div. destruct (Req_dec_T b 0); [contradiction | reflexivity]. Qed.

Lemma R_div_inv (a b c : R) : R_div a b = Ok c -> b <> 0 /\ c = a / b.
Proof.
  unfold R_div. destruct (Req_dec_T b 0); [discriminate|].
  intros H; injection H as <-. split; [assumption | reflexivity].
Qed.

Lemma R_sqrt_Ok (a : R) : 0 <= a -> R_sqrt a = Ok (sqrt a).
Proof. unfold R_sqrt. destruct (Rlt_dec a 0); [lra | reflexivity]. Qed.

Lemma R_sqrt_inv (a c : R) : R_sqrt a = Ok c -> 0 <= a /\ c = sqrt a.
Proof.
  unfold R_sqrt. destruct (Rlt_dec a 0); [discriminate|].
  intros H; injection H as <-. split; [lra | reflexivity].
Qed.

(** *** The arc handles *)

Lemma arc_bezier_handles_real (P N C h1 h2 : Rpoint) :
  arc_bezier_handles P N C = Ok (h1, h2) ->
  h1 = vadd P (vscale (k2_of P N C) (rot90 (vsub P C)))
  /\ h2 = vsub N (vscale (k2_of P N C) (rot90 (vsub N C))).
Proof.
  destruct P as [x1 y1], N as [x4 y4], C as [xc yc].
  unfold arc_bezier_handles. intros H.
  apply bind_Ok_inv in H. destruct H as (r & Er & H).
  apply bind_Ok_inv in H. destruct H as (k2 & Ek & H).
  apply R_sqrt_inv in Er. destruct Er as [_ ->].
  apply R_div_inv in Ek. destruct Ek as [_ Ek].
  assert (Hk : k2 = k2_of (x1, y1) (x4, y4) (xc, yc)).
  { rewrite Ek. unfold k2_of, vsub, dot, cross. cbn.
    apply f_equal2; [|ring].
    apply f_equal2; [reflexivity|].
    apply f_equal2; [apply f_equal; ring | ring]. }
  rewrite <- Hk.
  injection H as <- <-.
  unfold vadd, vsub, vscale, rot90. cbn.
  split; f_equal; ring.
Qed.

(** *** The flatness of terminal nodes *)

Lemma criterion_false_real (eps ts te : R) (est p_mid : Rpoint) :
  0 <= eps ->
  subdivision_criterion eps ts te est p_mid = Ok false ->
  te - ts <= 26 / 100 /\ distance est p_mid <= eps.
Proof.
  intros Heps H. apply subdivision_criterion_false in H.
  destruct H as (Hrange & a & b & e2 & Ea & Eb & Ee & Hdev).
  cbn in Hrange, Ea, Eb, Ee, Hdev.
  apply R_ltb_false_inv in Hrange. apply R_ltb_false_inv in Hdev.
  unfold R_pow2 in Ea, Eb, Ee.
  injection Ea as <-. injection Eb as <-. injection Ee as <-.
  split; [exact Hrange|].
  unfold distance.
  rewrite <- (sqrt_square eps Heps).
  apply sqrt_le_1_alt. exact Hdev.
Qed.

Lemma terminal_bounds_real (x y : list R) (side radius eps ts te : R)
    (ps pe : Rpoint) (s : Rsegment) :
  0 <= eps ->
  built x y side radius eps ts te ps pe s ->
  forall n, In n (subnodes s) -> is_terminal n = true ->
    exists est p_mid,
      node_midpoints n = Ok (est, p_mid)
      /\ _t_end n - _t_start n <= 26 / 100
      /\ distance est p_mid <= eps.
Proof.
  intros Heps B n Hin Hterm.
  destruct (built_node_criterion B n Hin) as (b & Hcrit & Hb & Heq).
  rewrite Hterm in Hb. destruct b; [discriminate Hb|].
  unfold node_criterion in Hcrit.
  apply bind_Ok_inv in Hcrit. destruct Hcrit as ([est p_mid] & Hm & Hcrit).
  exists est, p_mid. split; [exact Hm|].
  rewrite Heq in Hcrit.
  eapply criterion_false_real; eassumption.
Qed.

(** *** The boxes of the tree

    In exact arithmetic the box of a node contains the end points of the
    chords of the terminal nodes below it. *)

Lemma py_min2_real (a b : R) : py_min2 a b <= a /\ py_min2 a b <= b.
Proof. unfold py_min2; cbn; unfold R_ltb. destruct (Rlt_dec b a); lra. Qed.

Lemma py_max2_real (a b : R) : a <= py_max2 a b /\ b <= py_max2 a b.
Proof. unfold py_max2; cbn; unfold R_ltb. destruct (Rlt_dec a b); lra. Qed.

Lemma fold_min_real (l : list R) :
  forall a, fold_left py_min2 l a <= a
            /\ forall v, In v l -> fold_left py_min2 l a <= v.
Proof.
  induction l as [|b l IH]; intros a; cbn [fold_left].
  - split; [lra | intros v []].
  - destruct (IH (py_min2 a b)) as [H1 H2].
    destruct (py_min2_real a b) as [H3 H4].
    split; [lra|]. intros v [<- | Hin]; [lra | apply H2, Hin].
Qed.

Lemma fold_max_real (l : list R) :
  forall a, a <= fold_left py_max2 l a
            /\ forall v, In v l -> v <= fold_left py_max2 l a.
Proof.
  induction l as [|b l IH]; intros a; cbn [fold_left].
  - split; [lra | intros v []].
  - destruct (IH (py_max2 a b)) as [H1 H2].
    destruct (py_max2_real a b) as [H3 H4].
    split; [lra|]. intros v [<- | Hin]; [lra | apply H2, Hin].
Qed.

Lemma py_min_real (l : list R) (m : R) :
  py_min l = Ok m -> forall v, In v l -> m <= v.
Proof.
  destruct l as [|a l]; cbn [py_min]; intros H; [discriminate H|].
  injection H as <-. destruct (fold_min_real l a) as [H1 H2].
  intros v [<- | Hin]; [exact H1 | apply H2, Hin].
Qed.

Lemma py_max_real (l : list R) (m : R) :
  py_max l = Ok m -> forall v, In v l -> v <= m.
Proof.
  destruct l as [|a l]; cbn [py_max]; intros H; [discriminate H|].
  injection H as <-. destruct (fold_max_real l a) as [H1 H2].
  intros v [<- | Hin]; [exact H1 | apply H2, Hin].
Qed.

(** The search values of a hull bound the projections of its points. *)
Lemma hull_search_values_real (hull : list Rpoint) (e : Rpoint)
    (v : @search_values R) :
  convexHullSearchValues_of hull e = Ok v ->
  forall p, In p hull -> in_range v e p.
Proof.
  unfold convexHullSearchValues_of. intros H.
  apply bind_Ok_inv in H. destruct H as (a & Ea & H).
  apply bind_Ok_inv in H. destruct H as (b & Eb & H).
  apply bind_Ok_inv in H. destruct H as (c & Ec & H).
  apply bind_Ok_inv in H. destruct H as (d & Ed & H).
  injection H as <-. intros p Hin.
  unfold in_range; cbn [sv0 sv1 sv2 sv3].
  pose proof (in_map (v_parallel e) hull p Hin) as Hp.
  pose proof (in_map (v_orthogonal e) hull p Hin) as Ho.
  repeat split.
  - exact (py_min_real _ Ea _ Hp).
  - exact (py_max_real _ Eb _ Hp).
  - exact (py_min_real _ Ec _ Ho).
  - exact (py_max_real _ Ed _ Ho).
Qed.

(** A bilinear form on a rectangle lies between its values at the corners. *)
Lemma corner_lower (a b c d p o u w lo : R) :
  a <= p <= b -> c <= o <= d ->
  lo <= a * u + c * w -> lo <= a * u + d * w ->
  lo <= b * u + c * w -> lo <= b * u + d * w ->
  lo <= p * u + o * w.
Proof.
  intros Hp Ho H1 H2 H3 H4.
  destruct (Rle_dec 0 u) as [Hu | Hu], (Rle_dec 0 w) as [Hw | Hw]; nra.
Qed.

Lemma corner_upper (a b c d p o u w hi : R) :
  a <= p <= b -> c <= o <= d ->
  a * u + c * w <= hi -> a * u + d * w <= hi ->
  b * u + c * w <= hi -> b * u + d * w <= hi ->
  p * u + o * w <= hi.
Proof.
  intros Hp Ho H1 H2 H3 H4.
  destruct (Rle_dec 0 u) as [Hu | Hu], (Rle_dec 0 w) as [Hw | Hw]; nra.
Qed.

(** A point of the box [v] of the unit frame [dc] projects, on any
    direction [e], within the search values of the four corners of the
    box. *)
Lemma box_hull_real (dc e q : Rpoint) (v w : @search_values R) :
  unit_vector dc ->
  in_range v dc q ->
  convexHullSearchValues_of (hull_of_search_values dc v) e = Ok w ->
  in_range w e q.
Proof.
  intros Hunit Hq Hw.
  pose proof (hull_search_values_real _ _ Hw) as Hc.
  assert (C1 := Hc _ (or_introl eq_refl)).
  assert (C2 := Hc _ (or_intror (or_introl eq_refl))).
  assert (C3 := Hc _ (or_intror (or_intror (or_introl eq_refl)))).
  assert (C4 := Hc _ (or_intror (or_intror (or_intror (or_introl eq_refl))))).
  clear Hc Hw.
  destruct dc as [c0 c1], e as [e0 e1], q as [q0 q1].
  destruct v as [[[a b] c] d], w as [[[w0 w1] w2] w3].
  unfold unit_vector in Hunit.
  unfold in_range, v_parallel, v_orthogonal in *.
  cbn in Hunit, Hq, C1, C2, C3, C4 |- *.
  destruct Hq as [Hp Ho].
  set (p := c0 * q0 + c1 * q1) in *.
  set (o := - c1 * q0 + c0 * q1) in *.
  assert (Epar : e0 * q0 + e1 * q1
                 = p * (e0 * c0 + e1 * c1) + o * (- e0 * c1 + e1 * c0)).
  { replace (e0 * q0 + e1 * q1)
      with ((e0 * q0 + e1 * q1) * (c0 * c0 + c1 * c1))
      by (rewrite Hunit; ring).
    unfold p, o; ring. }
  assert (Eorth : - e1 * q0 + e0 * q1
                  = p * (- e1 * c0 + e0 * c1) + o * (e1 * c1 + e0 * c0)).
  { replace (- e1 * q0 + e0 * q1)
      with ((- e1 * q0 + e0 * q1) * (c0 * c0 + c1 * c1))
      by (rewrite Hunit; ring).
    unfold p, o; ring. }
  rewrite Epar, Eorth.
  destruct C1 as [[? ?] [? ?]], C2 as [[? ?] [? ?]],
           C3 as [[? ?] [? ?]], C4 as [[? ?] [? ?]].
  repeat split.
  - apply corner_lower with (a := a) (b := b) (c := c) (d := d); try assumption; lra.
  - apply corner_upper with (a := a) (b := b) (c := c) (d := d); try assumption; lra.
  - apply corner_lower with (a := a) (b := b) (c := c) (d := d); try assumption; lra.
  - apply corner_upper with (a := a) (b := b) (c := c) (d := d); try assumption; lra.
Qed.

(** The search direction [__init__] stores is a unit vector. *)
Lemma prelude_unit_real (x y : list R) (side radius ts te : R)
    (ps pe d : Rpoint) (t_mid : R) (p_mid est : Rpoint) :
  node_prelude x y side radius ts te ps pe = Ok (d, t_mid, p_mid, est) ->
  unit_vector d.
Proof.
  intros H. apply node_prelude_direction in H.
  destruct H as (nx2 & ny2 & n & E1 & E2 & E3 & E4 & E5).
  cbn in E1, E2, E3, E4, E5. unfold R_pow2 in E1, E2.
  injection E1 as <-. injection E2 as <-.
  apply R_sqrt_inv in E3. destruct E3 as [Hpos En].
  apply R_div_inv in E4. destruct E4 as [Hn E4].
  apply R_div_inv in E5. destruct E5 as [_ E5].
  unfold unit_vector. rewrite E4, E5.
  assert (Hsq : n * n = (fst pe - fst ps) * (fst pe - fst ps)
                        + (snd pe - snd ps) * (snd pe - snd ps)).
  { rewrite En. apply sqrt_sqrt. exact Hpos. }
  set (nx := fst pe - fst ps) in *. set (ny := snd pe - snd ps) in *.
  replace (nx / n * (nx / n) + ny / n * (ny / n))
    with ((nx * nx + ny * ny) / (n * n)) by (field; exact Hn).
  rewrite <- Hsq. field. exact Hn.
Qed.

Lemma in_range_union_l (a b : @search_values R) (d q : Rpoint) :
  in_range a d q ->
  in_range (py_min2 (sv0 a) (sv0 b), py_max2 (sv1 a) (sv1 b),
            py_min2 (sv2 a) (sv2 b), py_max2 (sv3 a) (sv3 b)) d q.
Proof.
  unfold in_range; cbn [sv0 sv1 sv2 sv3]. intros [[H1 H2] [H3 H4]].
  pose proof (py_min2_real (sv0 a) (sv0 b)). pose proof (py_max2_real (sv1 a) (sv1 b)).
  pose proof (py_min2_real (sv2 a) (sv2 b)). pose proof (py_max2_real (sv3 a) (sv3 b)).
  repeat split; lra.
Qed.

Lemma in_range_union_r (a b : @search_values R) (d q : Rpoint) :
  in_range b d q ->
  in_range (py_min2 (sv0 a) (sv0 b), py_max2 (sv1 a) (sv1 b),
            py_min2 (sv2 a) (sv2 b), py_max2 (sv3 a) (sv3 b)) d q.
Proof.
  unfold in_range; cbn [sv0 sv1 sv2 sv3]. intros [[H1 H2] [H3 H4]].
  pose proof (py_min2_real (sv0 a) (sv0 b)). pose proof (py_max2_real (sv1 a) (sv1 b)).
  pose proof (py_min2_real (sv2 a) (sv2 b)). pose proof (py_max2_real (sv3 a) (sv3 b)).
  repeat split; lra.
Qed.

Lemma built_box_invariant (x y : list R) (side radius eps ts te : R)
    (ps pe : Rpoint) (s : Rsegment) :
  built x y side radius eps ts te ps pe s -> box_invariant s.
Proof.
  induction 1 as [ts te ps pe d t_mid p_mid est v Hl Hl2 Hpre Hsub Hv
                 |ts te ps pe d t_mid p_mid est c1 c2 first v Hl Hl2 Hpre Hsub
                    B1 IH1 B2 IH2 Hfirst Hv].
  - (* a terminal node: the hull is the chord *)
    assert (Hends : forall e w, convexHullSearchValues_of [ps; pe] e = Ok w ->
                      in_range w e ps /\ in_range w e pe).
    { intros e w Hw. split; apply (hull_search_values_real _ _ Hw); cbn; auto. }
    split; [|split].
    + exact (prelude_unit_real _ _ _ _ _ _ _ _ Hpre).
    + intros l [<- | []]. unfold inside_box; cbn. apply Hends, Hv.
    + intros e w Hw l [<- | []]. cbn. apply Hends, Hw.
  - (* a subdivided node: the box is the union of the children's *)
    pose proof (prelude_unit_real _ _ _ _ _ _ _ _ Hpre) as Hunit.
    destruct IH1 as (_ & _ & Hull1). destruct IH2 as (_ & _ & Hull2).
    cbn [union_search_values] in Hv.
    apply bind_Ok_inv in Hv. destruct Hv as (loc & Eloc & Hv).
    injection Hv as <-.
    assert (Hbox : forall l, In l (leaves c1 ++ leaves c2) ->
              in_range (py_min2 (sv0 first) (sv0 loc), py_max2 (sv1 first) (sv1 loc),
                        py_min2 (sv2 first) (sv2 loc), py_max2 (sv3 first) (sv3 loc))
                       d (_p_start l)
              /\ in_range (py_min2 (sv0 first) (sv0 loc), py_max2 (sv1 first) (sv1 loc),
                           py_min2 (sv2 first) (sv2 loc), py_max2 (sv3 first) (sv3 loc))
                          d (_p_end l)).
    { intros l Hin. apply in_app_or in Hin. destruct Hin as [Hin | Hin].
      - destruct (Hull1 _ _ Hfirst l Hin).
        split; apply in_range_union_l; assumption.
      - destruct (Hull2 _ _ Eloc l Hin).
        split; apply in_range_union_r; assumption. }
    split; [exact Hunit | split].
    + intros l Hin. cbn [leaves _segments flat_map] in Hin.
      rewrite app_nil_r in Hin. unfold inside_box; cbn. apply Hbox, Hin.
    + intros e w Hw l Hin. cbn [leaves _segments flat_map] in Hin.
      rewrite app_nil_r in Hin.
      unfold convexHullSearchValues in Hw; cbn in Hw.
      destruct (Hbox l Hin).
      split; eapply box_hull_real; eassumption.
Qed.

(** The ranges of the nodes nest. *)
Lemma built_ranges_real (x y : list R) (side radius eps ts te : R)
    (ps pe : Rpoint) (s : Rsegment) :
  built x y side radius eps ts te ps pe s -> ts <= te ->
  forall n, In n (subnodes s) ->
    ts <= _t_start n /\ _t_start n <= _t_end n /\ _t_end n <= te.
Proof.
  induction 1 as [ts te ps pe d t_mid p_mid est v Hl Hl2 Hpre Hsub Hv
                 |ts te ps pe d t_mid p_mid est c1 c2 first v Hl Hl2 Hpre Hsub
                    B1 IH1 B2 IH2 Hfirst Hv];
    intros Hle n Hin; cbn [subnodes _segments flat_map] in Hin.
  - destruct Hin as [<- | []]. cbn. lra.
  - destruct Hin as [<- | Hin]; [cbn; lra|].
    apply node_prelude_midpoints in Hpre. destruct Hpre as (Hmid & _).
    cbn in Hmid. apply R_div_inv in Hmid. destruct Hmid as [_ Hmid].
    assert (ts <= t_mid <= te) by (rewrite Hmid; lra).
    rewrite app_nil_r in Hin. apply in_app_or in Hin.
    destruct Hin as [Hin | Hin].
    + assert (Hc := IH1 ltac:(lra) n Hin). lra.
    + assert (Hc := IH2 ltac:(lra) n Hin). lra.
Qed.

Lemma leaves_are_subnodes (x y : list R) (side radius eps ts te : R)
    (ps pe : Rpoint) (s : Rsegment) :
  built x y side radius eps ts te ps pe s ->
  forall l, In l (leaves s) -> In l (subnodes s).
Proof.
  induction 1 as [ts te ps pe d t_mid p_mid est v Hl Hl2 Hpre Hsub Hv
                 |ts te ps pe d t_mid p_mid est c1 c2 first v Hl Hl2 Hpre Hsub
                    B1 IH1 B2 IH2 Hfirst Hv];
    intros l Hin; cbn [leaves subnodes _segments flat_map] in Hin |- *.
  - destruct Hin as [<- | []]. left; reflexivity.
  - right. rewrite app_nil_r in Hin |- *. apply in_app_or in Hin. apply in_or_app.
    destruct Hin as [Hin | Hin]; [left; apply IH1 | right; apply IH2]; exact Hin.
Qed.

(** In every node of a tree built for the range [ts, te], and for every
    terminal node below it: the range of the terminal node lies in the
    range of the node, its two end points are the offset points of the
    curve at the ends of its range, and they lie in the box of the node. *)
Lemma built_boxes_real (x y : list R) (side radius eps ts te : R)
    (ps pe : Rpoint) (s : Rsegment) :
  built x y side radius eps ts te ps pe s ->
  ts <= te ->
  calculate_center_point_of x y side radius ts = Ok ps ->
  calculate_center_point_of x y side radius te = Ok pe ->
  forall n, In n (subnodes s) -> forall l, In l (leaves n) ->
    (_t_start n <= _t_start l /\ _t_start l <= _t_end l /\ _t_end l <= _t_end n)
    /\ calculate_center_point n (_t_start l) = Ok (_p_start l)
    /\ inside_box n (_p_start l)
    /\ calculate_center_point n (_t_end l) = Ok (_p_end l)
    /\ inside_box n (_p_end l).
Proof.
  intros B Hle Hs He n Hn l Hl.
  pose proof (built_leaf_points B Hs He l (leaves_of_subnode B n Hn l Hl))
    as [Hps Hpe].
  pose proof (built_ranges_real B Hle n Hn) as Hrange.
  destruct (subnodes_built B n Hn) as (ts' & te' & ps' & pe' & Bn).
  pose proof (built_fields Bn) as (Ex & Ey & Eside & Eradius & _ & Ets & Ete & _).
  pose proof (built_box_invariant Bn) as (_ & Hbox & _).
  destruct (Hbox l Hl) as [Hbs Hbe].
  assert (Hlr : ts' <= _t_start l /\ _t_start l <= _t_end l /\ _t_end l <= te').
  { apply (built_ranges_real Bn); [rewrite <- Ets, <- Ete; lra|].
    apply (leaves_are_subnodes Bn), Hl. }
  destruct Hlr as (Hl1 & Hl2 & Hl3).
  unfold calculate_center_point. rewrite Ex, Ey, Eside, Eradius, Ets, Ete.
  split; [repeat split; assumption|].
  split; [exact Hps|]. split; [exact Hbs|]. split; [exact Hpe | exact Hbe].
Qed.

(** *** The rejection tests against the chords *)

Lemma in_range_convex (v : @search_values R) (d p p' : Rpoint) (k : R) :
  0 <= k <= 1 ->
  in_range v d p -> in_range v d p' ->
  in_range v d ((1 - k) * fst p + k * fst p', (1 - k) * snd p + k * snd p').
Proof.
  destruct d as [d0 d1], p as [p0 p1], p' as [p0' p1'].
  unfold in_range, v_parallel, v_orthogonal. cbn.
  intros Hk [[H1 H2] [H3 H4]] [[H5 H6] [H7 H8]].
  replace (d0 * ((1 - k) * p0 + k * p0') + d1 * ((1 - k) * p1 + k * p1'))
    with ((1 - k) * (d0 * p0 + d1 * p1) + k * (d0 * p0' + d1 * p1')) by ring.
  replace (- d1 * ((1 - k) * p0 + k * p0') + d0 * ((1 - k) * p1 + k * p1'))
    with ((1 - k) * (- d1 * p0 + d0 * p1) + k * (- d1 * p0' + d0 * p1')) by ring.
  repeat split; nra.
Qed.

Lemma boxes_apart_false_real (own other : @search_values R) (d q : Rpoint) :
  in_range own d q -> in_range other d q -> boxes_apart own other = false.
Proof.
  unfold in_range, boxes_apart. cbn.
  intros [[H1 H2] [H3 H4]] [[H5 H6] [H7 H8]].
  rewrite !R_ltb_false by lra. reflexivity.
Qed.

(** A rejection test does not fire on two nodes that have terminal nodes
    below them whose chords share a point. *)
Lemma chords_meet_not_apart_real
    (x1 y1 : list R) (side1 radius1 eps1 ts1 te1 : R) (ps1 pe1 : Rpoint)
    (x2 y2 : list R) (side2 radius2 eps2 ts2 te2 : R) (ps2 pe2 : Rpoint)
    (s1 s2 : Rsegment) :
  built x1 y1 side1 radius1 eps1 ts1 te1 ps1 pe1 s1 ->
  built x2 y2 side2 radius2 eps2 ts2 te2 ps2 pe2 s2 ->
  forall n1 n2 l1 l2 q,
    In n1 (subnodes s1) -> In n2 (subnodes s2) ->
    In l1 (leaves n1) -> In l2 (leaves n2) ->
    on_chord l1 q -> on_chord l2 q ->
    forall v, convexHullSearchValues n2 (_searchDir n1) = Ok v ->
      boxes_apart (_searchValues n1) v = false.
Proof.
  intros B1 B2 n1 n2 l1 l2 q Hn1 Hn2 Hl1 Hl2 (k1 & Hk1 & Hq1) (k2 & Hk2 & Hq2) v Hv.
  destruct (subnodes_built B1 n1 Hn1) as (ta & tb & pa & pb & Bn1).
  destruct (subnodes_built B2 n2 Hn2) as (tc & td & pc & pd & Bn2).
  destruct (built_box_invariant Bn1) as (_ & Hbox & _).
  destruct (built_box_invariant Bn2) as (_ & _ & Hhull).
  destruct (Hbox l1 Hl1) as [Ha Hb].
  destruct (Hhull _ _ Hv l2 Hl2) as [Hc Hd].
  apply boxes_apart_false_real with (d := _searchDir n1) (q := q).
  - rewrite Hq1. apply in_range_convex; assumption.
  - rewrite Hq2. apply in_range_convex; assumption.
Qed.

End RealFacts.

(** *** A run in exact arithmetic

    The offset curve of the segment with control points (0,0), (1,0),
    (2,0), (3,0), at distance 1 on the left: the line y = 1. *)

Section RealRun.
Local Open Scope R_scope.

Lemma R_sqrt_square (a v : R) : 0 <= v -> a = v * v -> R_sqrt a = Ok v.
Proof.
  intros Hv ->. rewrite R_sqrt_Ok by nra. now rewrite sqrt_square.
Qed.

Ltac decide_real :=
  repeat match goal with
         | |- context [R_ltb ?a ?b] =>
             first [ rewrite (@R_ltb_true a b) by lra
                   | rewrite (@R_ltb_false a b) by lra ]
         end.

Lemma line_point (t : R) :
  calculate_center_point_of line_x line_y 1 1 t = Ok (3 * t, 1).
Proof.
  unfold calculate_center_point_of, line_x, line_y. cbn.
  change (Pos.to_nat 1) with 1%nat. cbn.
  rewrite (@R_sqrt_square _ 1) by (try lra; ring). cbn.
  rewrite !R_div_Ok by lra. cbn.
  f_equal. f_equal; field.
Qed.

Lemma line_prelude (ts te : R) :
  ts < te ->
  node_prelude line_x line_y 1 1 ts te (3 * ts, 1) (3 * te, 1)
  = Ok ((1, 0), (ts + te) / 2, (3 * ((ts + te) / 2), 1),
        ((3 * ts + 3 * te) / 2, 1)).
Proof.
  intros Hlt. unfold node_prelude. cbn -[calculate_center_point_of].
  rewrite (@R_sqrt_square _ (3 * te - 3 * ts)) by (try lra; ring).
  cbn -[calculate_center_point_of].
  rewrite !R_div_Ok by lra. cbn -[calculate_center_point_of].
  rewrite line_point. cbn.
  f_equal. f_equal; [f_equal; f_equal; f_equal; field; lra | f_equal; field].
Qed.

Lemma line_criterion (ts te : R) :
  subdivision_criterion (1 / 1000) ts te
    ((3 * ts + 3 * te) / 2, 1) (3 * ((ts + te) / 2), 1)
  = Ok (R_ltb (26 / 100) (te - ts)).
Proof.
  unfold subdivision_criterion. cbn.
  destruct (R_ltb (26 / 100) (te - ts)); [reflexivity|].
  unfold R_pow2. cbn. decide_real. reflexivity.
Qed.

Lemma line_chord_values (ts te : R) :
  ts < te ->
  convexHullSearchValues_of [(3 * ts, 1); (3 * te, 1)] (1, 0)
  = Ok (1 * (3 * ts) + 0 * 1, 1 * (3 * te) + 0 * 1,
        - 0 * (3 * ts) + 1 * 1, - 0 * (3 * ts) + 1 * 1).
Proof.
  intros Hlt. unfold convexHullSearchValues_of. cbn.
  unfold py_min2, py_max2. cbn. decide_real. reflexivity.
Qed.

Lemma line_leaf_init (fuel : nat) (ts te : R) :
  ts < te -> te - ts <= 26 / 100 ->
  CenterCurveSegment_init (S fuel) line_x line_y 1 1 (1 / 1000) ts te
    (Some (3 * ts, 1)) (Some (3 * te, 1)) = Ok (line_leaf ts te).
Proof.
  intros Hlt Hshort. rewrite init_unfold.
  change (negb (len line_x =? len line_y)%Z) with false. cbv iota.
  change (len line_x <? 2)%Z with false. cbv iota.
  cbn [end_point bind].
  rewrite line_prelude by exact Hlt. cbn [bind].
  rewrite line_criterion. rewrite R_ltb_false by exact Hshort. cbn [bind].
  rewrite line_chord_values by exact Hlt. reflexivity.
Qed.

(** The tree of the line for the range from 0 to 1/2: a root with two
    terminal children. *)
Lemma line_tree_init :
  exists s,
    CenterCurveSegment_init 2 line_x line_y 1 1 (1 / 1000) 0 (1 / 2) None None
    = Ok s
    /\ _segments s = Some [line_leaf 0 ((0 + 1 / 2) / 2);
                           line_leaf ((0 + 1 / 2) / 2) (1 / 2)].
Proof.
  eexists. split.
  - rewrite init_unfold.
    change (negb (len line_x =? len line_y)%Z) with false. cbv iota.
    change (len line_x <? 2)%Z with false. cbv iota.
    unfold end_point. rewrite !line_point. cbn [bind].
    rewrite line_prelude by lra. cbn [bind].
    rewrite line_criterion. rewrite R_ltb_true by lra. cbn [bind].
    rewrite !line_leaf_init by lra. cbn [bind].
    unfold convexHullSearchValues, line_leaf at 1.
    cbn [_hullPoints].
    rewrite line_chord_values by lra. cbn [bind].
    cbn [union_search_values].
    unfold convexHullSearchValues, line_leaf at 1.
    cbn [_hullPoints].
    rewrite line_chord_values by lra. cbn [bind].
    reflexivity.
  - reflexivity.
Qed.

End RealRun.

(** ** The claims settled by proof *)

Section Claims.
Import Run.

(** C8.  In every node of every tree [__init__] returns, the node is
    terminal exactly when the subdivision test, recomputed from the fields
    of the node ((t_end - t_start) > 0.26 or squared deviation of the
    middle > eps**2), is false; this holds for any arithmetic, binary64
    included.  In exact arithmetic a terminal node therefore has its true
    middle within eps of the middle of its chord, or a range of at most
    0.26 (in fact both). *)
Theorem terminal_exactly_when_criterion_false :
  (forall (F : Type) (AF : Arith F) (fuel : nat) (x y : list F)
          (side radius eps ts te : F) (pso peo : option point)
          (s : CenterCurveSegment),
      CenterCurveSegment_init fuel x y side radius eps ts te pso peo = Ok s ->
      forall n, In n (subnodes s) ->
        exists b, node_criterion n = Ok b /\ is_terminal n = negb b)
  /\
  (forall (fuel : nat) (x y : list R) (side radius eps ts te : R)
          (pso peo : option Rpoint) (s : Rsegment),
      (0 <= eps)%R ->
      CenterCurveSegment_init fuel x y side radius eps ts te pso peo = Ok s ->
      forall n, In n (subnodes s) -> is_terminal n = true ->
        exists est p_mid,
          node_midpoints n = Ok (est, p_mid)
          /\ ((distance est p_mid <= eps)%R
              \/ (_t_end n - _t_start n <= 26 / 100)%R)).
Proof.
  split.
  - intros F AF fuel x y side radius eps ts te pso peo s Hinit n Hin.
    apply init_built in Hinit. destruct Hinit as (ps & pe & _ & _ & B).
    destruct (built_node_criterion B n Hin) as (b & Hb & Ht & _).
    exists b. split; assumption.
  - intros fuel x y side radius eps ts te pso peo s Heps Hinit n Hin Hterm.
    apply init_built in Hinit. destruct Hinit as (ps & pe & _ & _ & B).
    destruct (terminal_bounds_real Heps B n Hin Hterm)
      as (est & p_mid & Hm & Hrange & Hdev).
    exists est, p_mid. split; [exact Hm | left; exact Hdev].
Qed.

(** The tree of the incoming segment of the right-angle corner in binary64,
    and the tree of the line in exact arithmetic. *)
Lemma terminal_exactly_when_criterion_false_witness :
  (exists s : @CenterCurveSegment float,
      CenterCurveSegment_init fuel [-30; -20; -10; 0]%float [0; 0; 0; 0]%float
        1%float 2%float 0.001%float 0%float 1%float None None = Ok s
      /\ forall n, In n (subnodes s) ->
           exists b, node_criterion n = Ok b /\ is_terminal n = negb b)
  /\
  (exists s : Rsegment,
      CenterCurveSegment_init 2 line_x line_y 1%R 1%R (1 / 1000)%R 0%R (1 / 2)%R
        None None = Ok s
      /\ forall n, In n (subnodes s) -> is_terminal n = true ->
           exists est p_mid,
             node_midpoints n = Ok (est, p_mid)
             /\ ((distance est p_mid <= 1 / 1000)%R
                 \/ (_t_end n - _t_start n <= 26 / 100)%R)).
Proof.
  split.
  - destruct (CenterCurveSegment_init fuel [-30; -20; -10; 0]%float
                [0; 0; 0; 0]%float 1%float 2%float 0.001%float 0%float 1%float
                None None) as [s | e | ] eqn:E.
    + exists s. split; [reflexivity|].
      exact (proj1 terminal_exactly_when_criterion_false _ _ _ _ _ _ _ _ _ _ _ _ _ E).
    + vm_compute in E. discriminate E.
    + vm_compute in E. discriminate E.
  - destruct line_tree_init as (s & Hs & _).
    assert (Heps : (0 <= 1 / 1000)%R) by lra.
    exists s. split; [exact Hs|].
    exact (proj2 terminal_exactly_when_criterion_false _ _ _ _ _ _ _ _ _ _ _
                 Heps Hs).
Defined.

(** C9.  When [subpath_round_corner] fits a corner, with [P] and [N] the
    points at which the two segments are split and [C] the centre, the two
    nodes it puts in place of the vertex are [[p2, P, c1]] and
    [[c2, N, n1]], next to each other, where [(c1, c2)] is what
    [arc_bezier_handles] returns for [P], [N], [C]: the arc segment has the
    control points [P], [c1], [c2], [N], so it starts at [P] and ends at
    [N] exactly, in any arithmetic.  In exact arithmetic the two handles
    are P + k2*rot90(P - C) and N - k2*rot90(N - C), with
    k2 = (4/3)*(sqrt(2*q1*q2) - q2)/(a x b), a = P - C, b = N - C,
    q1 = a.a, q2 = q1 + a.b. *)
Theorem arc_segment_ends_and_handles :
  (forall (F : Type) (AF : Arith F) (fuel : nat) (self self' : RoundedCorners)
          (sp sp' : list Node) (node_idx : Z) (c : Corner) (t : F * F),
      corner_search fuel self sp node_idx = Ok (self', Some c) ->
      c_t c = Some t ->
      subpath_round_corner fuel self sp node_idx = Ok (self', sp') ->
      let '((_, _, p2, P), _) :=
        split_bezier_curve (nd1 (c_prev_node c)) (nd2 (c_prev_node c))
                           (nd0 (c_node c)) (nd1 (c_node c)) (fst t) in
      let '(_, (N, n1, _, _)) :=
        split_bezier_curve (nd1 (c_node c)) (nd2 (c_node c))
                           (nd0 (c_next_node c)) (nd1 (c_next_node c)) (snd t) in
      exists C c1 c2 before after,
        calculate_center_point (c_s1 c) (fst t) = Ok C
        /\ arc_bezier_handles P N C = Ok (c1, c2)
        /\ sp' = before ++ [mkNode p2 P c1; mkNode c2 N n1] ++ after)
  /\
  (forall P N C h1 h2 : Rpoint,
      arc_bezier_handles P N C = Ok (h1, h2) ->
      h1 = vadd P (vscale (k2_of P N C) (rot90 (vsub P C)))
      /\ h2 = vsub N (vscale (k2_of P N C) (rot90 (vsub N C)))).
Proof.
  split.
  - intros F AF fuel self self' sp sp' node_idx c t Hsearch Ht Hround.
    apply subpath_round_corner_cases in Hround.
    destruct Hround as (found & Hsearch' & Hfit).
    rewrite Hsearch in Hsearch'. injection Hsearch' as <-.
    rewrite Ht in Hfit.
    exact (fit_corner_emits _ _ _ _ _ _ _ _ _ Hfit).
  - intros P N C h1 h2 H. exact (arc_bezier_handles_real _ _ _ H).
Qed.

(** The right-angle corner with radius 2 in binary64, and the quarter
    circle from (1,0) to (0,1) around the origin in exact arithmetic. *)
Lemma arc_segment_ends_and_handles_witness :
  (exists (self' : @RoundedCorners float) (c : Corner) (t : float * float)
          (sp' : list Node),
      corner_search fuel (effect_prologue 2%float 1) corner_sp 1
      = Ok (self', Some c)
      /\ c_t c = Some t
      /\ subpath_round_corner fuel (effect_prologue 2%float 1) corner_sp 1
         = Ok (self', sp')
      /\ let '((_, _, p2, P), _) :=
           split_bezier_curve (nd1 (c_prev_node c)) (nd2 (c_prev_node c))
                              (nd0 (c_node c)) (nd1 (c_node c)) (fst t) in
         let '(_, (N, n1, _, _)) :=
           split_bezier_curve (nd1 (c_node c)) (nd2 (c_node c))
                              (nd0 (c_next_node c)) (nd1 (c_next_node c)) (snd t) in
         exists C c1 c2 before after,
           calculate_center_point (c_s1 c) (fst t) = Ok C
           /\ arc_bezier_handles P N C = Ok (c1, c2)
           /\ sp' = before ++ [mkNode p2 P c1; mkNode c2 N n1] ++ after)
  /\
  (exists h1 h2 : Rpoint,
      arc_bezier_handles (1, 0)%R (0, 1)%R (0, 0)%R = Ok (h1, h2)
      /\ h1 = vadd (1, 0)%R
                (vscale (k2_of (1, 0)%R (0, 1)%R (0, 0)%R)
                        (rot90 (vsub (1, 0)%R (0, 0)%R)))
      /\ h2 = vsub (0, 1)%R
                (vscale (k2_of (1, 0)%R (0, 1)%R (0, 0)%R)
                        (rot90 (vsub (0, 1)%R (0, 0)%R)))).
Proof.
  split.
  - destruct (corner_search fuel (effect_prologue 2%float 1) corner_sp 1)
      as [[self' [c|]] | e | ] eqn:Esearch;
      try (vm_compute in Esearch; discriminate Esearch).
    destruct (c_t c) as [t|] eqn:Et.
    + destruct (subpath_round_corner fuel (effect_prologue 2%float 1) corner_sp 1)
        as [[self'' sp'] | e | ] eqn:Eround.
      * assert (self'' = self').
        { unfold subpath_round_corner in Eround. rewrite Esearch in Eround.
          cbn [bind] in Eround. rewrite Et in Eround.
          apply bind_Ok_inv in Eround. destruct Eround as (sp1 & _ & Eround).
          injection Eround as -> _. reflexivity. }
        subst self''.
        exists self', c, t, sp'.
        split; [reflexivity|]. split; [exact Et|]. split; [reflexivity|].
        exact (proj1 arc_segment_ends_and_handles _ _ _ _ _ _ _ _ _ _
                     Esearch Et Eround).
      * vm_compute in Eround. discriminate Eround.
      * vm_compute in Eround. discriminate Eround.
    + exfalso. pose proof Esearch as E. vm_compute in E.
      injection E as _ E. rewrite <- E in Et. vm_compute in Et. discriminate Et.
  - destruct (arc_bezier_handles (1, 0)%R (0, 1)%R (0, 0)%R)
      as [[h1 h2] | e | ] eqn:E.
    + exists h1, h2. split; [reflexivity|].
      exact (proj2 arc_segment_ends_and_handles _ _ _ _ _ E).
    + exfalso. revert E. unfold arc_bezier_handles. cbn.
      rewrite R_sqrt_Ok by lra. cbn. rewrite R_div_Ok by lra. discriminate.
    + exfalso. revert E. unfold arc_bezier_handles. cbn.
      rewrite R_sqrt_Ok by lra. cbn. rewrite R_div_Ok by lra. discriminate.
Defined.

(** C2, amended.  In exact arithmetic, in every node of a tree
    [__init__] returns for a range [ts, te], and for every terminal node
    below that node: the range of the terminal node lies in the range of
    the node, its two end points are the offset points of the curve at the
    two ends of its range, and both lie in the box of the node.
    Consequently neither rejection test of
    [intersectCenterCurveSegments] fires on two nodes that have terminal
    nodes below them whose chords share a point.  (The offset points
    strictly inside the range of a terminal node are not covered: the box
    of a terminal node is its chord.) *)
Theorem boxes_contain_the_chords :
  (forall (fuel : nat) (x y : list R) (side radius eps ts te : R) (s : Rsegment),
      (ts <= te)%R ->
      CenterCurveSegment_init fuel x y side radius eps ts te None None = Ok s ->
      forall n, In n (subnodes s) -> forall l, In l (leaves n) ->
        (_t_start n <= _t_start l /\ _t_start l <= _t_end l
         /\ _t_end l <= _t_end n)%R
        /\ calculate_center_point n (_t_start l) = Ok (_p_start l)
        /\ inside_box n (_p_start l)
        /\ calculate_center_point n (_t_end l) = Ok (_p_end l)
        /\ inside_box n (_p_end l))
  /\
  (forall (fuel1 fuel2 : nat) (x1 y1 x2 y2 : list R)
          (side1 radius1 eps1 ts1 te1 side2 radius2 eps2 ts2 te2 : R)
          (pso1 peo1 pso2 peo2 : option Rpoint) (s1 s2 : Rsegment),
      CenterCurveSegment_init fuel1 x1 y1 side1 radius1 eps1 ts1 te1 pso1 peo1
      = Ok s1 ->
      CenterCurveSegment_init fuel2 x2 y2 side2 radius2 eps2 ts2 te2 pso2 peo2
      = Ok s2 ->
      forall n1 n2 l1 l2 q,
        In n1 (subnodes s1) -> In n2 (subnodes s2) ->
        In l1 (leaves n1) -> In l2 (leaves n2) ->
        on_chord l1 q -> on_chord l2 q ->
        forall v, convexHullSearchValues n2 (_searchDir n1) = Ok v ->
          boxes_apart (_searchValues n1) v = false).
Proof.
  split.
  - intros fuel x y side radius eps ts te s Hle Hinit n Hn l Hl.
    apply init_built in Hinit. destruct Hinit as (ps & pe & Hps & Hpe & B).
    cbn [end_point] in Hps, Hpe.
    exact (built_boxes_real B Hle Hps Hpe n Hn l Hl).
  - intros fuel1 fuel2 x1 y1 x2 y2 side1 radius1 eps1 ts1 te1
           side2 radius2 eps2 ts2 te2 pso1 peo1 pso2 peo2 s1 s2 H1 H2.
    apply init_built in H1. destruct H1 as (ps1 & pe1 & _ & _ & B1).
    apply init_built in H2. destruct H2 as (ps2 & pe2 & _ & _ & B2).
    intros n1 n2 l1 l2 q. eapply chords_meet_not_apart_real; eassumption.
Qed.

(** The tree of the line for the range from 0 to 1/2, against itself: the
    point (0,1) is on the chord of its first terminal node. *)
Lemma boxes_contain_the_chords_witness :
  exists s : Rsegment,
    CenterCurveSegment_init 2 line_x line_y 1%R 1%R (1 / 1000)%R 0%R (1 / 2)%R
      None None = Ok s
    /\ (forall n, In n (subnodes s) -> forall l, In l (leaves n) ->
          (_t_start n <= _t_start l /\ _t_start l <= _t_end l
           /\ _t_end l <= _t_end n)%R
          /\ calculate_center_point n (_t_start l) = Ok (_p_start l)
          /\ inside_box n (_p_start l)
          /\ calculate_center_point n (_t_end l) = Ok (_p_end l)
          /\ inside_box n (_p_end l))
    /\ In s (subnodes s)
    /\ In (line_leaf 0 ((0 + 1 / 2) / 2)) (leaves s)
    /\ on_chord (line_leaf 0 ((0 + 1 / 2) / 2)) (0, 1)%R
    /\ exists v, convexHullSearchValues s (_searchDir s) = Ok v
                 /\ boxes_apart (_searchValues s) v = false.
Proof.
  destruct line_tree_init as (s & Hs & Hsegs).
  assert (Hle : (0 <= 1 / 2)%R) by lra.
  assert (Hroot : In s (subnodes s)) by apply subnodes_root.
  assert (Hleaf : In (line_leaf 0 ((0 + 1 / 2) / 2)) (leaves s)).
  { destruct s; cbn in Hsegs; subst; cbn. left; reflexivity. }
  assert (Hq : on_chord (line_leaf 0 ((0 + 1 / 2) / 2)) (0, 1)%R).
  { exists 0%R. split; [lra|]. cbn. f_equal; ring. }
  destruct (convexHullSearchValues_total s (_searchDir s)) as (v & Hv).
  { destruct (init_built _ _ _ _ _ _ _ _ _ _ Hs) as (ps & pe & _ & _ & B).
    exact (built_hull_nonempty B). }
  exists s. split; [exact Hs|].
  split; [exact (proj1 boxes_contain_the_chords _ _ _ _ _ _ _ _ _ Hle Hs)|].
  split; [exact Hroot|]. split; [exact Hleaf|]. split; [exact Hq|].
  exists v. split; [exact Hv|].
  exact (proj2 boxes_contain_the_chords _ _ _ _ _ _ _ _ _ _ _ _ _ _ _ _ _ _ _ _
               _ _ Hs Hs s s _ _ _ Hroot Hroot Hleaf Hleaf Hq Hq v Hv).
Defined.

End Claims.

(** ** Runs of the binary64 instance *)

Section Runs.
Import Run.
Local Open Scope float_scope.

(** C1 (the leaf case on a zero determinant).  The claim asks for "no
    intersection" and a search that goes on; the code raises.  On three
    collinear nodes every pair of chords is parallel: the first leaf pair
    whose boxes touch has determinant 0 and
    [intersectCenterCurveSegments] raises
    [Exception("det = 0 case not implemented yet")], which leaves
    [subpath_round_corner] unhandled. *)
Theorem collinear_corner_raises_on_zero_determinant :
  subpath_round_corner fuel (effect_prologue 0.5 1) line_sp 1
  = Raise (Exception "det = 0 case not implemented yet").
Proof. vm_compute. reflexivity. Qed.

(** C3 (the trim budget).  With one node selected [max_trim_factor] is
    0.98.  On the right-angle corner with radius 2.96875 the search
    returns a parameter above 0.98 on the outgoing segment (2.96875 of its
    length 3 is cut away), and the corner is fitted all the same: the
    subpath comes back with four nodes and [skipped_small_count] is still
    0. *)
Theorem trim_beyond_max_trim_factor_is_fitted :
  let self := effect_prologue 2.96875 1 in
  max_trim_factor self = 0.98
  /\ match corner_search fuel self corner_sp 1 with
     | Ok (_, Some c) =>
         match c_t c with
         | Some (t0, t1) => PrimFloat.ltb (max_trim_factor self) t1
         | None => false
         end
     | _ => false
     end = true
  /\ match subpath_round_corner fuel self corner_sp 1 with
     | Ok (self', sp') =>
         (len sp' =? 4)%Z && (skipped_small_count self' =? 0)%Z
     | _ => false
     end = true.
Proof. repeat split; vm_compute; reflexivity. Qed.

(** C4 (straight-through corners).  Node 1 of [smooth_sp] has opposite
    handles (-1,0) and (1,0).  [super_node] accepts it without counting
    it, and the rounding ends in [ZeroDivisionError]: the search returns
    the parameters (1, 0), both trim points are the vertex and
    [arc_bezier_handles] divides by a zero cross product.  On [arch_sp],
    also smooth, the subpath comes back unchanged but
    [skipped_degenerated] is still 0. *)
Theorem straight_through_corner_is_not_a_counted_skip :
  let self := effect_prologue 0.5 1 in
  match super_node self smooth_sp 1 with
  | Ok (self', Some (sn, _)) =>
      (skipped_degenerated self' =? 0)%Z
      && PrimFloat.eqb (fst (s_handle (sn_prev sn))) (-1)
      && PrimFloat.eqb (snd (s_handle (sn_prev sn))) 0
      && PrimFloat.eqb (fst (s_handle (sn_next sn))) 1
      && PrimFloat.eqb (snd (s_handle (sn_next sn))) 0
  | _ => false
  end = true
  /\ match corner_search fuel self smooth_sp 1 with
     | Ok (_, Some c) =>
         match c_t c with
         | Some (t0, t1) => PrimFloat.eqb t0 1 && PrimFloat.eqb t1 0
         | None => false
         end
     | _ => false
     end = true
  /\ subpath_round_corner fuel self smooth_sp 1 = Raise ZeroDivisionError
  /\ subpath_round_corner fuel self arch_sp 1 = Ok (self, arch_sp)
  /\ skipped_degenerated self = 0%Z.
Proof. repeat split; vm_compute; reflexivity. Qed.

(** C5 (no intersection).  With radius 5 the right-angle corner has no
    intersection (the outgoing segment has length 3).  The subpath comes
    back unchanged, and so does the object: [skipped_small_count] is not
    incremented and [skipped_small_len] is not recorded. *)
Theorem no_intersection_is_not_recorded :
  let self := effect_prologue 5 1 in
  match corner_search fuel self corner_sp 1 with
  | Ok (_, Some c) => match c_t c with None => true | Some _ => false end
  | _ => false
  end = true
  /\ subpath_round_corner fuel self corner_sp 1 = Ok (self, corner_sp)
  /\ skipped_small_count self = 0%Z
  /\ skipped_small_len self = 1e99.
Proof. repeat split; vm_compute; reflexivity. Qed.

(** C6 (coincident control points).  The incoming segment of [dead_sp]
    has its four control points at (0,0): the tangent norm is 0 and the
    division in [calculate_center_point] raises [ZeroDivisionError],
    which leaves [subpath_round_corner] unhandled. *)
Theorem coincident_control_points_raise_zero_division :
  calculate_center_point_of [0; 0; 0; 0] [0; 0; 0; 0] 1 0.5 0
  = Raise ZeroDivisionError
  /\ subpath_round_corner fuel (effect_prologue 0.5 1) dead_sp 1
     = Raise ZeroDivisionError.
Proof. split; vm_compute; reflexivity. Qed.

(** C7 (the trees after a search).  On [wavy_sp] with radius 0.5 the
    children of the root of the first tree start at 0 and 0.5 when it is
    built and are stored in the other order after one search; a second
    search over the same two trees returns other parameters than the
    first, and a third returns those of the first again. *)
Theorem repeated_search_returns_other_parameters :
  match trees_at_1 (effect_prologue 0.5 1) wavy_sp with
  | Ok (s1, s2) =>
      let '(s1', r1) := intersectCenterCurveSegments fuel s1 s2 in
      let '(s1'', r2) := intersectCenterCurveSegments fuel s1' s2 in
      let '(_, r3) := intersectCenterCurveSegments fuel s1'' s2 in
      (option_map (map (@_t_start float)) (_segments s1),
       option_map (map (@_t_start float)) (_segments s1'),
       r1, r2, r3)
  | _ => (None, None, OutOfFuel, OutOfFuel, OutOfFuel)
  end
  = (Some [0; 0.5], Some [0.5; 0],
     Ok (Some (0.9520877039457073, 0.20975229000490306)),
     Ok (Some (0.41674785216560145, 0.49862254268736683)),
     Ok (Some (0.9520877039457073, 0.20975229000490306))).
Proof. vm_compute. reflexivity. Qed.

(** C10, as stated, fails: with radius 0 the right-angle corner is not
    returned unchanged, the rounding ends in [ZeroDivisionError] (the
    search finds the vertex itself, and the arc handles divide by a zero
    cross product). *)
Lemma radius_zero_corner_raises :
  radius (effect_prologue 0 1) = 0
  /\ subpath_round_corner fuel (effect_prologue 0 1) corner_sp 1
     = Raise ZeroDivisionError.
Proof. split; vm_compute; reflexivity. Qed.

(** With radius 0 the smooth node of [smooth_sp] comes back as it was: in
    binary64 the search over its two trees returns [None]. *)
Lemma radius_zero_smooth_node_comes_back :
  subpath_round_corner fuel (effect_prologue 0 1) smooth_sp 1
  = Ok (effect_prologue 0 1, smooth_sp)
  /\ match corner_search fuel (effect_prologue 0 1) smooth_sp 1 with
     | Ok (_, Some c) => match c_t c with None => true | Some _ => false end
     | _ => false
     end = true.
Proof. split; vm_compute; reflexivity. Qed.

(** C2, as stated, fails.  The first terminal node of the tree of the
    incoming segment of [smooth_sp] covers [0, 0.015625]; the offset point
    at the parameter in the middle of that range has an orthogonal
    coordinate above the box of the node, by more than 0.0005 (the box of a
    terminal node is the chord between its two end points).  And on
    [arch_sp] the two offset curves share the point (4, 4.5), at the
    parameters 1 and 0, yet every branch of the search over the two trees
    ends in a rejection: it returns [None]. *)
Lemma terminal_box_misses_offset_point :
  match trees_at_1 (effect_prologue 0.5 1) smooth_sp with
  | Ok (s1, _) =>
      match leaves s1 with
      | l :: _ =>
          match calculate_center_point l 0.0078125 with
          | Ok p =>
              is_terminal l
              && PrimFloat.eqb (_t_start l) 0
              && PrimFloat.eqb (_t_end l) 0.015625
              && outside_box l p
              && PrimFloat.ltb (PrimFloat.add (sv3 (_searchValues l)) 0.0005)
                               (v_orthogonal (_searchDir l) p)
          | _ => false
          end
      | [] => false
      end
  | _ => false
  end = true
  /\ match trees_at_1 (effect_prologue 0.5 1) arch_sp with
     | Ok (s1, s2) =>
         (calculate_center_point s1 1, calculate_center_point s2 0,
          snd (intersectCenterCurveSegments fuel s1 s2))
     | _ => (OutOfFuel, OutOfFuel, OutOfFuel)
     end = (Ok (4, 4.5), Ok (4, 4.5), Ok None).
Proof. split; vm_compute; reflexivity. Qed.
End Runs.

(** ** Further properties of the trees and of the search, for any arithmetic *)

Section TreeFacts.
Context {F : Type} {AF : Arith F}.

Lemma leaves_unfold (s : @CenterCurveSegment F) :
  leaves s = match _segments s with
             | None => [s]
             | Some l => flat_map leaves l
             end.
Proof. destruct s; reflexivity. Qed.

Lemma subnodes_unfold (s : @CenterCurveSegment F) :
  subnodes s = s :: match _segments s with
                    | None => []
                    | Some l => flat_map subnodes l
                    end.
Proof. destruct s; reflexivity. Qed.

Lemma subnodes_child (s c a : @CenterCurveSegment F) (l : list CenterCurveSegment) :
  _segments s = Some l -> In c l -> In a (subnodes c) -> In a (subnodes s).
Proof.
  intros E Hc Ha. rewrite (subnodes_unfold s), E. right.
  apply in_flat_map. exists c. split; assumption.
Qed.

Lemma chained_app (a b c : F) (pa pb pc : point)
    (l1 l2 : list (@CenterCurveSegment F)) :
  chained a pa b pb l1 -> chained b pb c pc l2 -> chained a pa c pc (l1 ++ l2).
Proof.
  revert a pa. induction l1 as [|s r IH]; intros a pa H1 H2; cbn in *.
  - destruct H1 as [-> ->]. exact H2.
  - destruct H1 as (E1 & E2 & H1). repeat split; try assumption.
    apply IH; assumption.
Qed.

Lemma built_chained (x y : list F) (side radius eps ts te : F)
    (ps pe : point) (s : CenterCurveSegment) :
  built x y side radius eps ts te ps pe s -> chained ts ps te pe (leaves s).
Proof.
  induction 1 as [ts te ps pe d t_mid p_mid est v Hl Hl2 Hpre Hsub Hv
                 |ts te ps pe d t_mid p_mid est c1 c2 first v Hl Hl2 Hpre Hsub
                    B1 IH1 B2 IH2 Hfirst Hv];
    cbn [leaves _segments flat_map].
  - cbn. auto.
  - rewrite app_nil_r. eapply chained_app; eassumption.
Qed.

Lemma built_count (x y : list F) (side radius eps ts te : F)
    (ps pe : point) (s : CenterCurveSegment) :
  built x y side radius eps ts te ps pe s ->
  _terminalSegments s = len (leaves s) /\ (1 <= _terminalSegments s)%Z.
Proof.
  induction 1 as [ts te ps pe d t_mid p_mid est v Hl Hl2 Hpre Hsub Hv
                 |ts te ps pe d t_mid p_mid est c1 c2 first v Hl Hl2 Hpre Hsub
                    B1 IH1 B2 IH2 Hfirst Hv];
    cbn [leaves _segments flat_map _terminalSegments map fold_left].
  - cbn. split; lia.
  - destruct IH1 as [E1 G1], IH2 as [E2 G2].
    rewrite app_nil_r. unfold len in *. rewrite length_app. split; lia.
Qed.

(** *** The search changes the order of children, nothing else *)

Lemma set_segments_same (s : @CenterCurveSegment F) (l : list CenterCurveSegment) :
  _segments s = Some l -> set_segments s (Some l) = s.
Proof. destruct s; cbn. intros ->. reflexivity. Qed.

Lemma reordered_refl (s : @CenterCurveSegment F) : reordered s s.
Proof.
  unfold reordered. destruct (_segments s) as [l|] eqn:E; [|reflexivity].
  exists l. split; [symmetry; apply set_segments_same; exact E | reflexivity].
Qed.

Lemma reordered_trans (a b c : @CenterCurveSegment F) :
  reordered a b -> reordered b c -> reordered a c.
Proof.
  unfold reordered. destruct (_segments a) as [l|] eqn:E.
  - intros (l' & -> & P1). cbn [_segments set_segments].
    intros (l'' & -> & P2). exists l''. split; [reflexivity|].
    etransitivity; eassumption.
  - intros ->. rewrite E. intros ->. reflexivity.
Qed.

Lemma reordered_leaves (s s' : @CenterCurveSegment F) :
  reordered s s' -> Permutation (leaves s) (leaves s').
Proof.
  unfold reordered. rewrite (leaves_unfold s).
  destruct (_segments s) as [l|] eqn:E.
  - intros (l' & -> & P). exact P.
  - intros ->. rewrite leaves_unfold, E. reflexivity.
Qed.

Lemma reordered_geometry (s s' : @CenterCurveSegment F) :
  reordered s s' -> same_geometry s s'.
Proof.
  unfold reordered, same_geometry. destruct (_segments s) as [l|].
  - intros (l' & -> & _). cbn. repeat split; reflexivity.
  - intros ->. repeat split; reflexivity.
Qed.

Lemma reordered_all_leaves (l l' : list (@CenterCurveSegment F)) :
  Forall2 reordered l l' ->
  Permutation (flat_map leaves l) (flat_map leaves l').
Proof.
  induction 1 as [|a a' l l' Ha _ IH]; cbn [flat_map]; [reflexivity|].
  apply Permutation_app; [apply reordered_leaves; exact Ha | exact IH].
Qed.

Section LoopsReorder.
Variable recur : @CenterCurveSegment F -> @CenterCurveSegment F ->
                 @CenterCurveSegment F * Res (option (F * F)).
Hypothesis recur_reordered : forall a b, reordered a (fst (recur a b)).

Lemma inner_loop_reordered (l2 : list CenterCurveSegment) :
  forall s1, reordered s1 (fst (inner_loop recur s1 l2)).
Proof.
  induction l2 as [|s2 r IH]; intros s1; cbn [inner_loop].
  - apply reordered_refl.
  - pose proof (recur_reordered s1 s2) as H.
    destruct (recur s1 s2) as [s1' ret]. cbn [fst] in H.
    destruct ret as [[t|]| |]; cbn [fst]; try exact H.
    eapply reordered_trans; [exact H | apply IH].
Qed.

Lemma outer_loop_reordered (l2 l1 : list CenterCurveSegment) :
  Forall2 reordered l1 (fst (outer_loop recur l1 l2)).
Proof.
  assert (Hrefl : forall l : list (@CenterCurveSegment F), Forall2 reordered l l).
  { induction l; constructor; [apply reordered_refl | assumption]. }
  induction l1 as [|s1 r IH]; cbn [outer_loop]; [constructor|].
  pose proof (inner_loop_reordered l2 s1) as H.
  destruct (inner_loop recur s1 l2) as [s1' ret]. cbn [fst] in H.
  destruct ret as [[t|]| |]; cbn [fst]; try (constructor; [exact H | apply Hrefl]).
  destruct (outer_loop recur r l2) as [r' ret']. cbn [fst] in IH |- *.
  constructor; assumption.
Qed.
End LoopsReorder.

Lemma intersect_reordered (fuel : nat) :
  forall s1 s2 : @CenterCurveSegment F,
    reordered s1 (fst (intersectCenterCurveSegments fuel s1 s2)).
Proof.
  induction fuel as [|fuel IH]; intros s1 s2;
    cbn [intersectCenterCurveSegments].
  - apply reordered_refl.
  - destruct (convexHullSearchValues s2 _) as [v| |]; try apply reordered_refl.
    destruct (boxes_apart _ v); [apply reordered_refl|].
    destruct (convexHullSearchValues s1 _) as [v'| |]; try apply reordered_refl.
    destruct (boxes_apart _ v'); [apply reordered_refl|].
    destruct (_ && _); [apply reordered_refl|].
    destruct (1 <? _terminalSegments s1)%Z.
    + destruct (_segments s1) as [l1|] eqn:E1; [|apply reordered_refl].
      assert (Hrev : Permutation (flat_map leaves l1) (flat_map leaves (rev l1)))
        by (apply Permutation_flat_map, Permutation_rev).
      destruct (if (1 <? _terminalSegments s2)%Z then _ else _) as [l2|].
      * pose proof (outer_loop_reordered _ IH l2 (rev l1)) as Ho.
        destruct (outer_loop _ (rev l1) l2) as [l1' ret]. cbn [fst] in Ho |- *.
        unfold reordered. rewrite E1. exists l1'. split; [reflexivity|].
        etransitivity; [exact Hrev | apply reordered_all_leaves; exact Ho].
      * cbn [fst]. unfold reordered. rewrite E1. exists (rev l1).
        split; [reflexivity | exact Hrev].
    + destruct (if (1 <? _terminalSegments s2)%Z then _ else _) as [l2|];
        [apply inner_loop_reordered; exact IH | apply reordered_refl].
Qed.

(** *** What the search returns comes from two terminal nodes *)

Section LoopsHit.
Variable recur : @CenterCurveSegment F -> @CenterCurveSegment F ->
                 @CenterCurveSegment F * Res (option (F * F)).
Hypothesis recur_hit : forall a b a' t,
  recur a b = (a', Ok (Some t)) -> from_leaf_pair a' b t.

Lemma inner_loop_hit (l2 : list CenterCurveSegment) :
  forall s1 s1' t,
    inner_loop recur s1 l2 = (s1', Ok (Some t)) ->
    exists s2, In s2 l2 /\ from_leaf_pair s1' s2 t.
Proof.
  induction l2 as [|s2 r IH]; intros s1 s1' t H; cbn [inner_loop] in H.
  - discriminate H.
  - destruct (recur s1 s2) as [s1a ret] eqn:E.
    destruct ret as [[t'|]| |]; try discriminate H.
    + injection H as <- <-. exists s2. split; [left; reflexivity|].
      eapply recur_hit; exact E.
    + apply IH in H. destruct H as (s2' & Hin & Hp).
      exists s2'. split; [right; exact Hin | exact Hp].
Qed.

Lemma outer_loop_hit (l2 l1 : list CenterCurveSegment) :
  forall l1' t,
    outer_loop recur l1 l2 = (l1', Ok (Some t)) ->
    exists c s2, In c l1' /\ In s2 l2 /\ from_leaf_pair c s2 t.
Proof.
  induction l1 as [|s1 r IH]; intros l1' t H; cbn [outer_loop] in H.
  - discriminate H.
  - destruct (inner_loop recur s1 l2) as [s1' ret] eqn:E.
    destruct ret as [[t'|]| |]; try discriminate H.
    + injection H as <- <-. apply inner_loop_hit in E.
      destruct E as (s2 & Hin & Hp).
      exists s1', s2. split; [left; reflexivity | split; assumption].
    + destruct (outer_loop recur r l2) as [r' ret'] eqn:Er.
      injection H as <- ->.
      destruct (IH _ _ eq_refl) as (c & s2 & Hc & Hin & Hp).
      exists c, s2. split; [right; exact Hc | split; assumption].
Qed.
End LoopsHit.

Lemma from_leaf_pair_below (s1 s2 c d : @CenterCurveSegment F) (t : F * F) :
  (forall a, In a (subnodes c) -> In a (subnodes s1)) ->
  (forall b, In b (subnodes d) -> In b (subnodes s2)) ->
  from_leaf_pair c d t -> from_leaf_pair s1 s2 t.
Proof.
  intros H1 H2 (a & b & Ha & Hb & Hrest).
  exists a, b. split; [apply H1; exact Ha|]. split; [apply H2; exact Hb|].
  exact Hrest.
Qed.

Lemma sub_segments2_below (s2 d : @CenterCurveSegment F)
    (l2 : list CenterCurveSegment) :
  (if (1 <? _terminalSegments s2)%Z then _segments s2 else Some [s2]) = Some l2 ->
  In d l2 -> forall b, In b (subnodes d) -> In b (subnodes s2).
Proof.
  destruct (1 <? _terminalSegments s2)%Z; intros E Hd b Hb.
  - eapply subnodes_child; eassumption.
  - injection E as <-. destruct Hd as [<- | []]. exact Hb.
Qed.

Lemma intersect_hit (fuel : nat) :
  forall (s1 s2 s1' : @CenterCurveSegment F) (t : F * F),
    intersectCenterCurveSegments fuel s1 s2 = (s1', Ok (Some t)) ->
    from_leaf_pair s1' s2 t.
Proof.
  induction fuel as [|fuel IH]; intros s1 s2 s1' t H;
    cbn [intersectCenterCurveSegments] in H.
  - discriminate H.
  - destruct (convexHullSearchValues s2 _) as [v| |]; try discriminate H.
    destruct (boxes_apart _ v); [discriminate H|].
    destruct (convexHullSearchValues s1 _) as [v'| |]; try discriminate H.
    destruct (boxes_apart _ v'); [discriminate H|].
    destruct (_ && _) eqn:Eleaf.
    + injection H as <- H. apply andb_prop in Eleaf. destruct Eleaf as [T1 T2].
      apply Z.eqb_eq in T1, T2.
      exists s1, s2. repeat split; try assumption; apply subnodes_root.
    + destruct (1 <? _terminalSegments s1)%Z.
      * destruct (_segments s1) as [l1|] eqn:E1; [|discriminate H].
        destruct (if (1 <? _terminalSegments s2)%Z then _ else _) as [l2|] eqn:E2.
        -- destruct (outer_loop _ (rev l1) l2) as [l1' ret] eqn:Eo.
           injection H as <- ->.
           apply (outer_loop_hit _ IH) in Eo.
           destruct Eo as (c & d & Hc & Hd & Hp).
           eapply from_leaf_pair_below; [| |exact Hp].
           ++ intros a Ha. eapply subnodes_child; [|exact Hc|exact Ha].
              reflexivity.
           ++ eapply sub_segments2_below; eassumption.
        -- destruct (rev l1); discriminate H.
      * destruct (if (1 <? _terminalSegments s2)%Z then _ else _) as [l2|] eqn:E2;
          [|discriminate H].
        apply (inner_loop_hit _ IH) in H. destruct H as (d & Hd & Hp).
        eapply from_leaf_pair_below; [| |exact Hp].
        -- intros a Ha; exact Ha.
        -- eapply sub_segments2_below; eassumption.
Qed.

End TreeFacts.

(** *** The search comes to an end on the trees [__init__] returns *)

Section SearchEnds.
Context {F : Type} {AF : Arith F}.

(** What the leaf case needs of the arithmetic: a division by a number
    that [!=] tells from 0 returns. *)
Hypothesis fdiv_defined :
  forall a b : F, fne b f0 = true -> exists c, fdiv a b = Ok c.

Lemma well_formed_mono (n : nat) :
  forall (m : nat) (s : @CenterCurveSegment F),
    (n <= m)%nat -> well_formed n s -> well_formed m s.
Proof.
  induction n as [|n IH]; intros m s Hle [Hh H]; destruct m as [|m];
    cbn [well_formed] in *; (split; [exact Hh|]);
    destruct (_segments s) as [l|]; try exact H; try lia.
  destruct H as [Ht Hl]. split; [exact Ht|].
    eapply Forall_impl; [|exact Hl]. intros c. apply IH. lia.
Qed.

Lemma intersect_leaves_finished (a b : @CenterCurveSegment F) :
  finished (intersect_leaves a b).
Proof.
  unfold intersect_leaves.
  destruct (fne _ f0) eqn:E; [|right; reflexivity].
  match goal with
  | |- finished (bind (fdiv ?u ?d) _) =>
      destruct (fdiv_defined u d E) as (t1 & ->)
  end.
  cbn [bind].
  match goal with
  | |- finished (bind (fdiv ?u ?d) _) =>
      destruct (fdiv_defined u d E) as (t2 & ->)
  end.
  cbn [bind]. left. eexists; reflexivity.
Qed.

Lemma finished_None : @finished F (Ok None).
Proof. left. eexists; reflexivity. Qed.

Section LoopsEnd.
Variable recur : @CenterCurveSegment F -> @CenterCurveSegment F ->
                 @CenterCurveSegment F * Res (option (F * F)).
Variables n1 m : nat.
Hypothesis recur_ends : forall a b,
  well_formed n1 a -> well_formed m b ->
  finished (snd (recur a b)) /\ well_formed n1 (fst (recur a b)).

Lemma inner_loop_ends (l2 : list CenterCurveSegment) :
  Forall (well_formed m) l2 ->
  forall s1, well_formed n1 s1 ->
    finished (snd (inner_loop recur s1 l2))
    /\ well_formed n1 (fst (inner_loop recur s1 l2)).
Proof.
  induction 1 as [|s2 r H2 _ IH]; intros s1 H1; cbn [inner_loop].
  - split; [apply finished_None | exact H1].
  - destruct (recur_ends s1 s2 H1 H2) as [Hf Hw].
    destruct (recur s1 s2) as [s1' ret]. cbn [fst snd] in Hf, Hw.
    destruct ret as [[t|]| |]; cbn [fst snd]; try (split; assumption).
    apply IH. exact Hw.
Qed.

Lemma outer_loop_ends (l1 l2 : list CenterCurveSegment) :
  Forall (well_formed n1) l1 -> Forall (well_formed m) l2 ->
  finished (snd (outer_loop recur l1 l2))
  /\ Forall (well_formed n1) (fst (outer_loop recur l1 l2)).
Proof.
  intros H1 H2. induction H1 as [|s1 r Hs1 Hr IH]; cbn [outer_loop].
  - split; [apply finished_None | constructor].
  - destruct (inner_loop_ends H2 s1 Hs1) as [Hf Hw].
    destruct (inner_loop recur s1 l2) as [s1' ret]. cbn [fst snd] in Hf, Hw.
    destruct ret as [[t|]| |]; cbn [fst snd];
      try (split; [exact Hf | constructor; assumption]).
    destruct IH as [Hf' Hw'].
    destruct (outer_loop recur r l2) as [r' ret']. cbn [fst snd] in *.
    split; [exact Hf' | constructor; assumption].
Qed.
End LoopsEnd.

Lemma intersect_ends (fuel : nat) :
  forall (n1 n2 : nat) (s1 s2 : @CenterCurveSegment F),
    well_formed n1 s1 -> well_formed n2 s2 -> (n1 + n2 < fuel)%nat ->
    finished (snd (intersectCenterCurveSegments fuel s1 s2))
    /\ well_formed n1 (fst (intersectCenterCurveSegments fuel s1 s2)).
Proof.
  induction fuel as [|fuel IH]; intros n1 n2 s1 s2 W1 W2 Hfuel; [lia|].
  cbn [intersectCenterCurveSegments].
  assert (H1 : _hullPoints s1 <> []) by (destruct n1; apply W1).
  assert (H2 : _hullPoints s2 <> []) by (destruct n2; apply W2).
  destruct (convexHullSearchValues_total s2 (_searchDir s1) H2) as (v & ->).
  destruct (boxes_apart _ v); [split; [apply finished_None | exact W1]|].
  destruct (convexHullSearchValues_total s1 (_searchDir s2) H1) as (v' & ->).
  destruct (boxes_apart _ v'); [split; [apply finished_None | exact W1]|].
  destruct (_ && _) eqn:Eleaf;
    [split; [apply intersect_leaves_finished | exact W1]|].
  cbn [fst snd].
  assert (Hsub2 : exists m l2,
             (if (1 <? _terminalSegments s2)%Z then _segments s2 else Some [s2])
             = Some l2
             /\ Forall (well_formed m) l2 /\ (m <= n2)%nat
             /\ ((1 <? _terminalSegments s2)%Z = true -> (S m <= n2)%nat)).
  { destruct (1 <? _terminalSegments s2)%Z eqn:T2.
    - destruct n2 as [|n2]; cbn [well_formed] in W2; destruct W2 as [_ W2];
        destruct (_segments s2) as [l2|]; try (apply Z.ltb_lt in T2; lia).
      destruct W2 as [_ W2]. exists n2, l2. repeat split; try assumption; lia.
    - exists n2, [s2]. repeat split; try lia; try discriminate.
      constructor; [exact W2 | constructor]. }
  destruct Hsub2 as (m & l2 & -> & Wl2 & Hm & Hm').
  destruct (1 <? _terminalSegments s1)%Z eqn:T1.
  - destruct n1 as [|n1]; cbn [well_formed] in W1; destruct W1 as [_ W1];
      destruct (_segments s1) as [l1|] eqn:E1; try (apply Z.ltb_lt in T1; lia).
    destruct W1 as [Ht Wl1].
    assert (Hrec : forall a b, well_formed n1 a -> well_formed m b ->
                finished (snd (intersectCenterCurveSegments fuel a b))
                /\ well_formed n1 (fst (intersectCenterCurveSegments fuel a b))).
    { intros a b Wa Wb. eapply IH; [exact Wa | exact Wb | lia]. }
    assert (Wrev : Forall (well_formed n1) (rev l1)) by (apply Forall_rev; exact Wl1).
    destruct (outer_loop_ends _ _ _ Hrec Wrev Wl2) as [Hf Hw].
    destruct (outer_loop _ (rev l1) l2) as [l1' ret]. cbn [fst snd] in *.
    split; [exact Hf|].
    cbn [well_formed set_segments _hullPoints _segments _terminalSegments].
    split; [exact H1|]. split; [exact Ht | exact Hw].
  - assert (E1 : _terminalSegments s1 = 1%Z /\ _segments s1 = None).
    { destruct n1 as [|n1]; cbn [well_formed] in W1; destruct W1 as [_ W1];
        destruct (_segments s1) as [l1|]; try (split; [exact W1 | reflexivity]);
        destruct W1 as [W1 _]; apply Z.ltb_ge in T1; lia. }
    destruct E1 as [E1 _].
    assert (T2 : (1 <? _terminalSegments s2)%Z = true).
    { rewrite E1 in Eleaf. cbn in Eleaf.
      destruct n2 as [|n2]; cbn [well_formed] in W2; destruct W2 as [_ W2];
        destruct (_segments s2) as [l2'|];
        try (rewrite W2 in Eleaf; discriminate Eleaf);
        destruct W2 as [W2 _]; apply Z.ltb_lt; exact W2. }
    specialize (Hm' T2).
    assert (Hrec : forall a b, well_formed n1 a -> well_formed m b ->
              finished (snd (intersectCenterCurveSegments fuel a b))
              /\ well_formed n1 (fst (intersectCenterCurveSegments fuel a b))).
    { intros a b Wa Wb. eapply IH; [exact Wa | exact Wb | lia]. }
    exact (inner_loop_ends _ _ _ Hrec Wl2 s1 W1).
Qed.

Lemma built_well_formed (x y : list F) (side radius eps ts te : F)
    (ps pe : point) (s : CenterCurveSegment) :
  built x y side radius eps ts te ps pe s -> well_formed (depth s) s.
Proof.
  induction 1 as [ts te ps pe d t_mid p_mid est v Hl Hl2 Hpre Hsub Hv
                 |ts te ps pe d t_mid p_mid est c1 c2 first v Hl Hl2 Hpre Hsub
                    B1 IH1 B2 IH2 Hfirst Hv].
  - cbn. split; [discriminate | reflexivity].
  - apply built_count in B1, B2. destruct B1 as [_ G1], B2 as [_ G2].
    cbn [depth _segments well_formed _hullPoints _terminalSegments map fold_left].
    split; [cbn; discriminate|]. split; [lia|].
    constructor; [|constructor; [|constructor]].
    + eapply well_formed_mono; [|exact IH1]. cbn. lia.
    + eapply well_formed_mono; [|exact IH2]. cbn. lia.
Qed.

(** On two trees [__init__] has returned, with more fuel than the two
    depths together, the search comes to an end. *)
Lemma search_ends (fuel1 fuel2 fuel : nat) (x1 y1 x2 y2 : list F)
    (side1 radius1 eps1 ts1 te1 side2 radius2 eps2 ts2 te2 : F)
    (pso1 peo1 pso2 peo2 : option point) (s1 s2 : CenterCurveSegment) :
  CenterCurveSegment_init fuel1 x1 y1 side1 radius1 eps1 ts1 te1 pso1 peo1 = Ok s1 ->
  CenterCurveSegment_init fuel2 x2 y2 side2 radius2 eps2 ts2 te2 pso2 peo2 = Ok s2 ->
  (depth s1 + depth s2 < fuel)%nat ->
  finished (snd (intersectCenterCurveSegments fuel s1 s2)).
Proof.
  intros I1 I2 Hfuel.
  apply init_built in I1, I2.
  destruct I1 as (? & ? & _ & _ & B1), I2 as (? & ? & _ & _ & B2).
  apply built_well_formed in B1, B2.
  eapply proj1, intersect_ends; eassumption.
Qed.

End SearchEnds.

(** ** Further properties of the orchestrator, for any arithmetic *)

Section OrchestratorFacts.
Context {F : Type} {AF : Arith F}.

Lemma py_index_Ok {A : Type} (l : list A) (i : Z) :
  (0 <= i < len l)%Z -> exists a, py_index l i = Ok a.
Proof.
  unfold py_index, len. intros Hi.
  destruct (i <? 0)%Z eqn:E; [apply Z.ltb_lt in E; lia|]. rewrite E.
  destruct (nth_error l (Z.to_nat i)) as [a|] eqn:En; [exists a; reflexivity|].
  apply nth_error_None in En. lia.
Qed.

Lemma py_index_out {A : Type} (l : list A) (i : Z) :
  (len l <= i \/ i < - len l)%Z -> py_index l i = Raise IndexError.
Proof.
  unfold py_index, len. intros Hi.
  destruct (i <? 0)%Z eqn:E.
  - apply Z.ltb_lt in E.
    destruct (i + Z.of_nat (length l) <? 0)%Z eqn:E'; [reflexivity|].
    apply Z.ltb_ge in E'. lia.
  - rewrite E. apply Z.ltb_ge in E.
    destruct (nth_error l (Z.to_nat i)) as [a|] eqn:En; [|reflexivity].
    assert (Z.to_nat i < length l)%nat by (apply nth_error_Some; congruence).
    lia.
Qed.

Lemma py_index_last {A : Type} (l : list A) :
  (1 <= len l)%Z -> py_index l (-1) = py_index l (len l - 1).
Proof.
  unfold py_index, len. intros Hl.
  destruct (Z.of_nat (length l) - 1 <? 0)%Z eqn:E; [apply Z.ltb_lt in E; lia|].
  cbn [Z.ltb Z.compare]. rewrite Z.add_comm. rewrite E.
  replace (Z.of_nat (length l) + -1)%Z with (Z.of_nat (length l) - 1)%Z by lia.
  rewrite E. reflexivity.
Qed.

Lemma py_index_app_mid {A : Type} (pre post : list A) (a : A) (i : Z) :
  i = len pre -> py_index (pre ++ a :: post) i = Ok a.
Proof.
  unfold py_index, len. intros ->.
  destruct (Z.of_nat (length pre) <? 0)%Z eqn:E; [apply Z.ltb_lt in E; lia|].
  rewrite E, Nat2Z.id, nth_error_app2, Nat.sub_diag by lia. reflexivity.
Qed.

Lemma set_nth_app_mid {A : Type} (pre post : list A) (a b : A) :
  set_nth (pre ++ a :: post) (length pre) b = pre ++ b :: post.
Proof. induction pre as [|c pre IH]; cbn; [reflexivity | now rewrite IH]. Qed.

Lemma py_update_app_mid {A : Type} (pre post : list A) (a : A) (i : Z)
    (f : A -> A) :
  i = len pre -> py_update (pre ++ a :: post) i f = Ok (pre ++ f a :: post).
Proof.
  intros Hi. unfold py_update. rewrite (py_index_app_mid pre post a Hi).
  cbn [bind]. subst i. unfold len.
  destruct (Z.of_nat (length pre) <? 0)%Z eqn:E; [apply Z.ltb_lt in E; lia|].
  rewrite Nat2Z.id, set_nth_app_mid. reflexivity.
Qed.

Lemma py_slice_to_app {A : Type} (pre post : list A) (i : Z) :
  i = len pre -> py_slice_to (pre ++ post) i = pre.
Proof.
  unfold py_slice_to, py_slice, py_bound, len. intros ->.
  destruct (Z.of_nat (length pre) <? 0)%Z eqn:E; [apply Z.ltb_lt in E; lia|].
  cbn [Z.ltb Z.compare]. rewrite length_app.
  replace (Z.to_nat (Z.min (Z.max 0 0) (Z.of_nat (length pre + length post))))
    with 0%nat by lia.
  replace (Z.to_nat (Z.min (Z.max (Z.of_nat (length pre)) 0)
                           (Z.of_nat (length pre + length post))))
    with (length pre) by lia.
  cbn [skipn]. rewrite Nat.sub_0_r, firstn_app, Nat.sub_diag, firstn_all.
  cbn [firstn]. apply app_nil_r.
Qed.

Lemma py_slice_from_app {A : Type} (pre post : list A) (i : Z) :
  i = len pre -> py_slice_from (pre ++ post) i = post.
Proof.
  unfold py_slice_from, py_slice, py_bound, len. intros ->.
  destruct (Z.of_nat (length pre) <? 0)%Z eqn:E; [apply Z.ltb_lt in E; lia|].
  destruct (Z.of_nat (length (pre ++ post)) <? 0)%Z eqn:E';
    [apply Z.ltb_lt in E'; lia|].
  rewrite length_app.
  replace (Z.to_nat (Z.min (Z.max (Z.of_nat (length pre)) 0)
                           (Z.of_nat (length pre + length post))))
    with (length pre) by lia.
  replace (Z.to_nat (Z.min (Z.max (Z.of_nat (length pre + length post)) 0)
                           (Z.of_nat (length pre + length post))))
    with (length pre + length post)%nat by lia.
  rewrite skipn_app, skipn_all, Nat.sub_diag. cbn [skipn app].
  replace (length pre + length post - length pre)%nat with (length post) by lia.
  apply firstn_all.
Qed.

(** A list around the three nodes at [i - 1], [i] and [i + 1]. *)
Lemma split_around {A : Type} (l : list A) (i : Z) :
  (0 < i < len l - 1)%Z ->
  exists pre a b c post,
    l = pre ++ [a; b; c] ++ post /\ len pre = (i - 1)%Z.
Proof.
  unfold len. intros Hi.
  pose (k := Z.to_nat (i - 1)).
  assert (Hk : (k + 3 <= length l)%nat) by lia.
  rewrite <- (firstn_skipn k l).
  destruct (skipn k l) as [|a [|b [|c post]]] eqn:E;
    try (apply (f_equal (@length A)) in E; rewrite length_skipn in E;
         cbn [length] in E; lia).
  exists (firstn k l), a, b, c, post. split; [reflexivity|].
  rewrite length_firstn. lia.
Qed.

Lemma in_py_range (lo hi i : Z) : In i (py_range lo hi) <-> (lo <= i < hi)%Z.
Proof.
  unfold py_range. rewrite in_map_iff. split.
  - intros (k & <- & Hk). apply in_seq in Hk. lia.
  - intros Hi. exists (Z.to_nat (i - lo)). split; [lia|]. apply in_seq. lia.
Qed.

(** [super_node] on a node that is neither the first nor the last one. *)
Lemma super_node_inner (self self' : @RoundedCorners F) (sp : list Node)
    (node_idx : Z) (found : option (SuperNode * Node)) :
  (0 < node_idx < len sp - 1)%Z ->
  super_node self sp node_idx = Ok (self', found) ->
  self' = self
  /\ exists sn node,
       found = Some (sn, node)
       /\ py_index sp node_idx = Ok node
       /\ sn_idx sn = node_idx
       /\ s_idx (sn_prev sn) = (node_idx - 1)%Z
       /\ s_idx (sn_next sn) = (node_idx + 1)%Z.
Proof.
  intros Hi H. unfold super_node in H.
  apply bind_Ok_inv in H. destruct H as (node0 & E0 & H).
  destruct (node_idx =? 0)%Z eqn:Ez; [apply Z.eqb_eq in Ez; lia|].
  cbn [bind] in H.
  destruct (node_idx =? len sp - 1)%Z eqn:El; [apply Z.eqb_eq in El; lia|].
  destruct (node_idx + 1 >=? len sp)%Z eqn:Eg; [apply Z.geb_le in Eg; lia|].
  inv_bind H. injection H as <- <-.
  split; [reflexivity|]. eexists _, node0. repeat split. exact E0.
Qed.

(** [super_node] on the last node of a subpath. *)
Lemma super_node_last (self : @RoundedCorners F) (sp : list Node)
    (node_idx : Z) :
  (0 <= node_idx)%Z -> node_idx = (len sp - 1)%Z ->
  super_node self sp node_idx = Ok (incr_skipped_degenerated self, None).
Proof.
  intros H0 Hl. unfold super_node.
  destruct (py_index_Ok sp (i := node_idx)) as (node0 & ->); [lia|].
  cbn [bind].
  destruct (node_idx =? 0)%Z eqn:Ez.
  - apply Z.eqb_eq in Ez.
    assert (Hlen : len sp = 1%Z) by lia. rewrite Hlen.
    change (1 - 1)%Z with 0%Z. rewrite Ez in *.
    destruct (py_index_Ok sp (i := 0%Z)) as (n0 & E0); [lia|].
    rewrite E0. cbn [bind].
    destruct (very_close node0 n0); [|reflexivity].
    change (0 - 1)%Z with (-1)%Z.
    rewrite py_index_last, Hlen by lia. change (1 - 1)%Z with 0%Z.
    rewrite E0. cbn [bind].
    destruct (very_close_xy _ _); cbn [bind]; reflexivity.
  - cbn [bind]. rewrite <- Hl, Z.eqb_refl. reflexivity.
Qed.

(** [super_node] on the first node of a subpath whose last node is not
    very close to it. *)
Lemma super_node_open_first (self : @RoundedCorners F) (sp : list Node)
    (first last : Node) :
  py_index sp 0 = Ok first ->
  py_index sp (len sp - 1) = Ok last ->
  very_close first last = false ->
  super_node self sp 0 = Ok (incr_skipped_degenerated self, None).
Proof.
  intros E0 El Hc. unfold super_node.
  rewrite E0. cbn [bind Z.eqb]. rewrite El. cbn [bind]. rewrite Hc.
  reflexivity.
Qed.

Lemma subpath_round_corner_skip (fuel : nat) (self self' : @RoundedCorners F)
    (sp : list Node) (node_idx : Z) :
  super_node self sp node_idx = Ok (self', None) ->
  subpath_round_corner fuel self sp node_idx = Ok (self', sp).
Proof.
  intros H. unfold subpath_round_corner, corner_search. rewrite H. reflexivity.
Qed.

(** The corner [corner_search] hands over for a node that is neither the
    first nor the last one. *)
Lemma corner_search_inner (fuel : nat) (self self' : @RoundedCorners F)
    (sp : list Node) (node_idx : Z) (c : Corner) :
  (0 < node_idx < len sp - 1)%Z ->
  corner_search fuel self sp node_idx = Ok (self', Some c) ->
  self' = self
  /\ c_prev_idx c = (node_idx - 1)%Z /\ c_next_idx c = (node_idx + 1)%Z
  /\ py_index sp (node_idx - 1) = Ok (c_prev_node c)
  /\ py_index sp node_idx = Ok (c_node c)
  /\ py_index sp (node_idx + 1) = Ok (c_next_node c)
  /\ exists s1 s2,
       corner_trees fuel self (c_prev_node c) (c_node c) (c_next_node c)
       = Ok (s1, s2)
       /\ intersectCenterCurveSegments fuel s1 s2 = (c_s1 c, Ok (c_t c)).
Proof.
  intros Hi H. unfold corner_search in H.
  apply bind_Ok_inv in H. destruct H as ([self1 found] & Esn & H).
  eapply super_node_inner in Esn; [|exact Hi].
  destruct Esn as (-> & sn & node0 & -> & _ & _ & Ep & En).
  rewrite Ep, En in H.
  apply bind_Ok_inv in H. destruct H as (prev_node & Eprev & H).
  apply bind_Ok_inv in H. destruct H as (next_node & Enext & H).
  apply bind_Ok_inv in H. destruct H as (node & Enode & H).
  apply bind_Ok_inv in H. destruct H as ([s1 s2] & Etrees & H).
  destruct (intersectCenterCurveSegments fuel s1 s2) as [s1' ret] eqn:Ei.
  apply bind_Ok_inv in H. destruct H as (t & Et & H).
  injection H as <- <-. cbn. subst ret.
  repeat split; try assumption. exists s1, s2. split; [exact Etrees | exact Ei].
Qed.

End OrchestratorFacts.

(** ** Further properties in exact arithmetic *)

Section MoreRealFacts.
Local Open Scope R_scope.

Lemma R_div_zero (a b : R) : b = 0 -> R_div a b = Raise ZeroDivisionError.
Proof. unfold R_div. destruct (Req_dec_T b 0); [reflexivity | contradiction]. Qed.

Lemma R_neb_true (a b : R) : R_neb a b = true -> a <> b.
Proof. unfold R_neb. destruct (Req_dec_T a b); [discriminate | auto]. Qed.

Lemma fdiv_defined_real (a b : R) : fne b f0 = true -> exists c, fdiv a b = Ok c.
Proof.
  cbn. intros H. apply R_neb_true in H. exists (a / b). apply R_div_Ok. exact H.
Qed.

Lemma fdiv_defined_float (a b : float) :
  fne b f0 = true -> exists c, fdiv a b = Ok c.
Proof.
  cbn. unfold float_div. destruct (PrimFloat.eqb b 0); [discriminate|].
  intros _. eexists; reflexivity.
Qed.

(** *** The offset point *)

Lemma calculate_center_point_real (x y : list R) (side radius t : R) (C : Rpoint) :
  calculate_center_point_of x y side radius t = Ok C ->
  exists B T,
    curve_point_and_tangent x y t = Ok (B, T)
    /\ sqrt (dot T T) <> 0
    /\ C = vadd B (vscale (side * radius / sqrt (dot T T)) (rot90 T)).
Proof.
  unfold calculate_center_point_of, curve_point_and_tangent. intros H.
  apply bind_Ok_inv in H. destruct H as (x0 & -> & H).
  apply bind_Ok_inv in H. destruct H as (x1 & -> & H).
  apply bind_Ok_inv in H. destruct H as (y0 & -> & H).
  apply bind_Ok_inv in H. destruct H as (y1 & -> & H).
  apply bind_Ok_inv in H. destruct H as (dx2 & Edx & H).
  apply bind_Ok_inv in H. destruct H as (dy2 & Edy & H).
  apply bind_Ok_inv in H. destruct H as (norm & En & H).
  apply bind_Ok_inv in H. destruct H as (qx & Eqx & H).
  apply bind_Ok_inv in H. destruct H as (qy & Eqy & H).
  injection H as <-.
  cbn in Edx, Edy. injection Edx as <-. injection Edy as <-.
  apply R_sqrt_inv in En. destruct En as [_ ->].
  apply R_div_inv in Eqx. destruct Eqx as [Hn ->].
  apply R_div_inv in Eqy. destruct Eqy as [_ ->].
  cbn [bind]. eexists _, _. split; [reflexivity|].
  unfold dot, vadd, vscale, rot90. cbn [fst snd fsub fadd fmul f1 RArith] in *.
  split; [exact Hn|].
  apply f_equal2; field; exact Hn.
Qed.

Lemma sqrt_dot_square (T : Rpoint) : sqrt (dot T T) * sqrt (dot T T) = dot T T.
Proof. apply sqrt_sqrt. unfold dot. nra. Qed.

Lemma offset_distance (B T : Rpoint) (k : R) :
  sqrt (dot T T) <> 0 ->
  distance (vadd B (vscale (k / sqrt (dot T T)) (rot90 T))) B = Rabs k.
Proof.
  intros Hn. pose proof (sqrt_dot_square T) as Hs.
  unfold distance, vadd, vscale, rot90. cbn [fst snd].
  rewrite <- sqrt_Rsqr_abs. f_equal. unfold Rsqr.
  set (n := sqrt (dot T T)) in *.
  transitivity (k * k * (dot T T) / (n * n)).
  - unfold dot. field. exact Hn.
  - rewrite <- Hs. field. exact Hn.
Qed.

Lemma offset_perpendicular (B T : Rpoint) (k : R) :
  dot (vsub (vadd B (vscale k (rot90 T))) B) T = 0.
Proof. unfold dot, vsub, vadd, vscale, rot90. cbn [fst snd]. ring. Qed.

(** The four control points of a cubic, as lists of coordinates. *)
Lemma curve_point_and_tangent_cubic (p0 p1 p2 p3 : Rpoint) (t : R) :
  exists T,
    curve_point_and_tangent [fst p0; fst p1; fst p2; fst p3]
                            [snd p0; snd p1; snd p2; snd p3] t
    = Ok (split_point p0 p1 p2 p3 t, T)
    /\ (let '((_, _, p2', P), _) := split_bezier_curve p0 p1 p2 p3 t in
        vsub P p2' = vscale t T).
Proof.
  eexists. split; [reflexivity|].
  unfold split_bezier_curve, vsub, vscale. cbn.
  apply f_equal2; ring.
Qed.

End MoreRealFacts.

Section MoreRealFacts2.
Local Open Scope R_scope.

(** *** The leaf case *)

Lemma intersect_leaves_real (a b : Rsegment) (u v : R) :
  intersect_leaves a b = Ok (Some (u, v)) ->
  exists k1 k2,
    u = (1 - k1) * _t_start a + k1 * _t_end a
    /\ v = (1 - k2) * _t_start b + k2 * _t_end b
    /\ vadd (_p_start a) (vscale k1 (vsub (_p_end a) (_p_start a)))
       = vadd (_p_start b) (vscale k2 (vsub (_p_end b) (_p_start b))).
Proof.
  unfold intersect_leaves. intros H.
  destruct (fne _ f0) eqn:Edet; [|discriminate H].
  apply bind_Ok_inv in H. destruct H as (k1 & E1 & H).
  apply bind_Ok_inv in H. destruct H as (k2 & E2 & H).
  injection H as <- <-.
  apply R_div_inv in E1. destruct E1 as [Hdet E1].
  apply R_div_inv in E2. destruct E2 as [_ E2].
  exists k1, k2. split; [reflexivity|]. split; [reflexivity|].
  destruct (_p_start a) as [sax say], (_p_end a) as [eax eay],
           (_p_start b) as [sbx sby], (_p_end b) as [ebx eby].
  unfold vadd, vscale, vsub.
  cbn [fst snd fsub fadd fmul fopp RArith] in *.
  subst k1 k2. apply f_equal2; field; exact Hdet.
Qed.

(** *** A segment that leaves its first point without a handle *)

Lemma calculate_center_point_no_handle (a b c d e f side radius : R) :
  calculate_center_point_of [a; a; b; c] [d; d; e; f] side radius 0
  = Raise ZeroDivisionError.
Proof.
  unfold calculate_center_point_of.
  cbn [length casteljau_reduce casteljau_step casteljau_pass len Z.ltb
       Z.of_nat Pos.of_succ_nat Pos.succ Z.compare Pos.compare Pos.compare_cont
       py_index Z.to_nat nth_error bind Pos.to_nat Pos.iter_op Nat.add
       fsub fadd fmul f1 RArith fpow2 R_pow2].
  change (Pos.to_nat 1) with 1%nat.
  cbn [nth_error bind fsub fadd fmul f1 RArith fpow2 R_pow2].
  match goal with
  | |- bind (fsqrt ?z) _ = _ =>
      assert (Hz : z = 0) by ring; rewrite Hz
  end.
  cbn [fsqrt RArith]. rewrite R_sqrt_Ok by lra. cbn [bind fdiv RArith].
  rewrite R_div_zero by apply sqrt_0. reflexivity.
Qed.

(** [super_node] returns for every node that is neither the first nor the
    last one: the square roots are those of sums of squares. *)
Lemma super_node_inner_real (self : @RoundedCorners R) (sp : list (@Node R))
    (node_idx : Z) :
  (0 < node_idx < len sp - 1)%Z ->
  exists sn node,
    super_node self sp node_idx = Ok (self, Some (sn, node))
    /\ s_idx (sn_prev sn) = (node_idx - 1)%Z
    /\ s_idx (sn_next sn) = (node_idx + 1)%Z.
Proof.
  intros Hi. unfold super_node.
  destruct (py_index_Ok sp (i := node_idx)) as (node0 & ->); [lia|].
  destruct (node_idx =? 0)%Z eqn:Ez; [apply Z.eqb_eq in Ez; lia|].
  cbn [bind].
  destruct (node_idx =? len sp - 1)%Z eqn:El; [apply Z.eqb_eq in El; lia|].
  destruct (node_idx + 1 >=? len sp)%Z eqn:Eg; [apply Z.geb_le in Eg; lia|].
  destruct (py_index_Ok sp (i := (node_idx - 1)%Z)) as (p & ->); [lia|].
  destruct (py_index_Ok sp (i := (node_idx + 1)%Z)) as (n & ->); [lia|].
  cbn [bind fsqrt fst snd fadd fmul fsub RArith].
  eexists _, _. split.
  - assert (Hsq : forall u v : R, 0 <= u * u + v * v) by (intros; nra).
    rewrite R_sqrt_Ok by apply Hsq. cbn [bind].
    rewrite R_sqrt_Ok by apply Hsq. cbn [bind]. reflexivity.
  - split; reflexivity.
Qed.

(** *** A range whose two end points coincide *)

Lemma node_prelude_no_chord (x y : list R) (side radius ts te : R) (p : Rpoint) :
  node_prelude x y side radius ts te p p = Raise ZeroDivisionError.
Proof.
  unfold node_prelude. cbn [fpow2 RArith R_pow2 bind fsub fadd fsqrt].
  match goal with
  | |- bind (R_sqrt ?z) _ = _ => assert (Hz : z = 0) by ring; rewrite Hz
  end.
  rewrite R_sqrt_Ok by lra. cbn [bind fdiv RArith].
  rewrite R_div_zero by apply sqrt_0. reflexivity.
Qed.

(** *** The arc *)

Lemma arc_handles_square (P N C h1 h2 : Rpoint) :
  arc_bezier_handles P N C = Ok (h1, h2) ->
  let a := vsub P C in
  let b := vsub N C in
  let q1 := dot a a in
  let q2 := q1 + dot a b in
  cross a b <> 0
  /\ k2_of P N C * cross a b = 4 / 3 * (sqrt (2 * q1 * q2) - q2)
  /\ sqrt (2 * q1 * q2) * sqrt (2 * q1 * q2) = 2 * q1 * q2.
Proof.
  destruct P as [x1 y1], N as [x4 y4], C as [xc yc].
  unfold arc_bezier_handles. intros H.
  apply bind_Ok_inv in H. destruct H as (r & Er & H).
  apply bind_Ok_inv in H. destruct H as (k2 & Ek & H).
  apply R_sqrt_inv in Er. destruct Er as [Hpos _].
  apply R_div_inv in Ek. destruct Ek as [Hcross _].
  cbn [fst snd fsub fadd fmul f2 RArith] in Hpos, Hcross.
  unfold k2_of, vsub, dot, cross. cbn [fst snd].
  assert (Hc : (x1 - xc) * (y4 - yc) - (y1 - yc) * (x4 - xc) <> 0)
    by exact Hcross.
  split; [exact Hc|]. split.
  - field. exact Hc.
  - apply sqrt_sqrt.
    replace (2 * ((x1 - xc) * (x1 - xc) + (y1 - yc) * (y1 - yc)) *
             ((x1 - xc) * (x1 - xc) + (y1 - yc) * (y1 - yc) +
              ((x1 - xc) * (x4 - xc) + (y1 - yc) * (y4 - yc))))
      with (2 * ((x1 - xc) * (x1 - xc) + (y1 - yc) * (y1 - yc)) *
            ((x1 - xc) * (x1 - xc) + (y1 - yc) * (y1 - yc) +
             (x1 - xc) * (x4 - xc) + (y1 - yc) * (y4 - yc))) by ring.
    exact Hpos.
Qed.

(** The middle of the cubic [P, h1, h2, N] whose handles are
    [P + k*rot90(P - C)] and [N - k*rot90(N - C)], for [P] and [N] at the
    same distance from [C]. *)
Lemma arc_middle_square (P N C : Rpoint) (k s : R) :
  let a := vsub P C in
  let b := vsub N C in
  let q1 := dot a a in
  let q2 := q1 + dot a b in
  dot b b = dot a a ->
  cross a b <> 0 ->
  k * cross a b = 4 / 3 * (s - q2) ->
  s * s = 2 * q1 * q2 ->
  let M := split_point P (vadd P (vscale k (rot90 a)))
                       (vsub N (vscale k (rot90 b))) N (1 / 2) in
  dot (vsub M C) (vsub M C) = q1.
Proof.
  destruct P as [x1 y1], N as [x4 y4], C as [xc yc].
  unfold split_point, split_bezier_curve, vsub, vadd, vscale, rot90, dot, cross.
  cbn [fst snd fsub fadd fmul f1 RArith].
  set (ax := x1 - xc). set (ay := y1 - yc).
  set (bx := x4 - xc). set (by_ := y4 - yc).
  intros Heq Hcross Hk Hs.
  set (X := ax * by_ - ay * bx) in *.
  set (q1 := ax * ax + ay * ay) in *.
  set (q2 := q1 + (ax * bx + ay * by_)) in *.
  assert (HX : X * X = 2 * q1 * q2 - q2 * q2).
  { unfold X, q2, q1 in *. nra. }
  match goal with |- ?lhs = _ => set (G := lhs) end.
  assert (HG : G = q2 / 2 + 9 / 64 * (k * k) * (4 * q1 - 2 * q2)
                   + 3 / 4 * (k * X)).
  { unfold G, X, q2, q1, ax, ay, bx, by_ in *. nra. }
  assert (Hmul : (G - q1) * (X * X) = 0).
  { rewrite HG.
    transitivity ((q2 / 2 - q1) * (X * X)
                  + 9 / 64 * ((k * X) * (k * X)) * (4 * q1 - 2 * q2)
                  + 3 / 4 * (k * X) * (X * X)); [field|].
    assert (HX' : X * X = s * s - q2 * q2) by (rewrite HX, Hs; ring).
    rewrite Hk, HX'.
    transitivity ((s - q2) * (s * s - 2 * q1 * q2)); [field|].
    rewrite Hs. ring. }
  apply Rmult_integral in Hmul. destruct Hmul as [Hz | Hz]; [lra|].
  apply Rmult_integral in Hz. destruct Hz; contradiction.
Qed.

End MoreRealFacts2.

Section SelectionFacts.
Context {F : Type} {AF : Arith F}.

(** The tree [__init__] returns has fewer levels than the constructor had
    nested calls at its disposal. *)
Lemma init_depth (fuel : nat) :
  forall (x y : list F) (side radius eps ts te : F) (pso peo : option point)
         (s : CenterCurveSegment),
    CenterCurveSegment_init fuel x y side radius eps ts te pso peo = Ok s ->
    (depth s < fuel)%nat.
Proof.
  induction fuel as [|fuel IH]; intros x y side radius eps ts te pso peo s H.
  - discriminate H.
  - rewrite init_unfold in H.
    destruct (len x =? len y)%Z; cbn [negb] in H; [|discriminate H].
    destruct (len x <? 2)%Z; [discriminate H|].
    apply bind_Ok_inv in H. destruct H as (ps & _ & H).
    apply bind_Ok_inv in H. destruct H as (pe & _ & H).
    apply bind_Ok_inv in H. destruct H as ([[[d t_mid] p_mid] est] & _ & H).
    apply bind_Ok_inv in H. destruct H as (sub & _ & H).
    destruct sub.
    + apply bind_Ok_inv in H. destruct H as (c1 & Ec1 & H).
      apply bind_Ok_inv in H. destruct H as (c2 & Ec2 & H).
      apply bind_Ok_inv in H. destruct H as (first & _ & H).
      apply bind_Ok_inv in H. destruct H as (v & _ & H).
      injection H as <-.
      apply IH in Ec1. apply IH in Ec2. cbn. lia.
    + apply bind_Ok_inv in H. destruct H as (v & _ & H).
      injection H as <-. cbn. lia.
Qed.

(** The indices [find_roundable_nodes] appends for one subpath, against
    [super_node]. *)
Lemma roundable_indices_accepted (sp : list (@Node F)) (l : list Z) (idx : Z) :
  roundable_indices sp = Ok l -> In idx l ->
  (3 <= len sp)%Z /\ (0 <= idx < len sp - 1)%Z
  /\ forall (self self' : RoundedCorners) (found : option (SuperNode * Node)),
       super_node self sp idx = Ok (self', found) ->
       self' = self /\ found <> None.
Proof.
  unfold roundable_indices. intros H Hin.
  destruct (len sp <? 3)%Z eqn:E3; [injection H as <-; destruct Hin|].
  apply Z.ltb_ge in E3.
  apply bind_Ok_inv in H. destruct H as (first & Efirst & H).
  apply bind_Ok_inv in H. destruct H as (last & Elast & H).
  rewrite py_index_last in Elast by lia.
  assert (Hrange : (0 <= idx < len sp - 1)%Z
                   /\ (idx = 0%Z -> very_close first last = true)).
  { destruct (very_close first last).
    - apply bind_Ok_inv in H. destruct H as (before_last & _ & H).
      injection H as <-. apply in_py_range in Hin.
      destruct (very_close_xy _ _); split; try reflexivity; lia.
    - injection H as <-. apply in_py_range in Hin. split; [lia|]. lia. }
  destruct Hrange as [Hrange Hclosed].
  split; [exact E3|]. split; [exact Hrange|].
  intros self self' found Hsn. unfold super_node in Hsn.
  apply bind_Ok_inv in Hsn. destruct Hsn as (node0 & E0 & Hsn).
  apply bind_Ok_inv in Hsn. destruct Hsn as (wrapped & Ew & Hsn).
  assert (Hw : exists w, wrapped = Some w).
  { destruct (idx =? 0)%Z eqn:Ez.
    - apply Z.eqb_eq in Ez. subst idx.
      rewrite Efirst in E0. injection E0 as <-.
      rewrite Elast in Ew. cbn [bind] in Ew.
      rewrite (Hclosed eq_refl) in Ew.
      apply bind_Ok_inv in Ew. destruct Ew as (q & _ & Ew).
      destruct (very_close_xy _ _); injection Ew as <-; eexists; reflexivity.
    - injection Ew as <-. eexists; reflexivity. }
  destruct Hw as ([nd prev_idx] & ->).
  destruct (idx =? len sp - 1)%Z eqn:El; [apply Z.eqb_eq in El; lia|].
  inv_bind Hsn. injection Hsn as <- <-. split; [reflexivity | discriminate].
Qed.

Lemma find_roundable_nodes_from_in (csp : list (list (@Node F))) :
  forall (start : Z) (l : list (Z * Z)) (sp_idx idx : Z),
    find_roundable_nodes_from start csp = Ok l -> In (sp_idx, idx) l ->
    (start <= sp_idx)%Z
    /\ exists sp here,
         nth_error csp (Z.to_nat (sp_idx - start)) = Some sp
         /\ roundable_indices sp = Ok here /\ In idx here.
Proof.
  induction csp as [|sp rest IH]; intros start l sp_idx idx H Hin;
    cbn [find_roundable_nodes_from] in H.
  - injection H as <-. destruct Hin.
  - apply bind_Ok_inv in H. destruct H as (here & Ehere & H).
    apply bind_Ok_inv in H. destruct H as (more & Emore & H).
    injection H as <-. apply in_app_or in Hin. destruct Hin as [Hin | Hin].
    + apply in_map_iff in Hin. destruct Hin as (i & Heq & Hi).
      injection Heq as <- <-. split; [lia|].
      exists sp, here. rewrite Z.sub_diag. cbn. auto.
    + destruct (IH _ _ _ _ Emore Hin) as (Hle & sp' & here' & Hn & Hr & Hi).
      split; [lia|]. exists sp', here'.
      replace (Z.to_nat (sp_idx - start)) with (S (Z.to_nat (sp_idx - (start + 1))))
        by lia.
      cbn [nth_error]. auto.
Qed.

(** The list [fit_corner] returns for a node that is neither the first
    nor the last one. *)
Lemma fit_corner_inner (s1 : @CenterCurveSegment F)
    (pre post : list (@Node F)) (prev node next : Node) (sp' : list Node)
    (node_idx : Z) (t : F * F) :
  len pre = (node_idx - 1)%Z ->
  fit_corner s1 (pre ++ [prev; node; next] ++ post) node_idx
             (node_idx - 1) (node_idx + 1) prev node next t = Ok sp' ->
  let '((_, p1, p2, P), _) :=
    split_bezier_curve (nd1 prev) (nd2 prev) (nd0 node) (nd1 node) (fst t) in
  let '(_, (N, n1, n2, _)) :=
    split_bezier_curve (nd1 node) (nd2 node) (nd0 next) (nd1 next) (snd t) in
  exists c1 c2,
    sp' = pre ++ [set_nd2 prev p1; mkNode p2 P c1; mkNode c2 N n1;
                  set_nd0 next n2] ++ post.
Proof.
  intros Hpre H. unfold fit_corner, split_bezier_curve in *.
  apply bind_Ok_inv in H. destruct H as (arc_c & _ & H).
  cbn [app] in H.
  rewrite (py_update_app_mid pre (node :: next :: post) prev) in H by lia.
  cbn [bind] in H.
  change (pre ++ ?a :: node :: next :: post)
    with (pre ++ [a; node] ++ next :: post) in H.
  rewrite app_assoc in H.
  rewrite (py_update_app_mid (pre ++ [_; node]) post next) in H
    by (unfold len in *; rewrite length_app; cbn [length]; lia).
  cbn [bind] in H.
  apply bind_Ok_inv in H. destruct H as ([c1 c2] & _ & H).
  destruct (node_idx =? 0)%Z eqn:Ez;
    [apply Z.eqb_eq in Ez; unfold len in Hpre; lia|].
  injection H as <-. exists c1, c2.
  rewrite <- app_assoc. cbn [app].
  change (pre ++ ?a :: node :: ?b :: post)
    with (pre ++ [a] ++ node :: b :: post).
  rewrite app_assoc.
  rewrite (py_slice_to_app (pre ++ [_]) (node :: _ :: post))
    by (unfold len in *; rewrite length_app; cbn [length]; lia).
  change ((pre ++ [?a]) ++ node :: ?b :: post)
    with ((pre ++ [a]) ++ [node] ++ b :: post).
  rewrite (app_assoc (pre ++ [_]) [node]).
  rewrite (py_slice_from_app ((pre ++ [_]) ++ [node]) (_ :: post))
    by (unfold len in *; rewrite !length_app; cbn [length]; lia).
  rewrite <- app_assoc. reflexivity.
Qed.

End SelectionFacts.

(** ** A corner in exact arithmetic

    [subpath_round_corner] on the right angle [right_angle_sp] with radius
    1, step by step: the two trees, the search, the fit. *)

Section SearchSteps.
Context {F : Type} {AF : Arith F}.

(** The cases of one call of [intersectCenterCurveSegments]. *)
Lemma intersect_apart_first (fuel : nat) (s1 s2 : @CenterCurveSegment F)
    (v : search_values) :
  convexHullSearchValues s2 (_searchDir s1) = Ok v ->
  boxes_apart (_searchValues s1) v = true ->
  intersectCenterCurveSegments (S fuel) s1 s2 = (s1, Ok None).
Proof.
  intros E1 A1. cbn [intersectCenterCurveSegments]. rewrite E1, A1. reflexivity.
Qed.

Lemma intersect_apart_second (fuel : nat) (s1 s2 : @CenterCurveSegment F)
    (v v' : search_values) :
  convexHullSearchValues s2 (_searchDir s1) = Ok v ->
  boxes_apart (_searchValues s1) v = false ->
  convexHullSearchValues s1 (_searchDir s2) = Ok v' ->
  boxes_apart (_searchValues s2) v' = true ->
  intersectCenterCurveSegments (S fuel) s1 s2 = (s1, Ok None).
Proof.
  intros E1 A1 E2 A2. cbn [intersectCenterCurveSegments].
  rewrite E1, A1, E2, A2. reflexivity.
Qed.

Lemma intersect_at_leaves (fuel : nat) (s1 s2 : @CenterCurveSegment F)
    (v v' : search_values) :
  convexHullSearchValues s2 (_searchDir s1) = Ok v ->
  boxes_apart (_searchValues s1) v = false ->
  convexHullSearchValues s1 (_searchDir s2) = Ok v' ->
  boxes_apart (_searchValues s2) v' = false ->
  _terminalSegments s1 = 1%Z -> _terminalSegments s2 = 1%Z ->
  intersectCenterCurveSegments (S fuel) s1 s2 = (s1, intersect_leaves s1 s2).
Proof.
  intros E1 A1 E2 A2 T1 T2. cbn [intersectCenterCurveSegments].
  rewrite E1, A1, E2, A2, T1, T2. reflexivity.
Qed.

Lemma intersect_descends (fuel : nat) (s1 s2 : @CenterCurveSegment F)
    (v v' : search_values) (l1 l2 : list CenterCurveSegment) :
  convexHullSearchValues s2 (_searchDir s1) = Ok v ->
  boxes_apart (_searchValues s1) v = false ->
  convexHullSearchValues s1 (_searchDir s2) = Ok v' ->
  boxes_apart (_searchValues s2) v' = false ->
  (1 <? _terminalSegments s1)%Z = true ->
  (1 <? _terminalSegments s2)%Z = true ->
  _segments s1 = Some l1 -> _segments s2 = Some l2 ->
  intersectCenterCurveSegments (S fuel) s1 s2
  = (let '(l1', ret) :=
       outer_loop (intersectCenterCurveSegments fuel) (rev l1) l2 in
     (set_segments s1 (Some l1'), ret)).
Proof.
  intros E1 A1 E2 A2 T1 T2 S1 S2. cbn [intersectCenterCurveSegments].
  rewrite E1, A1, E2, A2, T1, T2, S1, S2.
  assert (H : ((_terminalSegments s1 =? 1)%Z && (_terminalSegments s2 =? 1)%Z)
              = false).
  { apply Z.ltb_lt in T1. apply andb_false_intro1. apply Z.eqb_neq. lia. }
  rewrite H. reflexivity.
Qed.

End SearchSteps.

Section RealRunCorner.
Local Open Scope R_scope.

Ltac decide_real' :=
  repeat match goal with
         | |- context [R_ltb ?a ?b] =>
             first [ rewrite (@R_ltb_true a b) by lra
                   | rewrite (@R_ltb_false a b) by lra ]
         end.

Ltac eval_hull :=
  unfold convexHullSearchValues, convexHullSearchValues_of;
  cbn [_hullPoints _searchDir line_root up_root line_node up_node
       line_leaf up_leaf hull_of_search_values line_sv up_sv
       map fst snd sv0 sv1 sv2 sv3 py_min py_max fold_left bind
       fadd fsub fmul fopp RArith];
  unfold py_min2, py_max2; cbn [flt fgt RArith]; decide_real'.

Ltac eval_apart :=
  unfold boxes_apart;
  cbn [_searchValues line_root up_root line_node up_node line_leaf up_leaf
       line_sv up_sv sv0 sv1 sv2 sv3 flt fgt RArith];
  decide_real'.

Ltac same_values :=
  apply f_equal2; [apply f_equal2; [apply f_equal2|]|]; lra.

Lemma up_point (t : R) :
  calculate_center_point_of up_x up_y 1 1 t = Ok (2, 3 * t).
Proof.
  unfold calculate_center_point_of, up_x, up_y. cbn.
  change (Pos.to_nat 1) with 1%nat. cbn.
  rewrite (@R_sqrt_square _ 1) by (try lra; ring). cbn.
  rewrite !R_div_Ok by lra. cbn.
  f_equal. f_equal; field.
Qed.

Lemma up_prelude (ts te : R) :
  ts < te ->
  node_prelude up_x up_y 1 1 ts te (2, 3 * ts) (2, 3 * te)
  = Ok ((0, 1), (ts + te) / 2, (2, 3 * ((ts + te) / 2)),
        (2, (3 * ts + 3 * te) / 2)).
Proof.
  intros Hlt. unfold node_prelude. cbn -[calculate_center_point_of].
  rewrite (@R_sqrt_square _ (3 * te - 3 * ts)) by (try lra; ring).
  cbn -[calculate_center_point_of].
  rewrite !R_div_Ok by lra. cbn -[calculate_center_point_of].
  rewrite up_point. cbn.
  f_equal. f_equal; [f_equal; f_equal; f_equal; field; lra | f_equal; field].
Qed.

Lemma up_criterion (ts te : R) :
  subdivision_criterion (1 / 1000) ts te
    (2, (3 * ts + 3 * te) / 2) (2, 3 * ((ts + te) / 2))
  = Ok (R_ltb (26 / 100) (te - ts)).
Proof.
  unfold subdivision_criterion. cbn.
  destruct (R_ltb (26 / 100) (te - ts)); [reflexivity|].
  unfold R_pow2. cbn. decide_real'. reflexivity.
Qed.

Lemma up_chord_values (ts te : R) :
  ts < te ->
  convexHullSearchValues_of [(2, 3 * ts); (2, 3 * te)] (0, 1) = Ok (up_sv ts te).
Proof.
  intros Hlt. unfold convexHullSearchValues_of, up_sv. cbn.
  unfold py_min2, py_max2. cbn. decide_real'. reflexivity.
Qed.

Lemma up_leaf_init (fuel : nat) (ts te : R) :
  ts < te -> te - ts <= 26 / 100 ->
  CenterCurveSegment_init (S fuel) up_x up_y 1 1 (1 / 1000) ts te
    (Some (2, 3 * ts)) (Some (2, 3 * te)) = Ok (up_leaf ts te).
Proof.
  intros Hlt Hshort. rewrite init_unfold.
  change (negb (len up_x =? len up_y)%Z) with false. cbv iota.
  change (len up_x <? 2)%Z with false. cbv iota.
  cbn [end_point bind].
  rewrite up_prelude by exact Hlt. cbn [bind].
  rewrite up_criterion. rewrite R_ltb_false by exact Hshort. cbn [bind].
  rewrite up_chord_values by exact Hlt. reflexivity.
Qed.

Lemma line_node_init (fuel : nat) (ts te : R) :
  26 / 100 < te - ts -> te - ts <= 52 / 100 ->
  CenterCurveSegment_init (S (S fuel)) line_x line_y 1 1 (1 / 1000) ts te
    (Some (3 * ts, 1)) (Some (3 * te, 1)) = Ok (line_node ts te).
Proof.
  intros Hlong Hshort. rewrite init_unfold.
  change (negb (len line_x =? len line_y)%Z) with false. cbv iota.
  change (len line_x <? 2)%Z with false. cbv iota.
  cbn [end_point bind].
  rewrite line_prelude by lra. cbn [bind].
  rewrite line_criterion. rewrite R_ltb_true by exact Hlong. cbn [bind].
  rewrite !line_leaf_init by lra. cbn [bind].
  unfold convexHullSearchValues, line_leaf at 1. cbn [_hullPoints].
  rewrite line_chord_values by lra. cbn [bind].
  cbn [union_search_values].
  unfold convexHullSearchValues, line_leaf at 1. cbn [_hullPoints].
  rewrite line_chord_values by lra. cbn [bind].
  unfold py_min2, py_max2. cbn [sv0 sv1 sv2 sv3 flt fgt RArith].
  decide_real'. reflexivity.
Qed.

Lemma up_node_init (fuel : nat) (ts te : R) :
  26 / 100 < te - ts -> te - ts <= 52 / 100 ->
  CenterCurveSegment_init (S (S fuel)) up_x up_y 1 1 (1 / 1000) ts te
    (Some (2, 3 * ts)) (Some (2, 3 * te)) = Ok (up_node ts te).
Proof.
  intros Hlong Hshort. rewrite init_unfold.
  change (negb (len up_x =? len up_y)%Z) with false. cbv iota.
  change (len up_x <? 2)%Z with false. cbv iota.
  cbn [end_point bind].
  rewrite up_prelude by lra. cbn [bind].
  rewrite up_criterion. rewrite R_ltb_true by exact Hlong. cbn [bind].
  rewrite !up_leaf_init by lra. cbn [bind].
  unfold convexHullSearchValues, up_leaf at 1. cbn [_hullPoints].
  rewrite up_chord_values by lra. cbn [bind].
  cbn [union_search_values].
  unfold convexHullSearchValues, up_leaf at 1. cbn [_hullPoints].
  rewrite up_chord_values by lra. cbn [bind].
  unfold py_min2, py_max2, up_sv. cbn [sv0 sv1 sv2 sv3 flt fgt RArith].
  decide_real'. reflexivity.
Qed.

Lemma line_root_init :
  CenterCurveSegment_init 3 line_x line_y 1 1 (1 / 1000) 0 1 None None
  = Ok line_root.
Proof.
  rewrite init_unfold.
  change (negb (len line_x =? len line_y)%Z) with false. cbv iota.
  change (len line_x <? 2)%Z with false. cbv iota.
  unfold end_point. rewrite !line_point. cbn [bind].
  rewrite line_prelude by lra. cbn [bind].
  rewrite line_criterion. rewrite R_ltb_true by lra. cbn [bind].
  rewrite !line_node_init by lra. cbn [bind].
  eval_hull. cbn [union_search_values bind]. eval_hull.
  cbn [sv0 sv1 sv2 sv3 bind]. decide_real'.
  assert (Hm : (0 + 1) / 2 = 1 / 2) by lra. rewrite Hm.
  match goal with
  | |- Ok (mkCCS _ _ _ _ _ _ _ _ _ _ _ _ ?sv _) = _ =>
      replace sv with (line_sv 0 1) by (unfold line_sv; same_values)
  end.
  reflexivity.
Qed.

Lemma up_root_init :
  CenterCurveSegment_init 3 up_x up_y 1 1 (1 / 1000) 0 1 None None
  = Ok up_root.
Proof.
  rewrite init_unfold.
  change (negb (len up_x =? len up_y)%Z) with false. cbv iota.
  change (len up_x <? 2)%Z with false. cbv iota.
  unfold end_point. rewrite !up_point. cbn [bind].
  rewrite up_prelude by lra. cbn [bind].
  rewrite up_criterion. rewrite R_ltb_true by lra. cbn [bind].
  rewrite !up_node_init by lra. cbn [bind].
  eval_hull. cbn [union_search_values bind]. eval_hull.
  cbn [sv0 sv1 sv2 sv3 bind]. decide_real'.
  assert (Hm : (0 + 1) / 2 = 1 / 2) by lra. rewrite Hm.
  match goal with
  | |- Ok (mkCCS _ _ _ _ _ _ _ _ _ _ _ _ ?sv _) = _ =>
      replace sv with (up_sv 0 1) by (unfold up_sv; same_values)
  end.
  reflexivity.
Qed.

(** Terminal nodes of the two trees against each other. *)
Lemma leaves_apart_right (fuel : nat) (a b c d : R) :
  a < b -> c < d -> 2 < 3 * a ->
  intersectCenterCurveSegments (S fuel) (line_leaf a b) (up_leaf c d)
  = (line_leaf a b, Ok None).
Proof.
  intros Hab Hcd Ha.
  eapply intersect_apart_first.
  - eval_hull. reflexivity.
  - eval_apart. reflexivity.
Qed.

Lemma leaves_apart_below (fuel : nat) (a b c d : R) :
  a < b -> c < d -> 3 * a <= 2 -> 3 * d < 1 ->
  intersectCenterCurveSegments (S fuel) (line_leaf a b) (up_leaf c d)
  = (line_leaf a b, Ok None).
Proof.
  intros Hab Hcd Ha Hd.
  eapply intersect_apart_first.
  - eval_hull. reflexivity.
  - eval_apart. destruct (R_ltb _ _); reflexivity.
Qed.

Lemma leaves_meet (fuel : nat) (a b c d : R) :
  a < b -> c < d -> 3 * a <= 2 <= 3 * b -> 3 * c <= 1 <= 3 * d ->
  intersectCenterCurveSegments (S fuel) (line_leaf a b) (up_leaf c d)
  = (line_leaf a b, Ok (Some (2 / 3, 1 / 3))).
Proof.
  intros Hab Hcd Ha Hc.
  erewrite intersect_at_leaves.
  - f_equal. unfold intersect_leaves.
    cbn [_p_start _p_end _t_start _t_end line_leaf up_leaf fst snd
         fadd fsub fmul fopp fne f0 f1 fdiv RArith].
    assert (Hdet : (3 * b - 3 * a) * (3 * c - 3 * d) - (1 - 1) * (2 - 2) <> 0)
      by nra.
    unfold R_neb.
    destruct (Req_dec_T _ 0) as [E | _]; [contradiction|].
    rewrite !R_div_Ok by exact Hdet. cbn [bind].
    f_equal. f_equal. f_equal; field; lra.
  - eval_hull. reflexivity.
  - eval_apart. reflexivity.
  - eval_hull. reflexivity.
  - eval_apart. reflexivity.
  - reflexivity.
  - reflexivity.
Qed.

Lemma nodes_meet :
  intersectCenterCurveSegments 2 (line_node (1 / 2) 1) (up_node 0 (1 / 2))
  = (set_segments (line_node (1 / 2) 1)
       (Some [line_leaf ((1 / 2 + 1) / 2) 1;
              line_leaf (1 / 2) ((1 / 2 + 1) / 2)]),
     Ok (Some (2 / 3, 1 / 3))).
Proof.
  etransitivity.
  - eapply intersect_descends.
    + eval_hull. reflexivity.
    + eval_apart. reflexivity.
    + eval_hull. reflexivity.
    + eval_apart. reflexivity.
    + reflexivity.
    + reflexivity.
    + reflexivity.
    + reflexivity.
  - cbn [rev app outer_loop inner_loop].
    rewrite !leaves_apart_right by lra. cbv iota.
    rewrite leaves_apart_below by lra. cbv iota.
    rewrite leaves_meet by lra. reflexivity.
Qed.

(** The first halves of the two offset lines do not meet. *)
Lemma nodes_apart :
  intersectCenterCurveSegments 3 (line_node 0 (1 / 2)) (up_node 0 (1 / 2))
  = (line_node 0 (1 / 2), Ok None).
Proof.
  eapply intersect_apart_first.
  - eval_hull. reflexivity.
  - eval_apart. reflexivity.
Qed.

(** The search on the two trees of the right angle: the two offset lines
    meet at (2, 1), at the parameters 2/3 and 1/3. *)
Lemma roots_meet :
  intersectCenterCurveSegments 3 line_root up_root
  = (line_root_searched, Ok (Some (2 / 3, 1 / 3))).
Proof.
  etransitivity.
  - eapply intersect_descends.
    + eval_hull. reflexivity.
    + eval_apart. reflexivity.
    + eval_hull. reflexivity.
    + eval_apart. reflexivity.
    + reflexivity.
    + reflexivity.
    + reflexivity.
    + reflexivity.
  - cbn [rev app outer_loop inner_loop].
    rewrite nodes_meet. reflexivity.
Qed.

Lemma right_angle_trees :
  corner_trees 3 unit_radius (mkNode (0, 0) (0, 0) (1, 0))
               (mkNode (2, 0) (3, 0) (3, 1)) (mkNode (3, 2) (3, 3) (3, 3))
  = Ok (line_root, up_root).
Proof.
  unfold corner_trees, corner_side.
  cbn [nd0 nd1 nd2 fst snd fsub fmul fgt fopp f0 f1 lit_0_001 RArith
       radius unit_radius].
  decide_real'.
  change [0; 1; 2; 3] with line_x. change [0; 0; 0; 0] with line_y.
  change [3; 3; 3; 3] with up_x. change [0; 1; 2; 3] with up_y.
  rewrite line_root_init. cbn [bind].
  change line_x with up_y at 1.
  rewrite up_root_init. reflexivity.
Qed.

Lemma right_angle_search :
  corner_search 3 unit_radius right_angle_sp 1
  = Ok (unit_radius,
        Some (mkCorner 0 2 (mkNode (0, 0) (0, 0) (1, 0))
                       (mkNode (2, 0) (3, 0) (3, 1))
                       (mkNode (3, 2) (3, 3) (3, 3))
                       line_root_searched (Some (2 / 3, 1 / 3)))).
Proof.
  assert (Hi : (0 < 1 < len right_angle_sp - 1)%Z) by (split; [lia | reflexivity]).
  destruct (super_node_inner_real unit_radius right_angle_sp Hi)
    as (sn & node0 & Esn & Ep & En).
  unfold corner_search. rewrite Esn. cbn [bind]. rewrite Ep, En.
  change (py_index right_angle_sp (1 - 1)) with (Ok (mkNode (0, 0) (0, 0) (1, 0))).
  change (py_index right_angle_sp (1 + 1)) with (Ok (mkNode (3, 2) (3, 3) (3, 3))).
  change (py_index right_angle_sp 1) with (Ok (mkNode (2, 0) (3, 0) (3, 1))).
  cbn [bind]. rewrite right_angle_trees. cbn [bind].
  rewrite roots_meet. reflexivity.
Qed.

(** The fit: the vertex is replaced by the two ends of a quarter of the
    circle around (2, 1). *)
Lemma right_angle_fit :
  exists sp',
    subpath_round_corner 3 unit_radius right_angle_sp 1 = Ok (unit_radius, sp').
Proof.
  unfold subpath_round_corner. rewrite right_angle_search.
  cbn [bind c_t c_s1 c_prev_idx c_next_idx c_prev_node c_node c_next_node].
  unfold fit_corner, calculate_center_point.
  cbn [_x _y _side _radius line_root_searched line_root set_segments fst snd].
  rewrite line_point. cbn [bind].
  unfold split_bezier_curve.
  cbn [nd0 nd1 nd2 fst snd fsub fadd fmul f1 RArith].
  change (py_update right_angle_sp 0 ?f)
    with (Ok [f (mkNode (0, 0) (0, 0) (1, 0)); mkNode (2, 0) (3, 0) (3, 1);
              mkNode (3, 2) (3, 3) (3, 3)]).
  cbn [bind].
  match goal with
  | |- context [py_update [?a; ?b; ?c] 2 ?f] =>
      change (py_update [a; b; c] 2 f) with (Ok [a; b; f c])
  end.
  cbn [bind]. unfold arc_bezier_handles.
  cbn [fsqrt fdiv fsub fadd fmul f2 RArith].
  rewrite R_sqrt_Ok by lra. cbn [bind].
  rewrite R_div_Ok by lra. cbn [bind Z.eqb].
  eexists. reflexivity.
Qed.

End RealRunCorner.

(** ** Properties of the code beyond the claims *)

Section Properties.
Import Run.
Local Open Scope float_scope.

(** X1.  In every node of a tree [__init__] returns, [_terminalSegments] is the
    number of terminal nodes below the node (the node itself when it is
    terminal), and it is 1 exactly when the node has no children: the test
    [_terminalSegments == 1] of [intersectCenterCurveSegments] tells the
    terminal nodes from the others. *)
Theorem terminalSegments_counts_the_terminal_nodes
    (F : Type) (AF : Arith F) (fuel : nat) (x y : list F)
    (side radius eps ts te : F) (pso peo : option point)
    (s : CenterCurveSegment) :
  CenterCurveSegment_init fuel x y side radius eps ts te pso peo = Ok s ->
  forall n, In n (subnodes s) ->
    _terminalSegments n = len (leaves n)
    /\ (_terminalSegments n =? 1)%Z = is_terminal n.
Proof.
  intros Hinit n Hin.
  apply init_built in Hinit. destruct Hinit as (ps & pe & _ & _ & B).
  destruct (subnodes_built B n Hin) as (ts' & te' & ps' & pe' & Bn).
  destruct (built_count Bn) as [Hcount _]. split; [exact Hcount|].
  destruct Bn as [ts0 te0 ps0 pe0 d t_mid p_mid est v Hl Hl2 Hpre Hsub Hv
                 |ts0 te0 ps0 pe0 d t_mid p_mid est c1 c2 first v Hl Hl2 Hpre Hsub
                    B1 B2 Hfirst Hv].
  - reflexivity.
  - apply built_count in B1, B2. destruct B1 as [_ G1], B2 as [_ G2].
    cbn [_terminalSegments map fold_left is_terminal _segments].
    apply Z.eqb_neq. lia.
Qed.

Lemma terminalSegments_counts_the_terminal_nodes_witness :
  exists s : @CenterCurveSegment float,
    CenterCurveSegment_init fuel [-30; -20; -10; 0]%float [0; 0; 0; 0]%float
      1%float 2%float 0.001%float 0%float 1%float None None = Ok s
    /\ forall n, In n (subnodes s) ->
         _terminalSegments n = len (leaves n)
         /\ (_terminalSegments n =? 1)%Z = is_terminal n.
Proof.
  destruct (CenterCurveSegment_init fuel [-30; -20; -10; 0]%float
              [0; 0; 0; 0]%float 1%float 2%float 0.001%float 0%float 1%float
              None None) as [s | e | ] eqn:E.
  - exists s. split; [reflexivity|].
    exact (@terminalSegments_counts_the_terminal_nodes _ _ _ _ _ _ _ _ _ _ _ _ _ E).
  - vm_compute in E. discriminate E.
  - vm_compute in E. discriminate E.
Defined.

(** X2.  Below every node of a tree [__init__] returns, the terminal nodes
    follow each other without a gap: the first one starts at the
    parameter and point at which the node starts, each next one starts at
    the parameter and point at which the one before it ends, and the last
    one ends where the node ends.  The chords the search intersects form
    one polyline over the whole range of the root. *)
Theorem terminal_chords_are_chained
    (F : Type) (AF : Arith F) (fuel : nat) (x y : list F)
    (side radius eps ts te : F) (pso peo : option point)
    (s : CenterCurveSegment) :
  CenterCurveSegment_init fuel x y side radius eps ts te pso peo = Ok s ->
  _t_start s = ts /\ _t_end s = te
  /\ forall n, In n (subnodes s) ->
       chained (_t_start n) (_p_start n) (_t_end n) (_p_end n) (leaves n).
Proof.
  intros Hinit.
  apply init_built in Hinit. destruct Hinit as (ps & pe & _ & _ & B).
  destruct (built_fields B) as (_ & _ & _ & _ & _ & Ets & Ete & _ & _).
  split; [exact Ets|]. split; [exact Ete|].
  intros n Hin.
  destruct (subnodes_built B n Hin) as (ts' & te' & ps' & pe' & Bn).
  destruct (built_fields Bn) as (_ & _ & _ & _ & _ & -> & -> & -> & ->).
  apply built_chained in Bn. exact Bn.
Qed.

Lemma terminal_chords_are_chained_witness :
  exists s : @CenterCurveSegment float,
    CenterCurveSegment_init fuel [-30; -20; -10; 0]%float [0; 0; 0; 0]%float
      1%float 2%float 0.001%float 0%float 1%float None None = Ok s
    /\ _t_start s = 0%float /\ _t_end s = 1%float
    /\ forall n, In n (subnodes s) ->
         chained (_t_start n) (_p_start n) (_t_end n) (_p_end n) (leaves n).
Proof.
  destruct (CenterCurveSegment_init fuel [-30; -20; -10; 0]%float
              [0; 0; 0; 0]%float 1%float 2%float 0.001%float 0%float 1%float
              None None) as [s | e | ] eqn:E.
  - exists s. split; [reflexivity|].
    exact (@terminal_chords_are_chained _ _ _ _ _ _ _ _ _ _ _ _ _ E).
  - vm_compute in E. discriminate E.
  - vm_compute in E. discriminate E.
Defined.

(** X8.  Whatever [intersectCenterCurveSegments] returns or raises, for any two
    objects and any arithmetic: of the first tree it changes nothing but
    the order of lists of children.  The root keeps every field other
    than [_segments], and the terminal nodes of the tree after the call
    are those before it, in another order.  (The second tree is not
    written at all.) *)
Theorem search_only_reorders_the_first_tree
    (F : Type) (AF : Arith F) (fuel : nat)
    (segment1 segment2 : @CenterCurveSegment F) :
  let segment1' := fst (intersectCenterCurveSegments fuel segment1 segment2) in
  same_geometry segment1 segment1'
  /\ Permutation (leaves segment1) (leaves segment1').
Proof.
  pose proof (intersect_reordered fuel segment1 segment2) as H.
  split; [apply reordered_geometry | apply reordered_leaves]; exact H.
Qed.

(** X13.  [subpath_round_corner] on the last node of a subpath, and on the first
    node of a subpath whose last node is not very close to the first one
    (an open subpath): the subpath comes back as it is and
    [skipped_degenerated] is one more; nothing is raised, whatever the
    radius and the shape. *)
Theorem path_ends_are_skipped_and_counted
    (F : Type) (AF : Arith F) (fuel : nat) (self : @RoundedCorners F)
    (sp : list (@Node F)) :
  (forall node_idx, (0 <= node_idx)%Z -> node_idx = (len sp - 1)%Z ->
     subpath_round_corner fuel self sp node_idx
     = Ok (incr_skipped_degenerated self, sp))
  /\ (forall first last,
        py_index sp 0 = Ok first -> py_index sp (len sp - 1) = Ok last ->
        very_close first last = false ->
        subpath_round_corner fuel self sp 0
        = Ok (incr_skipped_degenerated self, sp)).
Proof.
  split.
  - intros node_idx H0 Hl. apply subpath_round_corner_skip.
    apply super_node_last; assumption.
  - intros first last E0 El Hc. apply subpath_round_corner_skip.
    eapply super_node_open_first; eassumption.
Qed.

Lemma path_ends_are_skipped_and_counted_witness :
  subpath_round_corner fuel (effect_prologue 0.5 2) corner_sp 2
  = Ok (incr_skipped_degenerated (effect_prologue 0.5 2), corner_sp)
  /\ subpath_round_corner fuel (effect_prologue 0.5 2) corner_sp 0
     = Ok (incr_skipped_degenerated (effect_prologue 0.5 2), corner_sp).
Proof.
  split.
  - apply (proj1 (@path_ends_are_skipped_and_counted float FloatArith fuel
                    (effect_prologue 0.5 2) corner_sp)).
    + lia.
    + reflexivity.
  - apply (proj2 (@path_ends_are_skipped_and_counted float FloatArith fuel
                    (effect_prologue 0.5 2) corner_sp)
                 (mkNode (pt (-30) 0) (pt (-30) 0) (pt (-20) 0))
                 (mkNode (pt 0 2) (pt 0 3) (pt 0 3))).
    + reflexivity.
    + reflexivity.
    + vm_compute. reflexivity.
Defined.

(** X12.  Every node [find_roundable_nodes] selects is a node [super_node]
    accepts: it lies in a subpath of at least three nodes, it is not the
    last node, and when [super_node] returns for it, it returns a
    supernode and leaves [skipped_degenerated] as it is. *)
Theorem roundable_nodes_are_accepted
    (F : Type) (AF : Arith F) (csp : list (list (@Node F)))
    (l : list (Z * Z)) (sp_idx idx : Z) :
  find_roundable_nodes_of csp = Ok l -> In (sp_idx, idx) l ->
  exists sp,
    py_index csp sp_idx = Ok sp
    /\ (3 <= len sp)%Z /\ (0 <= idx < len sp - 1)%Z
    /\ forall (self self' : RoundedCorners) (found : option (SuperNode * Node)),
         super_node self sp idx = Ok (self', found) ->
         self' = self /\ found <> None.
Proof.
  unfold find_roundable_nodes_of. intros H Hin.
  destruct (@find_roundable_nodes_from_in _ _ _ _ _ _ _ H Hin)
    as (Hle & sp & here & Hn & Hr & Hi).
  exists sp. split.
  - unfold py_index.
    destruct (sp_idx <? 0)%Z eqn:E; [apply Z.ltb_lt in E; lia|]. rewrite E.
    rewrite Z.sub_0_r in Hn. rewrite Hn. reflexivity.
  - eapply roundable_indices_accepted; eassumption.
Qed.

Lemma roundable_nodes_are_accepted_witness :
  exists sp,
    py_index [line_sp; corner_sp] 1 = Ok sp
    /\ (3 <= len sp)%Z /\ (0 <= 1 < len sp - 1)%Z
    /\ forall (self self' : @RoundedCorners float)
              (found : option (SuperNode * Node)),
         super_node self sp 1 = Ok (self', found) ->
         self' = self /\ found <> None.
Proof.
  apply (@roundable_nodes_are_accepted float FloatArith [line_sp; corner_sp]
           [(0, 1); (1, 1)]%Z 1 1).
  - vm_compute. reflexivity.
  - right. left. reflexivity.
Defined.

(** X15.  When [subpath_round_corner] returns for a node that is neither the
    first nor the last one of the subpath, the object is as before and the
    subpath either comes back as it is or has changed at three places
    only: the vertex is replaced by two nodes, the node before it has got
    another outgoing handle and the node after it another incoming
    handle.  Every other node keeps its place relative to the ends of the
    list and its three points, and the two neighbours keep their point
    and their other handle.  The new handles are the control points [p1]
    and [n2] of [split_bezier_curve]: the incoming segment of the result
    is the first half [P0, p1, p2, P] of the split at [t[0]], the outgoing
    one the second half [N, n1, n2, P3] of the split at [t[1]]. *)
Theorem fit_changes_three_nodes
    (F : Type) (AF : Arith F) (fuel : nat) (self self' : @RoundedCorners F)
    (sp sp' : list (@Node F)) (node_idx : Z) :
  (0 < node_idx < len sp - 1)%Z ->
  subpath_round_corner fuel self sp node_idx = Ok (self', sp') ->
  self' = self
  /\ (sp' = sp
      \/ exists pre prev node next post t,
           sp = pre ++ [prev; node; next] ++ post
           /\ len pre = (node_idx - 1)%Z
           /\ let '((_, p1, p2, P), _) :=
                split_bezier_curve (nd1 prev) (nd2 prev) (nd0 node) (nd1 node)
                                   (fst t) in
              let '(_, (N, n1, n2, _)) :=
                split_bezier_curve (nd1 node) (nd2 node) (nd0 next) (nd1 next)
                                   (snd t) in
              exists c1 c2,
                sp' = pre ++ [set_nd2 prev p1; mkNode p2 P c1;
                              mkNode c2 N n1; set_nd0 next n2] ++ post).
Proof.
  intros Hi H. apply subpath_round_corner_cases in H.
  destruct H as (found & Hs & Hcase).
  destruct found as [c|].
  - destruct (@corner_search_inner _ _ _ _ _ _ _ _ Hi Hs)
      as (-> & Ep & En & Eprev & Enode & Enext & _).
    split; [reflexivity|].
    destruct (c_t c) as [t|]; [|left; exact Hcase]. right.
    destruct (@split_around _ sp node_idx Hi) as (pre & a & b & d & post & -> & Hpre).
    assert (Ha : c_prev_node c = a).
    { rewrite (py_index_app_mid pre ([b; d] ++ post) a) in Eprev by lia.
      injection Eprev as <-. reflexivity. }
    assert (Hb : c_node c = b).
    { change (pre ++ [a; b; d] ++ post) with (pre ++ [a] ++ b :: d :: post) in Enode.
      rewrite app_assoc in Enode.
      rewrite (py_index_app_mid (pre ++ [a]) (d :: post) b) in Enode
        by (unfold len in *; rewrite length_app; cbn [length]; lia).
      injection Enode as <-. reflexivity. }
    assert (Hd : c_next_node c = d).
    { change (pre ++ [a; b; d] ++ post) with (pre ++ [a; b] ++ d :: post) in Enext.
      rewrite app_assoc in Enext.
      rewrite (py_index_app_mid (pre ++ [a; b]) post d) in Enext
        by (unfold len in *; rewrite length_app; cbn [length]; lia).
      injection Enext as <-. reflexivity. }
    rewrite Ep, En, Ha, Hb, Hd in Hcase.
    exists pre, a, b, d, post, t. split; [reflexivity|]. split; [exact Hpre|].
    eapply fit_corner_inner; eassumption.
  - exfalso. unfold corner_search in Hs.
    apply bind_Ok_inv in Hs. destruct Hs as ([self1 found] & Esn & Hs).
    eapply super_node_inner in Esn; [|exact Hi].
    destruct Esn as (_ & sn & node0 & -> & _).
    inv_bind Hs.
    match goal with a : (_ * _)%type |- _ => destruct a as [s1 s2] end.
    destruct (intersectCenterCurveSegments fuel s1 s2) as [s1' ret].
    inv_bind Hs. discriminate Hs.
Qed.

Lemma fit_changes_three_nodes_witness :
  exists self' sp',
    subpath_round_corner fuel (effect_prologue 2 1) corner_sp 1 = Ok (self', sp')
    /\ self' = effect_prologue 2 1
    /\ (sp' = corner_sp
        \/ exists pre prev node next post t,
             corner_sp = pre ++ [prev; node; next] ++ post
             /\ len pre = (1 - 1)%Z
             /\ let '((_, p1, p2, P), _) :=
                  split_bezier_curve (nd1 prev) (nd2 prev) (nd0 node) (nd1 node)
                                     (fst t) in
                let '(_, (N, n1, n2, _)) :=
                  split_bezier_curve (nd1 node) (nd2 node) (nd0 next) (nd1 next)
                                     (snd t) in
                exists c1 c2,
                  sp' = pre ++ [set_nd2 prev p1; mkNode p2 P c1;
                                mkNode c2 N n1; set_nd0 next n2] ++ post).
Proof.
  destruct (subpath_round_corner fuel (effect_prologue 2 1) corner_sp 1)
    as [[self' sp'] | e | ] eqn:E.
  - exists self', sp'. split; [reflexivity|].
    apply (@fit_changes_three_nodes float FloatArith fuel (effect_prologue 2 1)
             self' corner_sp sp' 1); [|exact E].
    split; [lia | reflexivity].
  - vm_compute in E. discriminate E.
  - vm_compute in E. discriminate E.
Defined.

(** X14.  An index beyond the subpath, on either side, makes
    [subpath_round_corner] raise [IndexError] before anything is
    computed; an empty subpath does so for every index. *)
Theorem index_out_of_range_raises
    (F : Type) (AF : Arith F) (fuel : nat) (self : @RoundedCorners F)
    (sp : list (@Node F)) (node_idx : Z) :
  (len sp <= node_idx \/ node_idx < - len sp)%Z ->
  subpath_round_corner fuel self sp node_idx = Raise IndexError.
Proof.
  intros H. unfold subpath_round_corner, corner_search, super_node.
  rewrite (py_index_out sp H). reflexivity.
Qed.

Lemma index_out_of_range_raises_witness :
  subpath_round_corner fuel (effect_prologue 0.5 1) corner_sp 3
  = Raise IndexError.
Proof.
  apply (@index_out_of_range_raises float FloatArith fuel (effect_prologue 0.5 1)
           corner_sp 3).
  left. vm_compute. discriminate.
Defined.

End Properties.

(** ** Properties in exact arithmetic beyond the claims *)

Section RealProperties.
Local Open Scope R_scope.

(** X4.  In exact arithmetic, the point [calculate_center_point] returns for a
    side of 1 or -1 lies at the distance |radius| from the point of the
    curve at [t], on the normal of the curve there: on the left of the
    direction of the curve for side*radius > 0.  (For a radius of 0 it is
    the point of the curve.) *)
Theorem centre_is_offset_along_the_normal
    (x y : list R) (side radius t : R) (C : Rpoint) :
  calculate_center_point_of x y side radius t = Ok C ->
  side * side = 1 ->
  exists B T,
    curve_point_and_tangent x y t = Ok (B, T)
    /\ distance C B = Rabs radius
    /\ dot (vsub C B) T = 0
    /\ C = vadd B (vscale (side * radius / sqrt (dot T T)) (rot90 T)).
Proof.
  intros H Hside. apply calculate_center_point_real in H.
  destruct H as (B & T & Hc & Hn & ->).
  exists B, T. split; [exact Hc|]. split; [|split; [|reflexivity]].
  - rewrite offset_distance by exact Hn.
    rewrite Rabs_mult.
    assert (Hs : Rabs side = 1).
    { pose proof (Rabs_pos side) as Hp.
      assert (Hsq : Rabs side * Rabs side = 1).
      { rewrite <- Rabs_mult, Hside. apply Rabs_R1. }
      nra. }
    rewrite Hs. ring.
  - apply offset_perpendicular.
Qed.

Lemma centre_is_offset_along_the_normal_witness :
  exists B T,
    curve_point_and_tangent line_x line_y (1 / 3) = Ok (B, T)
    /\ distance (3 * (1 / 3), 1) B = Rabs 1
    /\ dot (vsub (3 * (1 / 3), 1) B) T = 0
    /\ (3 * (1 / 3), 1) = vadd B (vscale (1 * 1 / sqrt (dot T T)) (rot90 T)).
Proof.
  assert (Hside : 1 * 1 = 1) by lra.
  exact (@centre_is_offset_along_the_normal line_x line_y 1 1 (1 / 3)
           (3 * (1 / 3), 1) (line_point (1 / 3)) Hside).
Defined.

(** X5.  [split_bezier_curve] splits without changing the curve (exact
    arithmetic).  The first half starts at [p0], the second ends at [p3],
    and they join at the point of the curve at [t].  The curve of the
    first half at [s] is the curve at [s*t], the curve of the second half
    at [s] is the curve at [t + s*(1 - t)]; the point of the curve at [t]
    is the Bernstein form of the four control points. *)
Theorem split_halves_trace_the_curve (p0 p1 p2 p3 : Rpoint) (t s : R) :
  let '((a0, a1, a2, a3), (b0, b1, b2, b3)) := split_bezier_curve p0 p1 p2 p3 t in
  a0 = p0 /\ b3 = p3 /\ a3 = b0 /\ a3 = split_point p0 p1 p2 p3 t
  /\ split_point a0 a1 a2 a3 s = split_point p0 p1 p2 p3 (s * t)
  /\ split_point b0 b1 b2 b3 s = split_point p0 p1 p2 p3 (t + s * (1 - t))
  /\ split_point p0 p1 p2 p3 t
     = vadd (vadd (vscale ((1 - t) * (1 - t) * (1 - t)) p0)
                  (vscale (3 * (1 - t) * (1 - t) * t) p1))
            (vadd (vscale (3 * (1 - t) * t * t) p2)
                  (vscale (t * t * t) p3)).
Proof.
  destruct p0 as [x0 y0], p1 as [x1 y1], p2 as [x2 y2], p3 as [x3 y3].
  unfold split_point, split_bezier_curve, vadd, vscale.
  cbn [fst snd fsub fadd fmul f1 RArith].
  repeat split; try reflexivity; apply f_equal2; ring.
Qed.

(** X9.  In exact arithmetic, the parameters [intersectCenterCurveSegments]
    returns are those of the point at which two chords meet as lines: there
    are a node [a] of the first tree (as the call leaves it) and a node
    [b] of the second, both counting one terminal segment, and two
    numbers [k1], [k2], such that the point at [k1] on the line through
    the end points of [a] is the point at [k2] on the line through the
    end points of [b], and the result is the pair of the parameters at
    [k1] and [k2] between the ends of the two ranges.  (Nothing makes
    [k1] and [k2] lie between 0 and 1.) *)
Theorem search_returns_a_meeting_point_of_two_chord_lines
    (fuel : nat) (segment1 segment2 segment1' : Rsegment) (u v : R) :
  intersectCenterCurveSegments fuel segment1 segment2
  = (segment1', Ok (Some (u, v))) ->
  exists a b k1 k2,
    In a (subnodes segment1') /\ In b (subnodes segment2)
    /\ _terminalSegments a = 1%Z /\ _terminalSegments b = 1%Z
    /\ u = (1 - k1) * _t_start a + k1 * _t_end a
    /\ v = (1 - k2) * _t_start b + k2 * _t_end b
    /\ vadd (_p_start a) (vscale k1 (vsub (_p_end a) (_p_start a)))
       = vadd (_p_start b) (vscale k2 (vsub (_p_end b) (_p_start b))).
Proof.
  intros H. apply intersect_hit in H.
  destruct H as (a & b & Ha & Hb & Ta & Tb & Hleaf).
  apply intersect_leaves_real in Hleaf.
  destruct Hleaf as (k1 & k2 & Hu & Hv & Hmeet).
  exists a, b, k1, k2. repeat split; assumption.
Qed.

(** X18.  A corner whose incoming segment leaves the node before the vertex
    without a handle (the way a straight line is stored: the outgoing
    handle of the node is the node) cannot be rounded: in exact
    arithmetic [subpath_round_corner] raises [ZeroDivisionError] for every
    vertex that is neither the first nor the last node, whatever the
    radius.  The direction of that segment at its start is the zero
    vector, and [calculate_center_point] divides by its length when the
    constructor of the first tree asks for the offset point at 0. *)
Theorem handleless_incoming_segment_raises
    (fuel : nat) (self : @RoundedCorners R) (sp : list (@Node R))
    (node_idx : Z) (prev : @Node R) :
  (0 < node_idx < len sp - 1)%Z ->
  py_index sp (node_idx - 1) = Ok prev ->
  nd2 prev = nd1 prev ->
  subpath_round_corner (S fuel) self sp node_idx = Raise ZeroDivisionError.
Proof.
  intros Hi Eprev Hhandle.
  destruct (super_node_inner_real self sp Hi) as (sn & node0 & Esn & Ep & En).
  unfold subpath_round_corner, corner_search. rewrite Esn. cbn [bind].
  rewrite Ep, En, Eprev. cbn [bind].
  destruct (py_index_Ok sp (i := (node_idx + 1)%Z)) as (next & ->); [lia|].
  destruct (py_index_Ok sp (i := node_idx)) as (node & ->); [lia|].
  cbn [bind]. unfold corner_trees. rewrite init_unfold.
  change (negb (len [fst (nd1 prev); fst (nd2 prev); fst (nd0 node); fst (nd1 node)]
                =? len [snd (nd1 prev); snd (nd2 prev); snd (nd0 node); snd (nd1 node)])%Z)
    with false. cbv iota.
  change (len [fst (nd1 prev); fst (nd2 prev); fst (nd0 node); fst (nd1 node)] <? 2)%Z
    with false. cbv iota.
  unfold end_point at 1. rewrite Hhandle.
  change (@f0 R RArith) with 0.
  rewrite calculate_center_point_no_handle. reflexivity.
Qed.

(** A polygon of straight lines: no node has a handle. *)
Lemma handleless_incoming_segment_raises_witness :
  subpath_round_corner 1 (mkRC 1 (98 / 100) 0%Z 0%Z (10 ^ 99))
    [ mkNode (0, 0) (0, 0) (0, 0);
      mkNode (3, 0) (3, 0) (3, 0);
      mkNode (3, 3) (3, 3) (3, 3) ] 1
  = Raise ZeroDivisionError.
Proof.
  apply (@handleless_incoming_segment_raises 0
           (mkRC 1 (98 / 100) 0%Z 0%Z (10 ^ 99))
           [ mkNode (0, 0) (0, 0) (0, 0);
             mkNode (3, 0) (3, 0) (3, 0);
             mkNode (3, 3) (3, 3) (3, 3) ] 1
           (mkNode (0, 0) (0, 0) (0, 0))).
  - split; [lia | reflexivity].
  - reflexivity.
  - reflexivity.
Defined.

(** X3.  In exact arithmetic [__init__] raises [ZeroDivisionError] when the
    offset points at the two ends of the range coincide (a range of
    length 0, for one): the search direction is the vector between them
    divided by its length. *)
Theorem coinciding_end_points_raise
    (fuel : nat) (x y : list R) (side radius eps ts te : R)
    (pso peo : option Rpoint) (p : Rpoint) :
  len x = len y -> (2 <= len x)%Z ->
  end_point x y side radius ts pso = Ok p ->
  end_point x y side radius te peo = Ok p ->
  CenterCurveSegment_init (S fuel) x y side radius eps ts te pso peo
  = Raise ZeroDivisionError.
Proof.
  intros Hlen Hlen2 Es Ee. rewrite init_unfold.
  rewrite Hlen, Z.eqb_refl. cbn [negb].
  destruct (len y <? 2)%Z eqn:E; [apply Z.ltb_lt in E; lia|].
  rewrite Es, Ee. cbn [bind].
  rewrite node_prelude_no_chord. reflexivity.
Qed.

Lemma coinciding_end_points_raise_witness :
  CenterCurveSegment_init 1 line_x line_y 1 1 (1 / 1000) (1 / 3) (1 / 3)
    None None
  = Raise ZeroDivisionError.
Proof.
  apply (@coinciding_end_points_raise 0 line_x line_y 1 1 (1 / 1000)
           (1 / 3) (1 / 3) None None (3 * (1 / 3), 1)).
  - reflexivity.
  - vm_compute. discriminate.
  - exact (line_point (1 / 3)).
  - exact (line_point (1 / 3)).
Defined.

(** X6.  In exact arithmetic, the handles [arc_bezier_handles] returns are
    perpendicular to the radii: [h1 - P] to [P - C] and [h2 - N] to
    [N - C], so the cubic [P, h1, h2, N] leaves [P] and reaches [N] along
    the tangents of the circles around [C] through them.  When [P] and
    [N] are at the same distance from [C], the middle of that cubic (its
    point at 1/2) lies on the circle around [C] through [P] and [N]. *)
Theorem arc_is_tangent_and_its_middle_is_on_the_circle
    (P N C h1 h2 : Rpoint) :
  arc_bezier_handles P N C = Ok (h1, h2) ->
  dot (vsub h1 P) (vsub P C) = 0
  /\ dot (vsub h2 N) (vsub N C) = 0
  /\ (distance N C = distance P C ->
      distance (split_point P h1 h2 N (1 / 2)) C = distance P C).
Proof.
  intros H.
  pose proof (arc_handles_square _ _ _ H) as (Hcross & Hk & Hs).
  apply arc_bezier_handles_real in H. destruct H as [-> ->].
  split; [|split].
  - unfold dot, vsub, vadd, vscale, rot90. cbn [fst snd]. ring.
  - unfold dot, vsub, vadd, vscale, rot90. cbn [fst snd]. ring.
  - intros Hd.
    assert (Hsq : forall p q : Rpoint,
               distance p q = sqrt (dot (vsub p q) (vsub p q))) by reflexivity.
    assert (Hpos : forall p : Rpoint, 0 <= dot p p) by (intros p; unfold dot; nra).
    rewrite !Hsq in Hd |- *.
    apply sqrt_inj in Hd; try apply Hpos.
    f_equal.
    exact (@arc_middle_square P N C (k2_of P N C) _ Hd Hcross Hk Hs).
Qed.

(** A quarter of the circle of radius 1 around (2, 1). *)
Lemma arc_is_tangent_and_its_middle_is_on_the_circle_witness :
  exists h1 h2 : Rpoint,
    arc_bezier_handles (2, 0) (3, 1) (2, 1) = Ok (h1, h2)
    /\ dot (vsub h1 (2, 0)) (vsub (2, 0) (2, 1)) = 0
    /\ dot (vsub h2 (3, 1)) (vsub (3, 1) (2, 1)) = 0
    /\ (distance (3, 1) (2, 1) = distance (2, 0) (2, 1) ->
        distance (split_point (2, 0) h1 h2 (3, 1) (1 / 2)) (2, 1)
        = distance (2, 0) (2, 1)).
Proof.
  assert (H : exists h1 h2 : Rpoint,
             arc_bezier_handles (2, 0) (3, 1) (2, 1) = Ok (h1, h2)).
  { unfold arc_bezier_handles. cbn [fsqrt fdiv fsub fadd fmul f2 RArith].
    rewrite R_sqrt_Ok by lra. cbn [bind].
    rewrite R_div_Ok by lra. cbn [bind].
    eexists _, _. reflexivity. }
  destruct H as (h1 & h2 & H).
  exists h1, h2. split; [exact H|].
  exact (@arc_is_tangent_and_its_middle_is_on_the_circle _ _ _ _ _ H).
Defined.

(** X7.  In exact arithmetic [arc_bezier_handles] returns nothing when [P],
    [N] and [C] lie on one line: it raises [ZeroDivisionError] (the cross
    product it divides by is 0) unless the square root has raised
    [ValueError] before.  For [P = N], and so for a corner whose two trim
    points are the vertex, it is [ZeroDivisionError]. *)
Theorem collinear_arc_points_raise (P N C : Rpoint) :
  (cross (vsub P C) (vsub N C) = 0 ->
   arc_bezier_handles P N C = Raise ZeroDivisionError
   \/ arc_bezier_handles P N C = Raise ValueError)
  /\ arc_bezier_handles P P C = Raise ZeroDivisionError.
Proof.
  destruct P as [x1 y1], N as [x4 y4], C as [xc yc].
  unfold cross, vsub, arc_bezier_handles.
  cbn [fst snd fsqrt fdiv fsub fadd fmul f2 RArith]. split.
  - intros Hc. unfold R_sqrt at 1 2.
    destruct (Rlt_dec _ 0); [right; reflexivity|]. left.
    cbn [bind]. rewrite R_div_zero by exact Hc. reflexivity.
  - pose proof (Rle_0_sqr (x1 - xc)) as Ha.
    pose proof (Rle_0_sqr (y1 - yc)) as Hb. unfold Rsqr in Ha, Hb.
    rewrite R_sqrt_Ok by (apply Rmult_le_pos; lra). cbn [bind].
    rewrite R_div_zero by ring. reflexivity.
Qed.

Lemma collinear_arc_points_raise_witness :
  (arc_bezier_handles (1, 0) (2, 0) (0, 0) = Raise ZeroDivisionError
   \/ arc_bezier_handles (1, 0) (2, 0) (0, 0) = Raise ValueError)
  /\ arc_bezier_handles (1, 0) (1, 0) (0, 0) = Raise ZeroDivisionError.
Proof.
  assert (Hc : cross (vsub (1, 0) (0, 0)) (vsub (2, 0) (0, 0)) = 0).
  { unfold cross, vsub. cbn [fst snd]. lra. }
  split.
  - exact (proj1 (collinear_arc_points_raise (1, 0) (2, 0) (0, 0)) Hc).
  - exact (proj2 (collinear_arc_points_raise (1, 0) (2, 0) (0, 0))).
Defined.

(** X21.  In exact arithmetic, the two points [arc_c_m_from_super_node]
    returns are as its docstring says: [c] is at the distance
    sqrt(radius**2 + trim**2) from the vertex [x, y], and [m] is at the
    distance |radius| from [c]. *)
Theorem arc_c_m_distances
    (self : @RoundedCorners R) (x y : R) (prev_trim_pt next_trim_pt : Rpoint)
    (trim : R) (c m : Rpoint) :
  arc_c_m_from_super_node self x y prev_trim_pt next_trim_pt trim = Ok (c, m) ->
  distance c (x, y) = sqrt (radius self * radius self + trim * trim)
  /\ distance c m = Rabs (radius self).
Proof.
  unfold arc_c_m_from_super_node. intros H.
  apply bind_Ok_inv in H. destruct H as (l & El & H).
  apply bind_Ok_inv in H. destruct H as (cdist & Ec & H).
  apply bind_Ok_inv in H. destruct H as (c0 & Ec0 & H).
  apply bind_Ok_inv in H. destruct H as (c1 & Ec1 & H).
  apply bind_Ok_inv in H. destruct H as (m0 & Em0 & H).
  apply bind_Ok_inv in H. destruct H as (m1 & Em1 & H).
  injection H as <- <-.
  apply R_sqrt_inv in El. destruct El as [Hlpos El].
  apply R_sqrt_inv in Ec. destruct Ec as [Hcpos Ec].
  apply R_div_inv in Ec0. destruct Ec0 as [Hl ->].
  apply R_div_inv in Ec1. destruct Ec1 as [_ ->].
  apply R_div_inv in Em0. destruct Em0 as [_ ->].
  apply R_div_inv in Em1. destruct Em1 as [_ ->].
  cbn [fst snd fsub fadd fmul RArith] in *.
  set (v0 := fst prev_trim_pt - x + (fst next_trim_pt - x)) in *.
  set (v1 := snd prev_trim_pt - y + (snd next_trim_pt - y)) in *.
  assert (Hll : l * l = v0 * v0 + v1 * v1).
  { rewrite El. apply sqrt_sqrt. exact Hlpos. }
  assert (Hc0 : 0 <= cdist) by (rewrite Ec; apply sqrt_pos).
  unfold distance. cbn [fst snd]. split.
  - rewrite <- Ec.
    transitivity (sqrt (cdist * cdist)); [|apply sqrt_square; exact Hc0].
    f_equal.
    transitivity (cdist * cdist * (v0 * v0 + v1 * v1) / (l * l));
      [field; exact Hl|].
    rewrite <- Hll. field. exact Hl.
  - rewrite <- sqrt_Rsqr_abs. f_equal. unfold Rsqr.
    transitivity (radius self * radius self * (v0 * v0 + v1 * v1) / (l * l));
      [field; exact Hl|].
    rewrite <- Hll. field. exact Hl.
Qed.

(** The right angle at the origin with the trim points (1, 0) and (0, 1),
    radius 1. *)
Lemma arc_c_m_distances_witness :
  exists c m : Rpoint,
    arc_c_m_from_super_node (mkRC 1 (98 / 100) 0%Z 0%Z (10 ^ 99)) 0 0
      (1, 0) (0, 1) 1 = Ok (c, m)
    /\ distance c (0, 0) = sqrt (1 * 1 + 1 * 1)
    /\ distance c m = Rabs 1.
Proof.
  assert (H : exists c m : Rpoint,
             arc_c_m_from_super_node (mkRC 1 (98 / 100) 0%Z 0%Z (10 ^ 99)) 0 0
               (1, 0) (0, 1) 1 = Ok (c, m)).
  { unfold arc_c_m_from_super_node.
    cbn [fst snd fsqrt fdiv fsub fadd fmul RArith radius].
    assert (Hs : sqrt ((1 - 0 + (0 - 0)) * (1 - 0 + (0 - 0))
                       + (0 - 0 + (1 - 0)) * (0 - 0 + (1 - 0))) <> 0).
    { apply Rgt_not_eq. apply sqrt_lt_R0. lra. }
    rewrite !R_sqrt_Ok by lra. cbn [bind].
    rewrite !R_div_Ok by exact Hs. cbn [bind].
    eexists _, _. reflexivity. }
  destruct H as (c & m & H).
  exists c, m. split; [exact H|].
  exact (@arc_c_m_distances _ _ _ _ _ _ _ _ H).
Defined.

End RealProperties.

(** ** The end of the search *)

Section SearchEndsProperty.
Import Run.

Lemma search_ends_within (F : Type) (AF : Arith F)
    (Hdiv : forall a b : F, fne b f0 = true -> exists c, fdiv a b = Ok c)
    (fuel1 fuel2 n : nat) (x1 y1 x2 y2 : list F)
    (side1 radius1 eps1 ts1 te1 side2 radius2 eps2 ts2 te2 : F)
    (pso1 peo1 pso2 peo2 : option point) (s1 s2 : CenterCurveSegment) :
  CenterCurveSegment_init fuel1 x1 y1 side1 radius1 eps1 ts1 te1 pso1 peo1 = Ok s1 ->
  CenterCurveSegment_init fuel2 x2 y2 side2 radius2 eps2 ts2 te2 pso2 peo2 = Ok s2 ->
  (fuel1 + fuel2 <= S n)%nat ->
  finished (snd (intersectCenterCurveSegments n s1 s2)).
Proof.
  intros I1 I2 Hn.
  pose proof (init_depth _ _ _ _ _ _ _ _ _ _ I1) as D1.
  pose proof (init_depth _ _ _ _ _ _ _ _ _ _ I2) as D2.
  eapply (search_ends Hdiv); [exact I1 | exact I2 | lia].
Qed.

(** X10.  On two trees [__init__] has returned, in exact arithmetic as in
    binary64, [intersectCenterCurveSegments] comes to an end: when the
    two constructions have needed no more than [fuel1] and [fuel2] nested
    calls, [fuel1 + fuel2 - 1] nested calls are enough for the search,
    and it ends by returning ([None] or a pair of parameters) or by
    raising the exception of the leaf case, "det = 0 case not implemented
    yet".  It raises nothing else: in particular the children lists and
    [_terminalSegments] agree, so that neither the attribute [_segments]
    nor the iteration over it fails. *)
Theorem search_comes_to_an_end :
  (forall (fuel1 fuel2 n : nat) (x1 y1 x2 y2 : list R)
          (side1 radius1 eps1 ts1 te1 side2 radius2 eps2 ts2 te2 : R)
          (pso1 peo1 pso2 peo2 : option Rpoint) (s1 s2 : Rsegment),
      CenterCurveSegment_init fuel1 x1 y1 side1 radius1 eps1 ts1 te1 pso1 peo1
      = Ok s1 ->
      CenterCurveSegment_init fuel2 x2 y2 side2 radius2 eps2 ts2 te2 pso2 peo2
      = Ok s2 ->
      (fuel1 + fuel2 <= S n)%nat ->
      finished (snd (intersectCenterCurveSegments n s1 s2)))
  /\
  (forall (fuel1 fuel2 n : nat) (x1 y1 x2 y2 : list float)
          (side1 radius1 eps1 ts1 te1 side2 radius2 eps2 ts2 te2 : float)
          (pso1 peo1 pso2 peo2 : option (@point float))
          (s1 s2 : @CenterCurveSegment float),
      CenterCurveSegment_init fuel1 x1 y1 side1 radius1 eps1 ts1 te1 pso1 peo1
      = Ok s1 ->
      CenterCurveSegment_init fuel2 x2 y2 side2 radius2 eps2 ts2 te2 pso2 peo2
      = Ok s2 ->
      (fuel1 + fuel2 <= S n)%nat ->
      finished (snd (intersectCenterCurveSegments n s1 s2))).
Proof.
  split.
  - intros. eapply (@search_ends_within R RArith fdiv_defined_real); eassumption.
  - intros. eapply (@search_ends_within float FloatArith fdiv_defined_float);
      eassumption.
Qed.

(** The tree of the line in exact arithmetic against itself, and the two
    trees of the right-angle corner in binary64. *)
Lemma search_comes_to_an_end_witness :
  (exists s : Rsegment,
      CenterCurveSegment_init 2 line_x line_y 1%R 1%R (1 / 1000)%R 0%R (1 / 2)%R
        None None = Ok s
      /\ finished (snd (intersectCenterCurveSegments 3 s s)))
  /\
  (exists s1 s2 : @CenterCurveSegment float,
      CenterCurveSegment_init fuel [-30; -20; -10; 0]%float [0; 0; 0; 0]%float
        1%float 2%float 0.001%float 0%float 1%float None None = Ok s1
      /\ CenterCurveSegment_init fuel [0; 0; 0; 0]%float [0; 1; 2; 3]%float
           1%float 2%float 0.001%float 0%float 1%float None None = Ok s2
      /\ finished (snd (intersectCenterCurveSegments 79 s1 s2))).
Proof.
  split.
  - destruct line_tree_init as (s & Hs & _).
    assert (Hn : (2 + 2 <= 4)%nat) by lia.
    exists s. split; [exact Hs|].
    exact (proj1 search_comes_to_an_end _ _ _ _ _ _ _ _ _ _ _ _ _ _ _ _ _ _
                 _ _ _ _ _ Hs Hs Hn).
  - destruct (CenterCurveSegment_init fuel [-30; -20; -10; 0]%float
                [0; 0; 0; 0]%float 1%float 2%float 0.001%float 0%float 1%float
                None None) as [s1 | e | ] eqn:E1.
    + destruct (CenterCurveSegment_init fuel [0; 0; 0; 0]%float
                  [0; 1; 2; 3]%float 1%float 2%float 0.001%float 0%float
                  1%float None None) as [s2 | e | ] eqn:E2.
      * assert (Hn : (fuel + fuel <= 80)%nat) by (vm_compute; lia).
        exists s1, s2. split; [reflexivity|]. split; [reflexivity|].
        exact (proj2 search_comes_to_an_end _ _ _ _ _ _ _ _ _ _ _ _ _ _ _ _ _
                     _ _ _ _ _ _ E1 E2 Hn).
      * vm_compute in E2. discriminate E2.
      * vm_compute in E2. discriminate E2.
    + vm_compute in E1. discriminate E1.
    + vm_compute in E1. discriminate E1.
Defined.

(** The corner of [corner_sp] with a radius too large for it: the search
    returns [None]. *)
Lemma subpath_round_corner_bookkeeping_witness :
  exists (self' : @RoundedCorners float) (sp' : list (@Node float)),
    subpath_round_corner fuel (effect_prologue 5%float 1) corner_sp 1
    = Ok (self', sp')
    /\ skipped_small_count self'
       = skipped_small_count (effect_prologue 5%float 1)
    /\ skipped_small_len self'
       = skipped_small_len (effect_prologue 5%float 1).
Proof.
  destruct (subpath_round_corner fuel (effect_prologue 5%float 1) corner_sp 1)
    as [[self' sp'] | e | ] eqn:E.
  - exists self', sp'. split; [reflexivity|].
    exact (@subpath_round_corner_bookkeeping _ _ _ _ _ _ _ _ E).
  - vm_compute in E. discriminate E.
  - vm_compute in E. discriminate E.
Defined.

End SearchEndsProperty.

(** ** The fitted corner in exact arithmetic *)

Section FittedCorner.
Local Open Scope R_scope.

(** The first tree of a corner, as the search leaves it, still describes
    the incoming segment of the corner. *)
Lemma corner_search_tree {F : Type} {AF : Arith F} (fuel : nat)
    (self self' : @RoundedCorners F) (sp : list (@Node F)) (node_idx : Z)
    (c : @Corner F) :
  corner_search fuel self sp node_idx = Ok (self', Some c) ->
  _x (c_s1 c) = [fst (nd1 (c_prev_node c)); fst (nd2 (c_prev_node c));
                 fst (nd0 (c_node c)); fst (nd1 (c_node c))]
  /\ _y (c_s1 c) = [snd (nd1 (c_prev_node c)); snd (nd2 (c_prev_node c));
                    snd (nd0 (c_node c)); snd (nd1 (c_node c))]
  /\ _side (c_s1 c) = corner_side (c_node c)
  /\ _radius (c_s1 c) = radius self.
Proof.
  unfold corner_search. intros H.
  apply bind_Ok_inv in H. destruct H as ([self1 found] & Esn & H).
  apply super_node_bookkeeping in Esn. destruct Esn as (Hr & _).
  destruct found as [[sn nd]|]; [|discriminate H].
  apply bind_Ok_inv in H. destruct H as (prev_node & _ & H).
  apply bind_Ok_inv in H. destruct H as (next_node & _ & H).
  apply bind_Ok_inv in H. destruct H as (node & _ & H).
  apply bind_Ok_inv in H. destruct H as ([s1 s2] & Etrees & H).
  pose proof (intersect_reordered fuel s1 s2) as Hre.
  destruct (intersectCenterCurveSegments fuel s1 s2) as [s1' ret].
  apply bind_Ok_inv in H. destruct H as (t & _ & H).
  injection H as _ <-. cbn [c_s1 c_prev_node c_node c_next_node fst] in *.
  apply reordered_geometry in Hre.
  destruct Hre as (Ex & Ey & Eside & Erad & _).
  unfold corner_trees in Etrees.
  apply bind_Ok_inv in Etrees. destruct Etrees as (t1 & E1 & Etrees).
  apply bind_Ok_inv in Etrees. destruct Etrees as (t2 & _ & Etrees).
  injection Etrees as <- _.
  apply init_built in E1. destruct E1 as (ps & pe & _ & _ & B).
  destruct (built_fields B) as (Bx & By & Bside & Brad & _).
  rewrite Ex, Ey, Eside, Erad, Bx, By, Bside, Brad.
  repeat split; try reflexivity. exact Hr.
Qed.

Lemma corner_side_square (node : @Node R) :
  corner_side node * corner_side node = 1.
Proof.
  unfold corner_side. destruct (fgt _ f0); cbn [fopp f1 RArith]; ring.
Qed.

(** X17.  In exact arithmetic the fitted corner is tangent at the first trim
    point.  When [subpath_round_corner] fits a corner, with [P] the point
    at which the incoming segment is split, [p2] the handle with which
    the shortened segment reaches [P], [C] the centre and [c1] the handle
    with which the arc leaves [P]: [C] is at the distance |radius| from
    [P], and both handles are perpendicular to the radius from [P] to
    [C], so the shortened segment and the arc have the same tangent at
    [P], that of the circle. *)
Theorem fitted_corner_is_tangent_at_the_first_trim_point
    (fuel : nat) (self self' : @RoundedCorners R) (sp sp' : list (@Node R))
    (node_idx : Z) (c : @Corner R) (t : R * R) :
  corner_search fuel self sp node_idx = Ok (self', Some c) ->
  c_t c = Some t ->
  subpath_round_corner fuel self sp node_idx = Ok (self', sp') ->
  let '((_, _, p2, P), _) :=
    split_bezier_curve (nd1 (c_prev_node c)) (nd2 (c_prev_node c))
                       (nd0 (c_node c)) (nd1 (c_node c)) (fst t) in
  let '(_, (N, _, _, _)) :=
    split_bezier_curve (nd1 (c_node c)) (nd2 (c_node c))
                       (nd0 (c_next_node c)) (nd1 (c_next_node c)) (snd t) in
  exists C c1 c2,
    calculate_center_point (c_s1 c) (fst t) = Ok C
    /\ arc_bezier_handles P N C = Ok (c1, c2)
    /\ distance C P = Rabs (radius self)
    /\ dot (vsub P p2) (vsub C P) = 0
    /\ dot (vsub c1 P) (vsub C P) = 0.
Proof.
  intros Hsearch Ht Hround.
  apply subpath_round_corner_cases in Hround.
  destruct Hround as (found & Hsearch' & Hfit).
  rewrite Hsearch in Hsearch'. injection Hsearch' as <-.
  rewrite Ht in Hfit.
  apply fit_corner_emits in Hfit.
  destruct (corner_search_tree _ _ _ _ Hsearch) as (Ex & Ey & Eside & Erad).
  destruct (curve_point_and_tangent_cubic
              (nd1 (c_prev_node c)) (nd2 (c_prev_node c))
              (nd0 (c_node c)) (nd1 (c_node c)) (fst t)) as (T & Hcurve & HT).
  unfold split_point in Hcurve.
  unfold split_bezier_curve in *.
  destruct Hfit as (C & c1 & c2 & before & after & Hc & Hh & _).
  exists C, c1, c2. split; [exact Hc|]. split; [exact Hh|].
  unfold calculate_center_point in Hc. rewrite Ex, Ey, Eside, Erad in Hc.
  apply calculate_center_point_real in Hc.
  destruct Hc as (B & T' & Hcurve' & Hn & HC).
  rewrite Hcurve in Hcurve'. injection Hcurve' as <- <-.
  apply arc_bezier_handles_real in Hh. destruct Hh as [Hc1 _].
  cbn [fst snd fadd fsub fmul f1 RArith] in *.
  split; [|split].
  - rewrite HC, offset_distance by exact Hn.
    rewrite Rabs_mult.
    assert (Hs : Rabs (corner_side (c_node c)) = 1).
    { pose proof (Rabs_pos (corner_side (c_node c))) as Hp.
      assert (Hsq : Rabs (corner_side (c_node c)) * Rabs (corner_side (c_node c)) = 1).
      { rewrite <- Rabs_mult, corner_side_square. apply Rabs_R1. }
      nra. }
    rewrite Hs. ring.
  - rewrite HT, HC.
    unfold dot, vsub, vadd, vscale, rot90. cbn [fst snd]. ring.
  - rewrite Hc1.
    unfold dot, vsub, vadd, vscale, rot90. cbn [fst snd]. ring.
Qed.

(** The right angle [right_angle_sp] with radius 1. *)
Lemma fitted_corner_is_tangent_at_the_first_trim_point_witness :
  exists (sp' : list (@Node R)) (c : @Corner R) (t : R * R),
    corner_search 3 unit_radius right_angle_sp 1 = Ok (unit_radius, Some c)
    /\ c_t c = Some t
    /\ subpath_round_corner 3 unit_radius right_angle_sp 1
       = Ok (unit_radius, sp')
    /\ let '((_, _, p2, P), _) :=
         split_bezier_curve (nd1 (c_prev_node c)) (nd2 (c_prev_node c))
                            (nd0 (c_node c)) (nd1 (c_node c)) (fst t) in
       let '(_, (N, _, _, _)) :=
         split_bezier_curve (nd1 (c_node c)) (nd2 (c_node c))
                            (nd0 (c_next_node c)) (nd1 (c_next_node c)) (snd t) in
       exists C c1 c2,
         calculate_center_point (c_s1 c) (fst t) = Ok C
         /\ arc_bezier_handles P N C = Ok (c1, c2)
         /\ distance C P = Rabs (radius unit_radius)
         /\ dot (vsub P p2) (vsub C P) = 0
         /\ dot (vsub c1 P) (vsub C P) = 0.
Proof.
  destruct right_angle_fit as (sp' & Hfit).
  exists sp', (mkCorner 0 2 (mkNode (0, 0) (0, 0) (1, 0))
                        (mkNode (2, 0) (3, 0) (3, 1))
                        (mkNode (3, 2) (3, 3) (3, 3))
                        line_root_searched (Some (2 / 3, 1 / 3))),
         (2 / 3, 1 / 3).
  split; [exact right_angle_search|]. split; [reflexivity|].
  split; [exact Hfit|].
  exact (@fitted_corner_is_tangent_at_the_first_trim_point 3 unit_radius
           unit_radius right_angle_sp sp' 1 _ (2 / 3, 1 / 3)
           right_angle_search eq_refl Hfit).
Defined.

(** The two trees of the right angle [right_angle_sp]. *)
Lemma search_returns_a_meeting_point_of_two_chord_lines_witness :
  exists a b k1 k2,
    In a (subnodes line_root_searched) /\ In b (subnodes up_root)
    /\ _terminalSegments a = 1%Z /\ _terminalSegments b = 1%Z
    /\ 2 / 3 = (1 - k1) * _t_start a + k1 * _t_end a
    /\ 1 / 3 = (1 - k2) * _t_start b + k2 * _t_end b
    /\ vadd (_p_start a) (vscale k1 (vsub (_p_end a) (_p_start a)))
       = vadd (_p_start b) (vscale k2 (vsub (_p_end b) (_p_start b))).
Proof.
  exact (@search_returns_a_meeting_point_of_two_chord_lines 3 line_root up_root
           line_root_searched (2 / 3) (1 / 3) roots_meet).
Defined.

End FittedCorner.

(** ** The first node of a closed subpath *)

Section ClosedSubpath.
Context {F : Type} {AF : Arith F}.

Lemma set_nth_app_front {A : Type} (front back : list A) (n : nat) (a : A) :
  (n < length front)%nat ->
  set_nth (front ++ back) n a = set_nth front n a ++ back.
Proof.
  revert n. induction front as [|b front IH]; intros n Hn; cbn in *; [lia|].
  destruct n as [|n]; [reflexivity|]. rewrite IH by lia. reflexivity.
Qed.

Lemma py_update_front {A : Type} (front back l' : list A) (i : Z) (f : A -> A) :
  (0 <= i < len front)%Z ->
  py_update (front ++ back) i f = Ok l' ->
  exists front', l' = front' ++ back /\ len front' = len front.
Proof.
  unfold py_update, len. intros Hi H.
  apply bind_Ok_inv in H. destruct H as (a & _ & H).
  destruct (i <? 0)%Z eqn:E; [apply Z.ltb_lt in E; lia|].
  injection H as <-. rewrite set_nth_app_front by lia.
  eexists. split; [reflexivity|]. rewrite set_nth_length. reflexivity.
Qed.

Lemma py_slice_tail {A : Type} (front : list A) (x : A) (hi : Z) :
  (1 <= len front)%Z -> hi = (len front + 1)%Z ->
  py_slice (front ++ [x]) 1 hi = tl front ++ [x].
Proof.
  unfold py_slice, py_bound, len. intros Hl ->.
  destruct front as [|a front]; [cbn in Hl; lia|].
  cbn [Z.ltb Z.compare].
  destruct (Z.of_nat (length (a :: front)) + 1 <? 0)%Z eqn:E;
    [apply Z.ltb_lt in E; lia|].
  rewrite length_app. cbn [length tl app] in *.
  replace (Z.to_nat (Z.min (Z.max 1 0) (Z.of_nat (S (length front) + 1))))
    with 1%nat by lia.
  replace (Z.to_nat (Z.min (Z.max (Z.of_nat (S (length front)) + 1) 0)
                           (Z.of_nat (S (length front) + 1))))
    with (S (length front) + 1)%nat by lia.
  cbn [skipn]. apply firstn_all2. rewrite length_app. cbn [length]. lia.
Qed.

Lemma py_index_minus_one {A : Type} (l : list A) (x : A) :
  py_index (l ++ [x]) (-1) = Ok x.
Proof.
  rewrite py_index_last by (unfold len; rewrite length_app; cbn [length]; lia).
  apply py_index_app_mid. unfold len. rewrite length_app. cbn [length]. lia.
Qed.

Lemma last_node_split {A : Type} (l : list A) (x : A) :
  (1 <= len l)%Z -> py_index l (len l - 1) = Ok x ->
  exists front, l = front ++ [x].
Proof.
  intros Hl H.
  assert (Hne : l <> []) by (destruct l; [cbn in Hl; lia | discriminate]).
  destruct (exists_last Hne) as (front & y & ->).
  rewrite (py_index_app_mid front [] y) in H
    by (unfold len; rewrite length_app; cbn [length]; lia).
  injection H as ->. exists front. reflexivity.
Qed.

(** [super_node] on the first node of a closed subpath. *)
Lemma super_node_closed_first (self self' : @RoundedCorners F)
    (sp : list (@Node F)) (first last before_last : Node)
    (found : option (SuperNode * Node)) :
  (3 <= len sp)%Z ->
  py_index sp 0 = Ok first ->
  py_index sp (len sp - 1) = Ok last ->
  py_index sp (len sp - 2) = Ok before_last ->
  very_close first last = true ->
  very_close_xy (nd1 first) (nd1 before_last) = false ->
  super_node self sp 0 = Ok (self', found) ->
  exists sn node,
    found = Some (sn, node)
    /\ s_idx (sn_prev sn) = (len sp - 2)%Z /\ s_idx (sn_next sn) = 1%Z.
Proof.
  intros Hlen E0 El Eb Hc Hxy H. unfold super_node in H.
  rewrite E0 in H. cbn [bind] in H.
  change (0 =? 0)%Z with true in H. cbv iota in H.
  rewrite El in H. cbn [bind] in H.
  rewrite Hc in H.
  replace (len sp - 1 - 1)%Z with (len sp - 2)%Z in H by lia.
  rewrite Eb in H. cbn [bind] in H. rewrite Hxy in H. cbn [bind] in H.
  destruct (0 =? len sp - 1)%Z eqn:E1; [apply Z.eqb_eq in E1; lia|].
  cbn [Z.add] in H.
  destruct (1 >=? len sp)%Z eqn:E2; [apply Z.geb_le in E2; lia|].
  inv_bind H. injection H as _ <-.
  eexists _, _. split; [reflexivity|]. split; reflexivity.
Qed.

End ClosedSubpath.

Section ClosedSubpathProperty.
Import Run.
Local Open Scope float_scope.

(** X16.  Rounding the first node of a closed subpath (the last node repeats
    the first one, the node before it lies elsewhere) leaves the closing
    node alone: either the subpath comes back as it was (no corner was
    fitted), or the list that comes back is one node longer and its last
    node is still the closing node of the input, unchanged. *)
Theorem closing_node_is_kept
    (F : Type) (AF : Arith F) (fuel : nat) (self self' : @RoundedCorners F)
    (sp sp' : list (@Node F)) (first last before_last : @Node F) :
  (3 <= len sp)%Z ->
  py_index sp 0 = Ok first ->
  py_index sp (len sp - 1) = Ok last ->
  py_index sp (len sp - 2) = Ok before_last ->
  very_close first last = true ->
  very_close_xy (nd1 first) (nd1 before_last) = false ->
  subpath_round_corner fuel self sp 0 = Ok (self', sp') ->
  sp' = sp
  \/ (len sp' = (len sp + 1)%Z /\ py_index sp' (-1) = Ok last).
Proof.
  intros Hlen E0 El Eb Hc Hxy H.
  apply subpath_round_corner_cases in H. destruct H as (found & Hs & Hcase).
  destruct found as [c|]; [|left; exact Hcase].
  destruct (c_t c) as [t|]; [|left; exact Hcase]. right.
  assert (Hidx : c_prev_idx c = (len sp - 2)%Z /\ c_next_idx c = 1%Z).
  { unfold corner_search in Hs.
    apply bind_Ok_inv in Hs. destruct Hs as ([self1 fnd] & Esn & Hs).
    destruct (@super_node_closed_first _ _ _ _ _ _ _ _ _ Hlen E0 El Eb Hc Hxy Esn)
      as (sn & node & -> & Ep & En).
    inv_bind Hs.
    match goal with
    | a : (CenterCurveSegment * CenterCurveSegment)%type |- _ =>
        destruct a as [s1 s2]
    end.
    destruct (intersectCenterCurveSegments fuel s1 s2) as [s1' ret].
    inv_bind Hs. injection Hs as _ <-. cbn. auto. }
  destruct Hidx as [Ep En]. rewrite Ep, En in Hcase.
  assert (Hl1 : (1 <= len sp)%Z) by lia.
  destruct (@last_node_split _ sp last Hl1 El) as (front & ->).
  assert (Hfront : (2 <= len front)%Z)
    by (unfold len in *; rewrite length_app in Hlen; cbn [length] in Hlen; lia).
  assert (Hl : len (front ++ [last]) = (len front + 1)%Z)
    by (unfold len; rewrite length_app; cbn [length]; lia).
  rewrite Hl in *.
  unfold fit_corner, split_bezier_curve in Hcase.
  apply bind_Ok_inv in Hcase. destruct Hcase as (arc_c & _ & Hcase).
  apply bind_Ok_inv in Hcase. destruct Hcase as (sp1 & E1 & Hcase).
  apply py_update_front in E1; [|lia]. destruct E1 as (front1 & -> & L1).
  apply bind_Ok_inv in Hcase. destruct Hcase as (sp2 & E2 & Hcase).
  apply py_update_front in E2; [|lia]. destruct E2 as (front2 & -> & L2).
  apply bind_Ok_inv in Hcase. destruct Hcase as ([c1 c2] & _ & Hcase).
  cbn [Z.eqb] in Hcase. injection Hcase as <-.
  rewrite (py_slice_tail front2 last) by lia.
  split.
  - unfold len in *. cbn [app length]. rewrite length_app. cbn [length].
    assert (length (tl front2) = (length front2 - 1)%nat)
      by (destruct front2; cbn; lia).
    lia.
  - cbn [app]. rewrite !app_comm_cons. apply py_index_minus_one.
Qed.

Lemma closing_node_is_kept_witness :
  exists (self' : @RoundedCorners float) (sp' : list (@Node float)),
    subpath_round_corner fuel (effect_prologue 2 2) closed_sp 0
    = Ok (self', sp')
    /\ (sp' = closed_sp
        \/ (len sp' = (len closed_sp + 1)%Z
            /\ py_index sp' (-1)
               = Ok (mkNode (pt 0 10) (pt 0 0) (pt 10 0)))).
Proof.
  destruct (subpath_round_corner fuel (effect_prologue 2 2) closed_sp 0)
    as [[self' sp'] | e | ] eqn:E.
  - exists self', sp'. split; [reflexivity|].
    apply (@closing_node_is_kept float FloatArith fuel (effect_prologue 2 2)
             self' closed_sp sp'
             (mkNode (pt 0 10) (pt 0 0) (pt 10 0))
             (mkNode (pt 0 10) (pt 0 0) (pt 10 0))
             (mkNode (pt 10 20) (pt 0 30) (pt 0 20))).
    + vm_compute. discriminate.
    + reflexivity.
    + reflexivity.
    + reflexivity.
    + vm_compute. reflexivity.
    + vm_compute. reflexivity.
    + exact E.
  - vm_compute in E. discriminate E.
  - vm_compute in E. discriminate E.
Defined.

End ClosedSubpathProperty.

(** ** The search misses no meeting of chords (exact arithmetic) *)

Section SearchComplete.
Local Open Scope R_scope.

Lemma sound_mono (n : nat) :
  forall (m : nat) (s : Rsegment), (n <= m)%nat -> sound n s -> sound m s.
Proof.
  induction n as [|n IH]; intros m s Hle (Hb & Hh & H); destruct m as [|m];
    cbn [sound] in *; (split; [exact Hb|]; split; [exact Hh|]);
    destruct (_segments s) as [l|]; try exact H; try lia.
  destruct H as [Ht Hl]. split; [exact Ht|].
  eapply Forall_impl; [|exact Hl]. intros c. apply IH. lia.
Qed.

Lemma sound_box (n : nat) (s : Rsegment) : sound n s -> box_invariant s.
Proof. destruct n; intros H; apply H. Qed.

Lemma sound_hull (n : nat) (s : Rsegment) : sound n s -> _hullPoints s <> [].
Proof. destruct n; intros H; apply H. Qed.

Lemma box_invariant_reordered (s s' : Rsegment) :
  reordered s s' -> box_invariant s -> box_invariant s'.
Proof.
  intros Hre (Hu & Hbox & Hhull).
  pose proof Hre as Hperm. apply reordered_leaves in Hperm.
  pose proof Hre as Hgeo. apply reordered_geometry in Hgeo.
  destruct Hgeo as (_ & _ & _ & _ & _ & _ & _ & _ & _ & Ed & _ & Ev & Eh).
  unfold box_invariant, inside_box, convexHullSearchValues in *.
  rewrite Ed, Ev, Eh.
  split; [exact Hu|]. split.
  - intros l Hl. apply Hbox. eapply Permutation_in; [symmetry; exact Hperm | exact Hl].
  - intros e w Hw l Hl. eapply Hhull; [exact Hw|].
    eapply Permutation_in; [symmetry; exact Hperm | exact Hl].
Qed.

Lemma no_meet_reordered (a a' b : Rsegment) :
  reordered a a' -> no_meet a' b -> no_meet a b.
Proof.
  intros Hre H l1 l2 q H1 H2. apply (H l1 l2 q); [|exact H2].
  eapply Permutation_in; [apply reordered_leaves; exact Hre | exact H1].
Qed.

(** Two nodes with terminal nodes below whose chords share a point pass
    the two rejection tests. *)
Lemma box_not_apart (n1 n2 l1 l2 : Rsegment) (q : Rpoint) (v : search_values) :
  box_invariant n1 -> box_invariant n2 ->
  In l1 (leaves n1) -> In l2 (leaves n2) ->
  on_chord l1 q -> on_chord l2 q ->
  convexHullSearchValues n2 (_searchDir n1) = Ok v ->
  boxes_apart (_searchValues n1) v = false.
Proof.
  intros (_ & Hbox & _) (_ & _ & Hhull) Hl1 Hl2
         (k1 & Hk1 & Hq1) (k2 & Hk2 & Hq2) Hv.
  destruct (Hbox l1 Hl1) as [Ha Hb].
  destruct (Hhull _ _ Hv l2 Hl2) as [Hc Hd].
  apply boxes_apart_false_real with (d := _searchDir n1) (q := q).
  - rewrite Hq1. apply in_range_convex; assumption.
  - rewrite Hq2. apply in_range_convex; assumption.
Qed.

Lemma intersect_leaves_not_None {F : Type} {AF : Arith F}
    (a b : @CenterCurveSegment F) :
  intersect_leaves a b <> Ok None.
Proof.
  unfold intersect_leaves. destruct (fne _ f0); [|discriminate].
  destruct (fdiv _ _) as [t1| |]; cbn [bind]; try discriminate.
  destruct (fdiv _ _) as [t2| |]; cbn [bind]; discriminate.
Qed.

Lemma leaves_child (s c x : Rsegment) (l : list Rsegment) :
  _segments s = Some l -> In c l -> In x (leaves c) -> In x (leaves s).
Proof.
  intros E Hc Hx. rewrite (leaves_unfold s), E.
  apply in_flat_map. exists c. split; assumption.
Qed.

Lemma leaves_parent (s x : Rsegment) (l : list Rsegment) :
  _segments s = Some l -> In x (leaves s) ->
  exists c, In c l /\ In x (leaves c).
Proof.
  intros E Hx. rewrite (leaves_unfold s), E in Hx.
  apply in_flat_map in Hx. exact Hx.
Qed.

Section LoopsComplete.
Variable recur : Rsegment -> Rsegment -> Rsegment * Res (option (R * R)).
Variables n1 m : nat.
Hypothesis recur_reordered : forall a b, reordered a (fst (recur a b)).
Hypothesis recur_complete : forall a b,
  sound n1 a -> sound m b ->
  sound n1 (fst (recur a b)) /\ (snd (recur a b) = Ok None -> no_meet a b).

Lemma inner_loop_complete (l2 : list Rsegment) :
  Forall (sound m) l2 ->
  forall s1, sound n1 s1 ->
    sound n1 (fst (inner_loop recur s1 l2))
    /\ (snd (inner_loop recur s1 l2) = Ok None ->
        forall c2, In c2 l2 -> no_meet s1 c2).
Proof.
  induction 1 as [|s2 r H2 _ IH]; intros s1 H1; cbn [inner_loop].
  - split; [exact H1|]. intros _ c2 [].
  - destruct (recur_complete s1 s2 H1 H2) as [Hs Hn].
    pose proof (recur_reordered s1 s2) as Hre.
    destruct (recur s1 s2) as [s1' ret]. cbn [fst snd] in Hs, Hn, Hre.
    destruct ret as [[t|]| |]; cbn [fst snd];
      try (split; [exact Hs | discriminate]).
    destruct (IH s1' Hs) as [Hs' Hn'].
    split; [exact Hs'|].
    intros Hnone c2 [<- | Hc2].
    + apply Hn. reflexivity.
    + eapply no_meet_reordered; [exact Hre|]. apply Hn'; assumption.
Qed.

Lemma outer_loop_complete (l1 l2 : list Rsegment) :
  Forall (sound n1) l1 -> Forall (sound m) l2 ->
  Forall (sound n1) (fst (outer_loop recur l1 l2))
  /\ (snd (outer_loop recur l1 l2) = Ok None ->
      forall c1 c2, In c1 l1 -> In c2 l2 -> no_meet c1 c2).
Proof.
  intros H1 H2. induction H1 as [|s1 r Hs1 Hr IH]; cbn [outer_loop].
  - split; [constructor|]. intros _ c1 c2 [].
  - destruct (inner_loop_complete H2 s1 Hs1) as [Hs Hn].
    destruct (inner_loop recur s1 l2) as [s1' ret]. cbn [fst snd] in Hs, Hn.
    destruct ret as [[t|]| |]; cbn [fst snd];
      try (split; [constructor; assumption | discriminate]).
    destruct IH as [Hs' Hn'].
    destruct (outer_loop recur r l2) as [r' ret']. cbn [fst snd] in *.
    split; [constructor; assumption|].
    intros Hnone c1 c2 [<- | Hc1] Hc2.
    + apply Hn; [reflexivity | exact Hc2].
    + apply Hn'; assumption.
Qed.
End LoopsComplete.

Lemma intersect_complete (fuel : nat) :
  forall (n1 n2 : nat) (s1 s2 : @CenterCurveSegment R),
    sound n1 s1 -> sound n2 s2 -> (n1 + n2 < fuel)%nat ->
    sound n1 (fst (intersectCenterCurveSegments fuel s1 s2))
    /\ (snd (intersectCenterCurveSegments fuel s1 s2) = Ok None ->
        no_meet s1 s2).
Proof.
  induction fuel as [|fuel IH]; intros n1 n2 s1 s2 W1 W2 Hfuel; [lia|].
  pose proof (intersect_reordered (S fuel) s1 s2) as Hre.
  pose proof (sound_box _ _ W1) as B1. pose proof (sound_box _ _ W2) as B2.
  pose proof (sound_hull _ _ W1) as H1. pose proof (sound_hull _ _ W2) as H2.
  cbn [intersectCenterCurveSegments] in *.
  destruct (convexHullSearchValues_total s2 (_searchDir s1) H2) as (v & Ev).
  rewrite Ev in *.
  destruct (boxes_apart (_searchValues s1) v) eqn:A1.
  { split; [exact W1|]. intros _ l1 l2 q Hl1 Hl2 Hq1 Hq2.
    pose proof (box_not_apart B1 B2 Hl1 Hl2 Hq1 Hq2 Ev) as Hf. congruence. }
  destruct (convexHullSearchValues_total s1 (_searchDir s2) H1) as (v' & Ev').
  rewrite Ev' in *.
  destruct (boxes_apart (_searchValues s2) v') eqn:A2.
  { split; [exact W1|]. intros _ l1 l2 q Hl1 Hl2 Hq1 Hq2.
    pose proof (box_not_apart B2 B1 Hl2 Hl1 Hq2 Hq1 Ev') as Hf. congruence. }
  destruct (_ && _) eqn:Eleaf.
  { split; [exact W1|]. cbn [snd]. intros Hn.
    exfalso. exact (intersect_leaves_not_None _ _ Hn). }
  assert (Hsub2 : exists m l2,
             (if (1 <? _terminalSegments s2)%Z then _segments s2 else Some [s2])
             = Some l2
             /\ Forall (sound m) l2 /\ (m <= n2)%nat
             /\ ((1 <? _terminalSegments s2)%Z = true -> (S m <= n2)%nat)
             /\ (forall x, In x (leaves s2) ->
                   exists c2, In c2 l2 /\ In x (leaves c2))).
  { destruct (1 <? _terminalSegments s2)%Z eqn:T2.
    - destruct n2 as [|n2]; cbn [sound] in W2; destruct W2 as (_ & _ & W2);
        destruct (_segments s2) as [l2|] eqn:E2;
        try (apply Z.ltb_lt in T2; lia).
      destruct W2 as [_ W2]. exists n2, l2.
      repeat split; try assumption; try lia.
      intros x Hx. eapply leaves_parent; eassumption.
    - exists n2, [s2]. repeat split; try lia; try discriminate.
      + constructor; [exact W2 | constructor].
      + intros x Hx. exists s2. split; [left; reflexivity | exact Hx]. }
  destruct Hsub2 as (m & l2 & E2 & Wl2 & Hm & Hm' & Hcover).
  rewrite E2 in Hre |- *.
  destruct (1 <? _terminalSegments s1)%Z eqn:T1.
  - destruct n1 as [|n1]; cbn [sound] in W1; destruct W1 as (_ & _ & W1);
      destruct (_segments s1) as [l1|] eqn:E1; try (apply Z.ltb_lt in T1; lia).
    destruct W1 as [Ht Wl1].
    assert (Hrec : forall a b, sound n1 a -> sound m b ->
              sound n1 (fst (intersectCenterCurveSegments fuel a b))
              /\ (snd (intersectCenterCurveSegments fuel a b) = Ok None ->
                  no_meet a b)).
    { intros a b Wa Wb. eapply IH; [exact Wa | exact Wb | lia]. }
    assert (Wrev : Forall (sound n1) (rev l1)) by (apply Forall_rev; exact Wl1).
    destruct (@outer_loop_complete _ _ _ (@intersect_reordered R RArith fuel)
                Hrec _ _ Wrev Wl2) as [Hs Hn].
    destruct (outer_loop _ (rev l1) l2) as [l1' ret]. cbn [fst snd] in *.
    split.
    + cbn [sound set_segments _hullPoints _segments _terminalSegments].
      split; [eapply box_invariant_reordered; [exact Hre | exact B1]|].
      split; [exact H1|]. split; [exact Ht | exact Hs].
    + intros Hnone la lb q Hla Hlb Hq1 Hq2.
      destruct (@leaves_parent s1 la l1 E1 Hla) as (c1 & Hc1 & Hla').
      destruct (Hcover lb Hlb) as (c2 & Hc2 & Hlb').
      apply in_rev in Hc1.
      exact (Hn Hnone c1 c2 Hc1 Hc2 la lb q Hla' Hlb' Hq1 Hq2).
  - assert (T2 : (1 <? _terminalSegments s2)%Z = true).
    { assert (E1 : _terminalSegments s1 = 1%Z).
      { destruct n1 as [|n1]; cbn [sound] in W1; destruct W1 as (_ & _ & W1);
          destruct (_segments s1) as [l1|]; try exact W1;
          destruct W1 as [W1 _]; apply Z.ltb_ge in T1; lia. }
      rewrite E1 in Eleaf. cbn in Eleaf.
      destruct n2 as [|n2]; cbn [sound] in W2; destruct W2 as (_ & _ & W2);
        destruct (_segments s2) as [l2'|];
        try (rewrite W2 in Eleaf; discriminate Eleaf);
        destruct W2 as [W2 _]; apply Z.ltb_lt; exact W2. }
    specialize (Hm' T2).
    assert (Hrec : forall a b, sound n1 a -> sound m b ->
              sound n1 (fst (intersectCenterCurveSegments fuel a b))
              /\ (snd (intersectCenterCurveSegments fuel a b) = Ok None ->
                  no_meet a b)).
    { intros a b Wa Wb. eapply IH; [exact Wa | exact Wb | lia]. }
    destruct (@inner_loop_complete _ _ _ (@intersect_reordered R RArith fuel)
                Hrec _ Wl2 s1 W1) as [Hs Hn].
    split; [exact Hs|].
    intros Hnone la lb q Hla Hlb Hq1 Hq2.
    destruct (Hcover lb Hlb) as (c2 & Hc2 & Hlb').
    exact (Hn Hnone c2 Hc2 la lb q Hla Hlb' Hq1 Hq2).
Qed.

Lemma built_sound (x y : list R) (side radius eps ts te : R)
    (ps pe : Rpoint) (s : Rsegment) :
  built x y side radius eps ts te ps pe s -> sound (depth s) s.
Proof.
  intros B. pose proof (built_box_invariant B) as Hbox. revert Hbox.
  induction B as [ts te ps pe d t_mid p_mid est v Hl Hl2 Hpre Hsub Hv
                 |ts te ps pe d t_mid p_mid est c1 c2 first v Hl Hl2 Hpre Hsub
                    B1 IH1 B2 IH2 Hfirst Hv]; intros Hbox.
  - cbn. split; [exact Hbox|]. split; [discriminate | reflexivity].
  - pose proof (built_count B1) as [_ G1]. pose proof (built_count B2) as [_ G2].
    cbn [depth _segments sound _hullPoints _terminalSegments map fold_left].
    split; [exact Hbox|]. split; [cbn; discriminate|]. split; [lia|].
    constructor; [|constructor; [|constructor]].
    + eapply sound_mono; [|apply IH1; exact (built_box_invariant B1)]. cbn. lia.
    + eapply sound_mono; [|apply IH2; exact (built_box_invariant B2)]. cbn. lia.
Qed.

(** X11.  In exact arithmetic the search misses no meeting of chords: on two
    trees [__init__] has returned, when [intersectCenterCurveSegments]
    returns [None] (with enough nested calls at its disposal to come to
    its end), no chord of a terminal node of the first tree shares a
    point with a chord of a terminal node of the second.  The two
    rejection tests never discard a pair of nodes below which two chords
    meet. *)
Theorem search_misses_no_meeting_chords
    (fuel1 fuel2 n : nat) (x1 y1 x2 y2 : list R)
    (side1 radius1 eps1 ts1 te1 side2 radius2 eps2 ts2 te2 : R)
    (pso1 peo1 pso2 peo2 : option Rpoint) (s1 s2 : Rsegment) :
  CenterCurveSegment_init fuel1 x1 y1 side1 radius1 eps1 ts1 te1 pso1 peo1
  = Ok s1 ->
  CenterCurveSegment_init fuel2 x2 y2 side2 radius2 eps2 ts2 te2 pso2 peo2
  = Ok s2 ->
  (fuel1 + fuel2 <= S n)%nat ->
  snd (intersectCenterCurveSegments n s1 s2) = Ok None ->
  forall l1 l2 q,
    In l1 (leaves s1) -> In l2 (leaves s2) ->
    on_chord l1 q -> on_chord l2 q -> False.
Proof.
  intros I1 I2 Hn Hnone.
  pose proof (init_depth _ _ _ _ _ _ _ _ _ _ I1) as D1.
  pose proof (init_depth _ _ _ _ _ _ _ _ _ _ I2) as D2.
  apply init_built in I1, I2.
  destruct I1 as (? & ? & _ & _ & B1), I2 as (? & ? & _ & _ & B2).
  apply built_sound in B1, B2.
  assert (Hfuel : (depth s1 + depth s2 < n)%nat) by lia.
  exact (proj2 (@intersect_complete n _ _ s1 s2 B1 B2 Hfuel) Hnone).
Qed.

(** The first halves of the two offset lines of the right angle. *)
Lemma search_misses_no_meeting_chords_witness :
  snd (intersectCenterCurveSegments 3 (line_node 0 (1 / 2)) (up_node 0 (1 / 2)))
  = Ok None
  /\ no_meet (line_node 0 (1 / 2)) (up_node 0 (1 / 2)).
Proof.
  assert (H1 : 26 / 100 < 1 / 2 - 0) by lra.
  assert (H2 : 1 / 2 - 0 <= 52 / 100) by lra.
  assert (Hn : (2 + 2 <= 4)%nat) by lia.
  assert (Hnone : snd (intersectCenterCurveSegments 3 (line_node 0 (1 / 2))
                         (up_node 0 (1 / 2))) = Ok None)
    by (rewrite nodes_apart; reflexivity).
  split; [exact Hnone|].
  exact (@search_misses_no_meeting_chords 2 2 3 _ _ _ _ _ _ _ _ _ _ _ _ _ _
           _ _ _ _ _ _
           (line_node_init 0 H1 H2) (up_node_init 0 H1 H2) Hn Hnone).
Defined.

End SearchComplete.

(** ** Radius 0 in exact arithmetic *)

Section RadiusZeroFacts.
Local Open Scope R_scope.

(** The nodes before and after the vertex, where [corner_search] has read
    them. *)
Lemma corner_search_neighbours {F : Type} {AF : Arith F} (fuel : nat)
    (self self' : @RoundedCorners F) (sp : list (@Node F)) (node_idx : Z)
    (c : @Corner F) :
  corner_search fuel self sp node_idx = Ok (self', Some c) ->
  py_index sp (c_prev_idx c) = Ok (c_prev_node c)
  /\ py_index sp (c_next_idx c) = Ok (c_next_node c).
Proof.
  unfold corner_search. intros H.
  apply bind_Ok_inv in H. destruct H as ([self1 found] & Esn & H).
  destruct found as [[sn nd]|]; [|discriminate H].
  apply bind_Ok_inv in H. destruct H as (prev_node & Eprev & H).
  apply bind_Ok_inv in H. destruct H as (next_node & Enext & H).
  apply bind_Ok_inv in H. destruct H as (node & Enode & H).
  apply bind_Ok_inv in H. destruct H as ([s1 s2] & Etrees & H).
  destruct (intersectCenterCurveSegments fuel s1 s2) as [s1' ret].
  apply bind_Ok_inv in H. destruct H as (t & Et & H).
  injection H as _ <-. split; [exact Eprev | exact Enext].
Qed.

(** An index that is in range for a list is in range for a list of the
    same length. *)
Lemma py_index_same_len {A : Type} (l l' : list A) (i : Z) (a : A) :
  len l' = len l -> py_index l i = Ok a -> exists b, py_index l' i = Ok b.
Proof.
  unfold py_index. intros Hlen H. rewrite Hlen.
  destruct ((if (i <? 0)%Z then (i + len l)%Z else i) <? 0)%Z; [discriminate H|].
  destruct (nth_error l _) eqn:En; [|discriminate H].
  assert (Hlt : (Z.to_nat (if (i <? 0)%Z then (i + len l)%Z else i) < length l)%nat)
    by (apply nth_error_Some; congruence).
  unfold len in Hlen. apply Nat2Z.inj in Hlen. rewrite <- Hlen in Hlt.
  apply nth_error_Some in Hlt.
  destruct (nth_error l' _) as [b|]; [exists b; reflexivity | contradiction].
Qed.

(** With radius 0 the centre [calculate_center_point] returns is the point
    of the curve, which is the point at which [split_bezier_curve] splits
    it; the division by the length of the tangent is still made. *)
Lemma calculate_center_point_zero_radius (p0 p1 p2 p3 : Rpoint) (side t : R) :
  calculate_center_point_of [fst p0; fst p1; fst p2; fst p3]
                            [snd p0; snd p1; snd p2; snd p3] side 0 t
  = Ok (split_point p0 p1 p2 p3 t)
  \/ calculate_center_point_of [fst p0; fst p1; fst p2; fst p3]
                               [snd p0; snd p1; snd p2; snd p3] side 0 t
     = Raise ZeroDivisionError.
Proof.
  unfold calculate_center_point_of, split_point, split_bezier_curve. cbn.
  change (Pos.to_nat 1) with 1%nat. cbn.
  assert (Hsq : forall u v : R, 0 <= u * u + v * v) by (intros; nra).
  match goal with
  | |- context [R_sqrt ?a] =>
      rewrite (@R_sqrt_Ok a) by apply Hsq; set (n := sqrt a)
  end.
  cbn [bind].
  destruct (Req_dec_T n 0) as [E | E].
  - right. rewrite R_div_zero by exact E. reflexivity.
  - left. rewrite !R_div_Ok by exact E. cbn [bind].
    apply f_equal. apply f_equal2; field; exact E.
Qed.

(** The arc handles from a point that is the centre. *)
Lemma arc_bezier_handles_at_centre (P N : Rpoint) :
  arc_bezier_handles P N P = Raise ZeroDivisionError.
Proof.
  destruct P as [x y], N as [u v]. unfold arc_bezier_handles.
  cbn [fsqrt fdiv fsub fadd fmul f2 RArith].
  replace (x - x) with 0 by ring. replace (y - y) with 0 by ring.
  rewrite R_sqrt_Ok by (right; ring_simplify; reflexivity). cbn [bind].
  rewrite R_div_zero by ring. reflexivity.
Qed.

(** With radius 0 the second half of [subpath_round_corner] never returns:
    the centre, when its own division does not fail, is the split point
    [p3] that is passed to [arc_bezier_handles] with it. *)
Lemma fit_corner_zero_radius (fuel : nat) (self self' : @RoundedCorners R)
    (sp : list (@Node R)) (node_idx : Z) (c : @Corner R) (t : R * R) :
  radius self = 0 ->
  corner_search fuel self sp node_idx = Ok (self', Some c) ->
  fit_corner (c_s1 c) sp node_idx (c_prev_idx c) (c_next_idx c)
             (c_prev_node c) (c_node c) (c_next_node c) t
  = Raise ZeroDivisionError.
Proof.
  intros Hr Hsearch.
  destruct (corner_search_tree _ _ _ _ Hsearch) as (Ex & Ey & Eside & Erad).
  destruct (corner_search_neighbours _ _ _ _ Hsearch) as (Ep & En).
  unfold fit_corner, calculate_center_point.
  rewrite Ex, Ey, Eside, Erad, Hr.
  destruct (calculate_center_point_zero_radius
              (nd1 (c_prev_node c)) (nd2 (c_prev_node c))
              (nd0 (c_node c)) (nd1 (c_node c))
              (corner_side (c_node c)) (fst t)) as [E | E];
    rewrite E; [|reflexivity].
  cbn [bind]. unfold split_point, split_bezier_curve.
  unfold py_update at 1. rewrite Ep. cbn [bind].
  match goal with
  | |- context [py_update ?l (c_next_idx c) ?f] =>
      destruct (@py_index_same_len _ sp l (c_next_idx c) (c_next_node c))
        as (b & Eb); [unfold len; rewrite set_nth_length; reflexivity | exact En |];
      unfold py_update; rewrite Eb
  end.
  cbn [bind]. rewrite arc_bezier_handles_at_centre. reflexivity.
Qed.

End RadiusZeroFacts.

(** *** The right angle with radius 0

    [corner_search] on [right_angle_sp] with radius 0: the two trees lie
    on the segments themselves, and the search returns the parameters of
    the vertex. *)

Section RealRunZero.
Local Open Scope R_scope.

Ltac decide_real0 :=
  repeat match goal with
         | |- context [R_ltb ?a ?b] =>
             first [ rewrite (@R_ltb_true a b) by lra
                   | rewrite (@R_ltb_false a b) by lra ]
         end.

Ltac eval_hull0 :=
  unfold convexHullSearchValues, convexHullSearchValues_of;
  cbn [_hullPoints _searchDir axis_root rise_root axis_node rise_node
       axis_leaf rise_leaf hull_of_search_values axis_sv rise_sv
       map fst snd sv0 sv1 sv2 sv3 py_min py_max fold_left bind
       fadd fsub fmul fopp RArith];
  unfold py_min2, py_max2; cbn [flt fgt RArith]; decide_real0.

Ltac eval_apart0 :=
  unfold boxes_apart;
  cbn [_searchValues axis_root rise_root axis_node rise_node axis_leaf rise_leaf
       axis_sv rise_sv sv0 sv1 sv2 sv3 flt fgt RArith];
  decide_real0.

Ltac same_values0 :=
  apply f_equal2; [apply f_equal2; [apply f_equal2|]|]; lra.

Lemma axis_point (t : R) :
  calculate_center_point_of line_x line_y 1 0 t = Ok (3 * t, 0).
Proof.
  unfold calculate_center_point_of, line_x, line_y. cbn.
  change (Pos.to_nat 1) with 1%nat. cbn.
  rewrite (@R_sqrt_square _ 1) by (try lra; ring). cbn.
  rewrite !R_div_Ok by lra. cbn.
  f_equal. f_equal; field.
Qed.

Lemma rise_point (t : R) :
  calculate_center_point_of up_x up_y 1 0 t = Ok (3, 3 * t).
Proof.
  unfold calculate_center_point_of, up_x, up_y. cbn.
  change (Pos.to_nat 1) with 1%nat. cbn.
  rewrite (@R_sqrt_square _ 1) by (try lra; ring). cbn.
  rewrite !R_div_Ok by lra. cbn.
  f_equal. f_equal; field.
Qed.

Lemma axis_prelude (ts te : R) :
  ts < te ->
  node_prelude line_x line_y 1 0 ts te (3 * ts, 0) (3 * te, 0)
  = Ok ((1, 0), (ts + te) / 2, (3 * ((ts + te) / 2), 0),
        ((3 * ts + 3 * te) / 2, 0)).
Proof.
  intros Hlt. unfold node_prelude. cbn -[calculate_center_point_of].
  rewrite (@R_sqrt_square _ (3 * te - 3 * ts)) by (try lra; ring).
  cbn -[calculate_center_point_of].
  rewrite !R_div_Ok by lra. cbn -[calculate_center_point_of].
  rewrite axis_point. cbn.
  f_equal. f_equal; [f_equal; f_equal; f_equal; field; lra | f_equal; field].
Qed.

Lemma rise_prelude (ts te : R) :
  ts < te ->
  node_prelude up_x up_y 1 0 ts te (3, 3 * ts) (3, 3 * te)
  = Ok ((0, 1), (ts + te) / 2, (3, 3 * ((ts + te) / 2)),
        (3, (3 * ts + 3 * te) / 2)).
Proof.
  intros Hlt. unfold node_prelude. cbn -[calculate_center_point_of].
  rewrite (@R_sqrt_square _ (3 * te - 3 * ts)) by (try lra; ring).
  cbn -[calculate_center_point_of].
  rewrite !R_div_Ok by lra. cbn -[calculate_center_point_of].
  rewrite rise_point. cbn.
  f_equal. f_equal; [f_equal; f_equal; f_equal; field; lra | f_equal; field].
Qed.

Lemma axis_criterion (ts te : R) :
  subdivision_criterion (1 / 1000) ts te
    ((3 * ts + 3 * te) / 2, 0) (3 * ((ts + te) / 2), 0)
  = Ok (R_ltb (26 / 100) (te - ts)).
Proof.
  unfold subdivision_criterion. cbn.
  destruct (R_ltb (26 / 100) (te - ts)); [reflexivity|].
  unfold R_pow2. cbn. decide_real0. reflexivity.
Qed.

Lemma rise_criterion (ts te : R) :
  subdivision_criterion (1 / 1000) ts te
    (3, (3 * ts + 3 * te) / 2) (3, 3 * ((ts + te) / 2))
  = Ok (R_ltb (26 / 100) (te - ts)).
Proof.
  unfold subdivision_criterion. cbn.
  destruct (R_ltb (26 / 100) (te - ts)); [reflexivity|].
  unfold R_pow2. cbn. decide_real0. reflexivity.
Qed.

Lemma axis_chord_values (ts te : R) :
  ts < te ->
  convexHullSearchValues_of [(3 * ts, 0); (3 * te, 0)] (1, 0) = Ok (axis_sv ts te).
Proof.
  intros Hlt. unfold convexHullSearchValues_of, axis_sv. cbn.
  unfold py_min2, py_max2. cbn. decide_real0. reflexivity.
Qed.

Lemma rise_chord_values (ts te : R) :
  ts < te ->
  convexHullSearchValues_of [(3, 3 * ts); (3, 3 * te)] (0, 1) = Ok (rise_sv ts te).
Proof.
  intros Hlt. unfold convexHullSearchValues_of, rise_sv. cbn.
  unfold py_min2, py_max2. cbn. decide_real0. reflexivity.
Qed.

Lemma axis_leaf_init (fuel : nat) (ts te : R) :
  ts < te -> te - ts <= 26 / 100 ->
  CenterCurveSegment_init (S fuel) line_x line_y 1 0 (1 / 1000) ts te
    (Some (3 * ts, 0)) (Some (3 * te, 0)) = Ok (axis_leaf ts te).
Proof.
  intros Hlt Hshort. rewrite init_unfold.
  change (negb (len line_x =? len line_y)%Z) with false. cbv iota.
  change (len line_x <? 2)%Z with false. cbv iota.
  cbn [end_point bind].
  rewrite axis_prelude by exact Hlt. cbn [bind].
  rewrite axis_criterion. rewrite R_ltb_false by exact Hshort. cbn [bind].
  rewrite axis_chord_values by exact Hlt. reflexivity.
Qed.

Lemma rise_leaf_init (fuel : nat) (ts te : R) :
  ts < te -> te - ts <= 26 / 100 ->
  CenterCurveSegment_init (S fuel) up_x up_y 1 0 (1 / 1000) ts te
    (Some (3, 3 * ts)) (Some (3, 3 * te)) = Ok (rise_leaf ts te).
Proof.
  intros Hlt Hshort. rewrite init_unfold.
  change (negb (len up_x =? len up_y)%Z) with false. cbv iota.
  change (len up_x <? 2)%Z with false. cbv iota.
  cbn [end_point bind].
  rewrite rise_prelude by exact Hlt. cbn [bind].
  rewrite rise_criterion. rewrite R_ltb_false by exact Hshort. cbn [bind].
  rewrite rise_chord_values by exact Hlt. reflexivity.
Qed.

Lemma axis_node_init (fuel : nat) (ts te : R) :
  26 / 100 < te - ts -> te - ts <= 52 / 100 ->
  CenterCurveSegment_init (S (S fuel)) line_x line_y 1 0 (1 / 1000) ts te
    (Some (3 * ts, 0)) (Some (3 * te, 0)) = Ok (axis_node ts te).
Proof.
  intros Hlong Hshort. rewrite init_unfold.
  change (negb (len line_x =? len line_y)%Z) with false. cbv iota.
  change (len line_x <? 2)%Z with false. cbv iota.
  cbn [end_point bind].
  rewrite axis_prelude by lra. cbn [bind].
  rewrite axis_criterion. rewrite R_ltb_true by exact Hlong. cbn [bind].
  rewrite !axis_leaf_init by lra. cbn [bind].
  unfold convexHullSearchValues, axis_leaf at 1. cbn [_hullPoints].
  rewrite axis_chord_values by lra. cbn [bind].
  cbn [union_search_values].
  unfold convexHullSearchValues, axis_leaf at 1. cbn [_hullPoints].
  rewrite axis_chord_values by lra. cbn [bind].
  unfold py_min2, py_max2, axis_sv. cbn [sv0 sv1 sv2 sv3 flt fgt RArith].
  decide_real0. reflexivity.
Qed.

Lemma rise_node_init (fuel : nat) (ts te : R) :
  26 / 100 < te - ts -> te - ts <= 52 / 100 ->
  CenterCurveSegment_init (S (S fuel)) up_x up_y 1 0 (1 / 1000) ts te
    (Some (3, 3 * ts)) (Some (3, 3 * te)) = Ok (rise_node ts te).
Proof.
  intros Hlong Hshort. rewrite init_unfold.
  change (negb (len up_x =? len up_y)%Z) with false. cbv iota.
  change (len up_x <? 2)%Z with false. cbv iota.
  cbn [end_point bind].
  rewrite rise_prelude by lra. cbn [bind].
  rewrite rise_criterion. rewrite R_ltb_true by exact Hlong. cbn [bind].
  rewrite !rise_leaf_init by lra. cbn [bind].
  unfold convexHullSearchValues, rise_leaf at 1. cbn [_hullPoints].
  rewrite rise_chord_values by lra. cbn [bind].
  cbn [union_search_values].
  unfold convexHullSearchValues, rise_leaf at 1. cbn [_hullPoints].
  rewrite rise_chord_values by lra. cbn [bind].
  unfold py_min2, py_max2, rise_sv. cbn [sv0 sv1 sv2 sv3 flt fgt RArith].
  decide_real0. reflexivity.
Qed.

Lemma axis_root_init :
  CenterCurveSegment_init 3 line_x line_y 1 0 (1 / 1000) 0 1 None None
  = Ok axis_root.
Proof.
  rewrite init_unfold.
  change (negb (len line_x =? len line_y)%Z) with false. cbv iota.
  change (len line_x <? 2)%Z with false. cbv iota.
  unfold end_point. rewrite !axis_point. cbn [bind].
  rewrite axis_prelude by lra. cbn [bind].
  rewrite axis_criterion. rewrite R_ltb_true by lra. cbn [bind].
  rewrite !axis_node_init by lra. cbn [bind].
  eval_hull0. cbn [union_search_values bind]. eval_hull0.
  cbn [sv0 sv1 sv2 sv3 bind]. decide_real0.
  assert (Hm : (0 + 1) / 2 = 1 / 2) by lra. rewrite Hm.
  match goal with
  | |- Ok (mkCCS _ _ _ _ _ _ _ _ _ _ _ _ ?sv _) = _ =>
      replace sv with (axis_sv 0 1) by (unfold axis_sv; same_values0)
  end.
  reflexivity.
Qed.

Lemma rise_root_init :
  CenterCurveSegment_init 3 up_x up_y 1 0 (1 / 1000) 0 1 None None
  = Ok rise_root.
Proof.
  rewrite init_unfold.
  change (negb (len up_x =? len up_y)%Z) with false. cbv iota.
  change (len up_x <? 2)%Z with false. cbv iota.
  unfold end_point. rewrite !rise_point. cbn [bind].
  rewrite rise_prelude by lra. cbn [bind].
  rewrite rise_criterion. rewrite R_ltb_true by lra. cbn [bind].
  rewrite !rise_node_init by lra. cbn [bind].
  eval_hull0. cbn [union_search_values bind]. eval_hull0.
  cbn [sv0 sv1 sv2 sv3 bind]. decide_real0.
  assert (Hm : (0 + 1) / 2 = 1 / 2) by lra. rewrite Hm.
  match goal with
  | |- Ok (mkCCS _ _ _ _ _ _ _ _ _ _ _ _ ?sv _) = _ =>
      replace sv with (rise_sv 0 1) by (unfold rise_sv; same_values0)
  end.
  reflexivity.
Qed.

(** The last terminal node of the first tree against the first one of the
    second: the two chords end and start at the vertex. *)
Lemma leaves_touch (fuel : nat) (a d : R) :
  a < 1 -> 0 < d ->
  intersectCenterCurveSegments (S fuel) (axis_leaf a 1) (rise_leaf 0 d)
  = (axis_leaf a 1, Ok (Some (1, 0))).
Proof.
  intros Ha Hd.
  erewrite intersect_at_leaves.
  - f_equal. unfold intersect_leaves.
    cbn [_p_start _p_end _t_start _t_end axis_leaf rise_leaf fst snd
         fadd fsub fmul fopp fne f0 f1 fdiv RArith].
    assert (Hdet : (3 * 1 - 3 * a) * (3 * 0 - 3 * d) - (0 - 0) * (3 - 3) <> 0)
      by nra.
    unfold R_neb.
    destruct (Req_dec_T _ 0) as [E | _]; [contradiction|].
    rewrite !R_div_Ok by exact Hdet. cbn [bind].
    f_equal. f_equal. f_equal; field; lra.
  - eval_hull0. reflexivity.
  - eval_apart0. reflexivity.
  - eval_hull0. reflexivity.
  - eval_apart0. reflexivity.
  - reflexivity.
  - reflexivity.
Qed.

Lemma nodes_touch :
  intersectCenterCurveSegments 2 (axis_node (1 / 2) 1) (rise_node 0 (1 / 2))
  = (set_segments (axis_node (1 / 2) 1)
       (Some [axis_leaf ((1 / 2 + 1) / 2) 1;
              axis_leaf (1 / 2) ((1 / 2 + 1) / 2)]),
     Ok (Some (1, 0))).
Proof.
  etransitivity.
  - eapply intersect_descends.
    + eval_hull0. reflexivity.
    + eval_apart0. reflexivity.
    + eval_hull0. reflexivity.
    + eval_apart0. reflexivity.
    + reflexivity.
    + reflexivity.
    + reflexivity.
    + reflexivity.
  - cbn [rev app outer_loop inner_loop].
    rewrite leaves_touch by lra. reflexivity.
Qed.

(** The search on the two trees: the two segments meet at the vertex, at
    the parameters 1 and 0. *)
Lemma roots_touch :
  intersectCenterCurveSegments 3 axis_root rise_root
  = (axis_root_searched, Ok (Some (1, 0))).
Proof.
  etransitivity.
  - eapply intersect_descends.
    + eval_hull0. reflexivity.
    + eval_apart0. reflexivity.
    + eval_hull0. reflexivity.
    + eval_apart0. reflexivity.
    + reflexivity.
    + reflexivity.
    + reflexivity.
    + reflexivity.
  - cbn [rev app outer_loop inner_loop].
    rewrite nodes_touch. reflexivity.
Qed.

Lemma right_angle_trees_zero :
  corner_trees 3 zero_radius (mkNode (0, 0) (0, 0) (1, 0))
               (mkNode (2, 0) (3, 0) (3, 1)) (mkNode (3, 2) (3, 3) (3, 3))
  = Ok (axis_root, rise_root).
Proof.
  unfold corner_trees, corner_side.
  cbn [nd0 nd1 nd2 fst snd fsub fmul fgt fopp f0 f1 lit_0_001 RArith
       radius zero_radius].
  decide_real0.
  change [0; 1; 2; 3] with line_x. change [0; 0; 0; 0] with line_y.
  change [3; 3; 3; 3] with up_x. change [0; 1; 2; 3] with up_y.
  rewrite axis_root_init. cbn [bind].
  change line_x with up_y at 1.
  rewrite rise_root_init. reflexivity.
Qed.

Lemma right_angle_search_zero :
  corner_search 3 zero_radius right_angle_sp 1
  = Ok (zero_radius,
        Some (mkCorner 0 2 (mkNode (0, 0) (0, 0) (1, 0))
                       (mkNode (2, 0) (3, 0) (3, 1))
                       (mkNode (3, 2) (3, 3) (3, 3))
                       axis_root_searched (Some (1, 0)))).
Proof.
  assert (Hi : (0 < 1 < len right_angle_sp - 1)%Z) by (split; [lia | reflexivity]).
  destruct (super_node_inner_real zero_radius right_angle_sp Hi)
    as (sn & node0 & Esn & Ep & En).
  unfold corner_search. rewrite Esn. cbn [bind]. rewrite Ep, En.
  change (py_index right_angle_sp (1 - 1)) with (Ok (mkNode (0, 0) (0, 0) (1, 0))).
  change (py_index right_angle_sp (1 + 1)) with (Ok (mkNode (3, 2) (3, 3) (3, 3))).
  change (py_index right_angle_sp 1) with (Ok (mkNode (2, 0) (3, 0) (3, 1))).
  cbn [bind]. rewrite right_angle_trees_zero. cbn [bind].
  rewrite roots_touch. reflexivity.
Qed.

End RealRunZero.

Section RadiusZero.
Local Open Scope R_scope.

(** C10, amended.  In exact arithmetic, rounding with radius 0 never
    changes the subpath: whenever [subpath_round_corner] returns, it
    returns the subpath it was given.  It does end in an error, though:
    whenever the search returns parameters, whatever they are, the centre
    is the point at which the incoming segment is split, the cross product
    of [arc_bezier_handles] is zero, and the call raises
    [ZeroDivisionError]. *)
Theorem radius_zero_returns_the_subpath_or_raises
    (fuel : nat) (self : @RoundedCorners R) (sp : list (@Node R))
    (node_idx : Z) :
  radius self = 0 ->
  (forall self' sp',
      subpath_round_corner fuel self sp node_idx = Ok (self', sp') ->
      sp' = sp)
  /\ (forall self' c t,
        corner_search fuel self sp node_idx = Ok (self', Some c) ->
        c_t c = Some t ->
        subpath_round_corner fuel self sp node_idx = Raise ZeroDivisionError).
Proof.
  intros Hr. split.
  - intros self' sp' Hround.
    apply subpath_round_corner_cases in Hround.
    destruct Hround as (found & Hsearch & Hfound).
    destruct found as [c|]; [|exact Hfound].
    destruct (c_t c) as [t|]; [|exact Hfound].
    rewrite (@fit_corner_zero_radius _ _ _ _ _ _ t Hr Hsearch) in Hfound.
    discriminate Hfound.
  - intros self' c t Hsearch Ht.
    unfold subpath_round_corner. rewrite Hsearch. cbn [bind]. rewrite Ht.
    rewrite (@fit_corner_zero_radius _ _ _ _ _ _ t Hr Hsearch). reflexivity.
Qed.

(** The right angle [right_angle_sp] with radius 0: its last node is
    skipped and the subpath comes back as it was; at its vertex the search
    returns the parameters 1 and 0 of the vertex itself, and the call
    raises. *)
Lemma radius_zero_returns_the_subpath_or_raises_witness :
  radius zero_radius = 0
  /\ subpath_round_corner 3 zero_radius right_angle_sp 2
     = Ok (incr_skipped_degenerated zero_radius, right_angle_sp)
  /\ corner_search 3 zero_radius right_angle_sp 1
     = Ok (zero_radius,
           Some (mkCorner 0 2 (mkNode (0, 0) (0, 0) (1, 0))
                          (mkNode (2, 0) (3, 0) (3, 1))
                          (mkNode (3, 2) (3, 3) (3, 3))
                          axis_root_searched (Some (1, 0))))
  /\ subpath_round_corner 3 zero_radius right_angle_sp 1
     = Raise ZeroDivisionError.
Proof.
  split; [reflexivity|].
  split.
  - apply subpath_round_corner_skip. apply super_node_last; [lia | reflexivity].
  - split; [exact right_angle_search_zero|].
    exact (proj2 (@radius_zero_returns_the_subpath_or_raises
                    3 zero_radius right_angle_sp 1 eq_refl)
                 _ _ _ right_angle_search_zero eq_refl).
Defined.

End RadiusZero.
